(** * vo_tct: the true-colour terminal video output of mpv

    A shallow embedding of [video/out/vo_tct.c] and the properties of its
    colour quantiser, glyph fitter, lookup table and frame writers.

    Conventions of the embedding:
    - C [int] values are integers of [Z]; [/] on [int] is [Z.quot]
      (truncation toward zero).  Signed overflow is undefined in C and does
      not occur for the frame sizes the theorems quantify over.
    - [unsigned int] arithmetic is written with its reduction modulo 2^32
      ([u32]); a conversion to [unsigned char]/[uint8_t] is [u8].
    - [stdout] is the string of bytes written so far; every printing
      function returns the bytes it appends.
    - An out-of-bounds read, a division by zero and the use of an
      indeterminate (never assigned) local are undefined behaviour; the
      embedding returns [None] there. *)

From Stdlib Require Import ZArith String Ascii Lia DecimalString.
From stdpp Require Import base option list list_numbers strings.

Local Open Scope Z_scope.

(** ** C integer types *)

Definition INT_MAX : Z := 2147483647.

(** Conversion to [unsigned int]. *)
Definition u32 (x : Z) : Z := x mod 2 ^ 32.

(** Conversion to [unsigned char] / [uint8_t]. *)
Definition u8 (x : Z) : Z := x mod 2 ^ 8.

(** Conversion of an [unsigned int] to [int] (two's complement). *)
Definition to_int (x : Z) : Z :=
  let y := u32 x in if y <=? INT_MAX then y else y - 2 ^ 32.

(** The values an [unsigned char] holds. *)
Definition is_u8 (x : Z) : Prop := 0 <= x < 256.

(** Unsigned division; dividing by zero is undefined. *)
Definition udiv (a b : Z) : option Z :=
  if b =? 0 then None else Some (a / b).

(** The values the control variable of
    [for (i = lo; i < hi; i += step)] takes, for [step > 0]. *)
Fixpoint c_range_aux (fuel : nat) (lo hi step : Z) : list Z :=
  match fuel with
  | O => []
  | S n => if lo <? hi then lo :: c_range_aux n (lo + step) hi step else []
  end.

Definition c_range (lo hi step : Z) : list Z :=
  c_range_aux (Z.to_nat (hi - lo)) lo hi step.

(** A loop whose body may fail, run over the values of its control
    variable. *)
Fixpoint foldlM {S A : Type} (body : S -> A -> option S) (s : S)
    (l : list A) : option S :=
  match l with
  | [] => Some s
  | a :: l' => s' ← body s a; foldlM body s' l'
  end.

(** ** Output strings *)

Definition ESC : string := String "027" "".
Definition NL : string := String "010" "".
Definition NUL : ascii := "000"%char.

(** [printf("%d", n)]. *)
Definition fmt_d (n : Z) : string := NilZero.string_of_int (Z.to_int n).

Definition ESC_CLEAR_COLORS : string := ESC +:+ "[0m".
Definition ESC_COLOR_BG : string := ESC +:+ "[48;2".
Definition ESC_COLOR_FG : string := ESC +:+ "[38;2".
Definition ESC_COLOR256_BG : string := ESC +:+ "[48;5".
Definition ESC_COLOR256_FG : string := ESC +:+ "[38;5".

(** [printf(ESC_GOTOXY, row, col)] with [ESC_GOTOXY = "\033[%d;%df"]. *)
Definition printf_ESC_GOTOXY (row col : Z) : string :=
  ESC +:+ "[" +:+ fmt_d row +:+ ";" +:+ fmt_d col +:+ "f".

Definition concat_str (l : list string) : string :=
  foldr String.append "" l.

(** ** rgb_to_x256 *)

Definition v2ci (v : Z) : Z :=
  if v <? 48 then 0 else if v <? 115 then 1 else (v - 35) `quot` 40.

Definition i2cv : list Z := [0; 0x5f; 0x87; 0xaf; 0xd7; 0xff].

Definition dist_square (A B C a b c : Z) : Z :=
  (A - a) * (A - a) + (B - b) * (B - b) + (C - c) * (C - c).

Definition gray_index_of (r g b : Z) : Z :=
  let average := (r + g + b) `quot` 3 in
  if 238 <? average then 23 else (average - 3) `quot` 10.

(** The two squared distances [color_err] and [gray_err] that
    [rgb_to_x256] compares. *)
Definition x256_errors (r g b : Z) : option (Z * Z) :=
  let ir := v2ci r in
  let ig := v2ci g in
  let ib := v2ci b in
  let gray_index := gray_index_of r g b in
  cr ← i2cv !! Z.to_nat ir;
  cg ← i2cv !! Z.to_nat ig;
  cb ← i2cv !! Z.to_nat ib;
  let gv := 8 + 10 * gray_index in
  Some (dist_square cr cg cb r g b, dist_square gv gv gv r g b).

Definition rgb_to_x256 (r g b : Z) : option Z :=
  let ir := v2ci r in
  let ig := v2ci g in
  let ib := v2ci b in
  let color_index := 36 * ir + 6 * ig + ib in
  let average := (r + g + b) `quot` 3 in
  let gray_index := if 238 <? average then 23 else (average - 3) `quot` 10 in
  cr ← i2cv !! Z.to_nat ir;
  cg ← i2cv !! Z.to_nat ig;
  cb ← i2cv !! Z.to_nat ib;
  let gv := 8 + 10 * gray_index in
  let color_err := dist_square cr cg cb r g b in
  let gray_err := dist_square gv gv gv r g b in
  Some (if color_err <=? gray_err then 16 + color_index else 232 + gray_index).

(** ** The lookup table of decimal fragments *)

Record lut_item := { str : string; width : Z }.

(** [fwrite(p, n, 1, stdout)] for a [char] array [p]: its first [n]
    bytes; reading past the array is undefined. *)
Definition fwrite (p : string) (n : Z) : option string :=
  if (0 <=? n) && (n <=? Z.of_nat (String.length p))
  then Some (substring 0 (Z.to_nat n) p) else None.

(** [sprintf(buff, fmt, ...)] producing [text]: the text and its
    terminating NUL overwrite the start of [buff], whose other bytes
    keep their value; the result is the length of the text. *)
Definition sprintf (buff text : string) : option (string * Z) :=
  let n := S (String.length text) in
  if (n <=? String.length buff)%nat
  then Some (text +:+ String NUL (substring n (String.length buff - n) buff),
             Z.of_nat (String.length text))
  else None.

(** [a[i] = v]; writing outside the array is undefined. *)
Definition store {A : Type} (a : list A) (i : Z) (v : A) : option (list A) :=
  if (0 <=? i) && (i <? Z.of_nat (length a))
  then Some (<[Z.to_nat i := v]> a) else None.

(** [a[i]] for an array whose elements may be indeterminate. *)
Definition fetch {A : Type} (a : list (option A)) (i : Z) : option A :=
  if i <? 0 then None else mjoin (a !! Z.to_nat i).

(** [memcpy(dst, src, n)] into a [char dst[n]]. *)
Definition memcpy (src : string) (n : nat) : option string :=
  if (n <=? String.length src)%nat then Some (substring 0 n src) else None.

(** The loop of [preinit] that fills [p->lut].  [lut0] is the table
    before the loop and [junk i] the indeterminate contents of the local
    [char buff[8]] in iteration [i]. *)
Definition preinit (junk : Z -> string) (lut0 : list lut_item)
    : option (list lut_item) :=
  foldlM (fun lut i =>
            '(buff, w) ← sprintf (junk i) (";" +:+ fmt_d i);
            s ← memcpy buff 4;
            store lut i {| str := s; width := w |})
         lut0 (c_range 0 256 1).

(** [print_seq3], the branch compiled when [_WIN32] is not defined. *)
Definition print_seq3 (lut : list lut_item) (prefix : string) (r g b : Z)
    : option string :=
  lr ← lut !! Z.to_nat r;
  sr ← fwrite (str lr) (width lr);
  lg ← lut !! Z.to_nat g;
  sg ← fwrite (str lg) (width lg);
  lb ← lut !! Z.to_nat b;
  sb ← fwrite (str lb) (width lb);
  Some (prefix +:+ sr +:+ sg +:+ sb +:+ "m").

(** [print_seq3], the [_WIN32] branch:
    [printf("%s;%d;%d;%dm", prefix, (int)r, (int)g, (int)b)]. *)
Definition print_seq3_win32 (prefix : string) (r g b : Z) : string :=
  prefix +:+ ";" +:+ fmt_d r +:+ ";" +:+ fmt_d g +:+ ";" +:+ fmt_d b +:+ "m".

(** [print_seq1], the branch compiled when [_WIN32] is not defined. *)
Definition print_seq1 (lut : list lut_item) (prefix : string) (c : Z)
    : option string :=
  lc ← lut !! Z.to_nat c;
  sc ← fwrite (str lc) (width lc);
  Some (prefix +:+ sc +:+ "m").

(** [print_seq1], the [_WIN32] branch: [printf("%s;%dm", prefix, (int)c)]. *)
Definition print_seq1_win32 (prefix : string) (c : Z) : string :=
  prefix +:+ ";" +:+ fmt_d c +:+ "m".

(** ** Block elements *)

Definition LOWER_HALF : Z := 0.
Definition LEFT_HALF : Z := 1.
Definition QUADRANT_LOWER_LEFT : Z := 2.
Definition QUADRANT_LOWER_RIGHT : Z := 3.
Definition QUADRANT_UPPER_LEFT : Z := 4.
Definition QUADRANT_UPPER_RIGHT : Z := 5.
Definition QUADRANT_UPPER_RIGHT_LOWER_LEFT : Z := 6.
Definition LOWER_ONE_QUARTER : Z := 7.
Definition LOWER_THREE_QUARTERS : Z := 8.
Definition LEFT_ONE_QUARTER : Z := 9.
Definition LEFT_THREE_QUARTERS : Z := 10.
Definition LOWER_ONE_EIGHTH : Z := 11.
Definition LOWER_THREE_EIGHTHS : Z := 12.
Definition LOWER_FIVE_EIGHTHS : Z := 13.
Definition LOWER_SEVEN_EIGHTHS : Z := 14.
Definition LEFT_ONE_EIGHTH : Z := 15.
Definition LEFT_THREE_EIGHTHS : Z := 16.
Definition LEFT_FIVE_EIGHTHS : Z := 17.
Definition LEFT_SEVEN_EIGHTHS : Z := 18.
Definition NUM_ELEMENTS : Z := 19.

Record block_element := { bitmap : Z; utf8 : string }.

(** The value of a binary literal [0b...], given by its digits. *)
Fixpoint bin_digits (acc : Z) (s : string) : Z :=
  match s with
  | EmptyString => acc
  | String c s' =>
      bin_digits (2 * acc + (if Ascii.eqb c "1" then 1 else 0)) s'
  end.

Definition binary (s : string) : Z := bin_digits 0 s.

(** The three bytes ["\xe2\x96\x.."] of a block element. *)
Definition xe2_x96 (c : ascii) : string :=
  String "226" (String "150" (String c "")).

Definition block_elements : list block_element :=
  [ (* LOWER_HALF *)
    {| bitmap := binary "0000000000000000000000000000000011111111111111111111111111111111";
       utf8 := xe2_x96 "132" (* \x84 *) |};
    (* LEFT_HALF *)
    {| bitmap := binary "1111000011110000111100001111000011110000111100001111000011110000";
       utf8 := xe2_x96 "140" (* \x8c *) |};
    (* QUADRANT_LOWER_LEFT *)
    {| bitmap := binary "0000000000000000000000000000000011110000111100001111000011110000";
       utf8 := xe2_x96 "150" (* \x96 *) |};
    (* QUADRANT_LOWER_RIGHT *)
    {| bitmap := binary "0000000000000000000000000000000000001111000011110000111100001111";
       utf8 := xe2_x96 "151" (* \x97 *) |};
    (* QUADRANT_UPPER_LEFT *)
    {| bitmap := binary "1111000011110000111100001111000000000000000000000000000000000000";
       utf8 := xe2_x96 "152" (* \x98 *) |};
    (* QUADRANT_UPPER_RIGHT *)
    {| bitmap := binary "0000111100001111000011110000111100000000000000000000000000000000";
       utf8 := xe2_x96 "157" (* \x9d *) |};
    (* QUADRANT_UPPER_RIGHT_LOWER_LEFT *)
    {| bitmap := binary "0000111100001111000011110000111111110000111100001111000011110000";
       utf8 := xe2_x96 "158" (* \x9e *) |};
    (* LOWER_ONE_QUARTER *)
    {| bitmap := binary "0000000000000000000000000000000000000000000000001111111111111111";
       utf8 := xe2_x96 "130" (* \x82 *) |};
    (* LOWER_THREE_QUARTERS *)
    {| bitmap := binary "0000000000000000111111111111111111111111111111111111111111111111";
       utf8 := xe2_x96 "134" (* \x86 *) |};
    (* LEFT_ONE_QUARTER *)
    {| bitmap := binary "1100000011000000110000001100000011000000110000001100000011000000";
       utf8 := xe2_x96 "142" (* \x8e *) |};
    (* LEFT_THREE_QUARTERS *)
    {| bitmap := binary "1111110011111100111111001111110011111100111111001111110011111100";
       utf8 := xe2_x96 "138" (* \x8a *) |};
    (* LOWER_ONE_EIGHTH *)
    {| bitmap := binary "0000000000000000000000000000000000000000000000000000000011111111";
       utf8 := xe2_x96 "129" (* \x81 *) |};
    (* LOWER_THREE_EIGHTHS *)
    {| bitmap := binary "0000000000000000000000000000000000000000111111111111111111111111";
       utf8 := xe2_x96 "131" (* \x83 *) |};
    (* LOWER_FIVE_EIGHTHS *)
    {| bitmap := binary "0000000000000000000000001111111111111111111111111111111111111111";
       utf8 := xe2_x96 "133" (* \x85 *) |};
    (* LOWER_SEVEN_EIGHTHS *)
    {| bitmap := binary "0000000011111111111111111111111111111111111111111111111111111111";
       utf8 := xe2_x96 "135" (* \x87 *) |};
    (* LEFT_ONE_EIGHTH *)
    {| bitmap := binary "1000000010000000100000001000000010000000100000001000000010000000";
       utf8 := xe2_x96 "143" (* \x8f *) |};
    (* LEFT_THREE_EIGHTHS *)
    {| bitmap := binary "1110000011100000111000001110000011100000111000001110000011100000";
       utf8 := xe2_x96 "141" (* \x8d *) |};
    (* LEFT_FIVE_EIGHTHS *)
    {| bitmap := binary "1111100011111000111110001111100011111000111110001111100011111000";
       utf8 := xe2_x96 "139" (* \x8b *) |};
    (* LEFT_SEVEN_EIGHTHS *)
    {| bitmap := binary "1111111011111110111111101111111011111110111111101111111011111110";
       utf8 := xe2_x96 "137" (* \x89 *) |} ].

Definition WINDOW_H : Z := 8.
Definition WINDOW_W : Z := 8.
Definition WINDOW_SZ : Z := WINDOW_W * WINDOW_H.

(** selects i-th foreground bit out of bitmap *)
Definition is_fg (bits i : Z) : Z :=
  Z.land (Z.shiftr bits (WINDOW_SZ - 1 - i)) 1.

Definition square (v : Z) : Z := v * v.

Record rgb_color := { r : Z; g : Z; b : Z }.

(** A byte of the frame at offset [off] from [source]. *)
Definition load (source : list Z) (off : Z) : option Z :=
  if off <? 0 then None else source !! Z.to_nat off.

Definition get_rgb (source : list Z) (base_pixel : Z) : option rgb_color :=
  cb ← load source base_pixel;
  let base_pixel := base_pixel + 1 in
  cg ← load source base_pixel;
  let base_pixel := base_pixel + 1 in
  cr ← load source base_pixel;
  Some {| r := cr; g := cg; b := cb |}.

(** The accumulators of [best_fg_bg]. *)
Record sums := {
  sum_fg_r : Z; sum_fg_g : Z; sum_fg_b : Z;
  sum_bg_r : Z; sum_bg_g : Z; sum_bg_b : Z;
  sum_fg2_r : Z; sum_fg2_g : Z; sum_fg2_b : Z;
  sum_bg2_r : Z; sum_bg2_g : Z; sum_bg2_b : Z;
  num_fg : Z; num_bg : Z }.

Definition sums_zero : sums :=
  {| sum_fg_r := 0; sum_fg_g := 0; sum_fg_b := 0;
     sum_bg_r := 0; sum_bg_g := 0; sum_bg_b := 0;
     sum_fg2_r := 0; sum_fg2_g := 0; sum_fg2_b := 0;
     sum_bg2_r := 0; sum_bg2_g := 0; sum_bg2_b := 0;
     num_fg := 0; num_bg := 0 |}.

(** One iteration of the loop of [best_fg_bg] over the window. *)
Definition accumulate (bits : Z) (win_pixels : list rgb_color)
    (s : sums) (i : Z) : option sums :=
  p ← win_pixels !! Z.to_nat i;
  if negb (is_fg bits i =? 0) then
    Some {| num_fg := u32 (num_fg s + 1);
            sum_fg_r := u32 (sum_fg_r s + r p);
            sum_fg_g := u32 (sum_fg_g s + g p);
            sum_fg_b := u32 (sum_fg_b s + b p);
            sum_fg2_r := u32 (sum_fg2_r s + square (r p));
            sum_fg2_g := u32 (sum_fg2_g s + square (g p));
            sum_fg2_b := u32 (sum_fg2_b s + square (b p));
            num_bg := num_bg s;
            sum_bg_r := sum_bg_r s; sum_bg_g := sum_bg_g s;
            sum_bg_b := sum_bg_b s;
            sum_bg2_r := sum_bg2_r s; sum_bg2_g := sum_bg2_g s;
            sum_bg2_b := sum_bg2_b s |}
  else
    Some {| num_bg := u32 (num_bg s + 1);
            sum_bg_r := u32 (sum_bg_r s + r p);
            sum_bg_g := u32 (sum_bg_g s + g p);
            sum_bg_b := u32 (sum_bg_b s + b p);
            sum_bg2_r := u32 (sum_bg2_r s + square (r p));
            sum_bg2_g := u32 (sum_bg2_g s + square (g p));
            sum_bg2_b := u32 (sum_bg2_b s + square (b p));
            num_fg := num_fg s;
            sum_fg_r := sum_fg_r s; sum_fg_g := sum_fg_g s;
            sum_fg_b := sum_fg_b s;
            sum_fg2_r := sum_fg2_r s; sum_fg2_g := sum_fg2_g s;
            sum_fg2_b := sum_fg2_b s |}.

(** The accumulators after the loop of [best_fg_bg]. *)
Definition window_sums (elem : Z) (win_pixels : list rgb_color)
    : option sums :=
  be ← block_elements !! Z.to_nat elem;
  foldlM (accumulate (bitmap be) win_pixels) sums_zero
         (c_range 0 WINDOW_SZ 1).

(** Computes forground/background colors that best fit window of pixels,
    given a block element.  The result is [(mean_fg, mean_bg, loss)]. *)
Definition best_fg_bg (elem : Z) (win_pixels : list rgb_color)
    : option (rgb_color * rgb_color * Z) :=
  s ← window_sums elem win_pixels;
  fr ← udiv (sum_fg_r s) (num_fg s);
  fg_ ← udiv (sum_fg_g s) (num_fg s);
  fb ← udiv (sum_fg_b s) (num_fg s);
  let mean_fg := {| r := u8 fr; g := u8 fg_; b := u8 fb |} in
  br ← udiv (sum_bg_r s) (num_bg s);
  bg_ ← udiv (sum_bg_g s) (num_bg s);
  bb ← udiv (sum_bg_b s) (num_bg s);
  let mean_bg := {| r := u8 br; g := u8 bg_; b := u8 bb |} in
  let loss := 0 in
  let loss := u32 (loss + u32 (sum_fg2_r s - u32 (num_fg s * square (r mean_fg)))) in
  let loss := u32 (loss + u32 (sum_fg2_g s - u32 (num_fg s * square (g mean_fg)))) in
  let loss := u32 (loss + u32 (sum_fg2_b s - u32 (num_fg s * square (b mean_fg)))) in
  let loss := u32 (loss + u32 (sum_bg2_r s - u32 (num_bg s * square (r mean_bg)))) in
  let loss := u32 (loss + u32 (sum_bg2_g s - u32 (num_bg s * square (g mean_bg)))) in
  let loss := u32 (loss + u32 (sum_bg2_b s - u32 (num_bg s * square (b mean_bg)))) in
  Some (mean_fg, mean_bg, loss).

(** The locals of [guess_best_block_element] together with the two
    output colours; [None] is a value never assigned. *)
Record guess_state := {
  best_loss : Z;
  best_elem : option Z;
  best_fg : option rgb_color;
  best_bg : option rgb_color }.

(** One iteration of the search of [guess_best_block_element]. *)
Definition guess_step (win_pixels : list rgb_color) (st : guess_state)
    (elem : Z) : option guess_state :=
  '(fg, bg, loss) ← best_fg_bg elem win_pixels;
  if loss <? u32 (best_loss st) then
    Some {| best_elem := Some elem;
            best_loss := to_int loss;
            best_fg := Some fg;
            best_bg := Some bg |}
  else Some st.

(** The state of [guess_best_block_element] after its loop; [best_fg0]
    and [best_bg0] are what the output colours hold on entry. *)
Definition guess_search (win_pixels : list rgb_color)
    (best_fg0 best_bg0 : option rgb_color) : option guess_state :=
  foldlM (guess_step win_pixels)
         {| best_loss := INT_MAX; best_elem := None;
            best_fg := best_fg0; best_bg := best_bg0 |}
         (c_range 0 NUM_ELEMENTS 1).

(** Returns UTF8 representation for best block element that fits window
    of pixels, with the two output colours. *)
Definition guess_best_block_element (win_pixels : list rgb_color)
    (best_fg0 best_bg0 : option rgb_color)
    : option (string * option rgb_color * option rgb_color) :=
  st ← guess_search win_pixels best_fg0 best_bg0;
  e ← best_elem st;
  be ← block_elements !! Z.to_nat e;
  Some (utf8 be, best_fg st, best_bg st).

(** ** The frame writers *)

(** The colour sequence of one pixel, in either colour mode. *)
Definition print_color (term256 : bool) (lut : list lut_item)
    (prefix256 prefix : string) (r g b : Z) : option string :=
  if term256 then
    c ← rgb_to_x256 r g b;
    print_seq1 lut prefix256 (u8 c)
  else print_seq3 lut prefix r g b.

(** The body of the column loop of [write_plain]; the state is the
    pointer [row] (an offset from [source]) and [stdout]. *)
Definition write_plain_cell (source : list Z) (term256 : bool)
    (lut : list lut_item) (st : Z * string) (x : Z) : option (Z * string) :=
  let '(row, out) := st in
  b ← load source row; let row := row + 1 in
  g ← load source row; let row := row + 1 in
  r ← load source row; let row := row + 1 in
  s ← print_color term256 lut ESC_COLOR256_BG ESC_COLOR_BG r g b;
  let out := out +:+ s in
  let out := out +:+ " " in
  Some (row, out).

Definition write_plain (dwidth dheight swidth sheight : Z)
    (source : list Z) (source_stride : Z) (term256 : bool)
    (lut : list lut_item) : option string :=
  let tx := (dwidth - swidth) `quot` 2 in
  let ty := (dheight - sheight) `quot` 2 in
  out ← foldlM (fun out y =>
                  let row := y * source_stride in
                  let out := out +:+ printf_ESC_GOTOXY (ty + y) tx in
                  '(_, out) ← foldlM (write_plain_cell source term256 lut)
                                     (row, out) (c_range 0 swidth 1);
                  Some (out +:+ ESC_CLEAR_COLORS))
               "" (c_range 0 sheight 1);
  Some (out +:+ NL).

(** The body of the column loop of [write_half_blocks]; the state is
    [row_up], [row_down] and [stdout]. *)
Definition write_half_blocks_cell (source : list Z) (term256 : bool)
    (lut : list lut_item) (st : Z * Z * string) (x : Z)
    : option (Z * Z * string) :=
  let '(row_up, row_down, out) := st in
  b_up ← load source row_up; let row_up := row_up + 1 in
  g_up ← load source row_up; let row_up := row_up + 1 in
  r_up ← load source row_up; let row_up := row_up + 1 in
  b_down ← load source row_down; let row_down := row_down + 1 in
  g_down ← load source row_down; let row_down := row_down + 1 in
  r_down ← load source row_down; let row_down := row_down + 1 in
  s1 ← print_color term256 lut ESC_COLOR256_BG ESC_COLOR_BG r_up g_up b_up;
  let out := out +:+ s1 in
  s2 ← print_color term256 lut ESC_COLOR256_FG ESC_COLOR_FG
                   r_down g_down b_down;
  let out := out +:+ s2 in
  let out := out +:+ xe2_x96 "132" (* \x84 *) in
  Some (row_up, row_down, out).

Definition write_half_blocks (dwidth dheight swidth sheight : Z)
    (source : list Z) (source_stride : Z) (term256 : bool)
    (lut : list lut_item) : option string :=
  let tx := (dwidth - swidth) `quot` 2 in
  let ty := (dheight - sheight) `quot` 2 in
  out ← foldlM (fun out y =>
                  let row_up := y * source_stride in
                  let row_down := (y + 1) * source_stride in
                  let out := out +:+ printf_ESC_GOTOXY (ty + y `quot` 2) tx in
                  '(_, _, out) ← foldlM
                                   (write_half_blocks_cell source term256 lut)
                                   (row_up, row_down, out)
                                   (c_range 0 swidth 1);
                  Some (out +:+ ESC_CLEAR_COLORS))
               "" (c_range 0 (sheight * 2) 2);
  Some (out +:+ NL).

(** The locals of [write_all_blocks] that live across cells, and
    [stdout]. *)
Record blocks_state := {
  win_pixels : list (option rgb_color);
  fg : option rgb_color;
  bg : option rgb_color;
  out : string }.

(** The innermost statement of the window fill: the state is [j],
    [rows] and [win_pixels]. *)
Definition fill_pixel (source : list Z) (i : Z)
    (st : list (option Z) * list (option rgb_color)) (j : Z)
    : option (list (option Z) * list (option rgb_color)) :=
  let '(rows, win) := st in
  p ← fetch rows i;
  c ← get_rgb source p;
  win ← store win j (Some c);
  rows ← store rows i (Some (p + 3));
  Some (rows, win).

(** The loop over [i] of the window fill; [j] is carried from one row of
    the window to the next. *)
Definition fill_row (source : list Z)
    (st : Z * list (option Z) * list (option rgb_color)) (i : Z)
    : option (Z * list (option Z) * list (option rgb_color)) :=
  let '(j, rows, win) := st in
  let js := c_range j (WINDOW_W * (i + 1)) 1 in
  '(rows, win) ← foldlM (fill_pixel source i) (rows, win) js;
  Some (j + Z.of_nat (length js), rows, win).

(** The body of the column loop of [write_all_blocks]. *)
Definition write_all_blocks_cell (source : list Z) (term256 : bool)
    (lut : list lut_item) (st : list (option Z) * blocks_state) (x : Z)
    : option (list (option Z) * blocks_state) :=
  let '(rows, bs) := st in
  let j := 0 in
  '(_, rows, win) ← foldlM (fill_row source) (j, rows, win_pixels bs)
                           (c_range 0 WINDOW_H 1);
  w ← mapM id win;
  '(utf8_block_element, fg, bg) ← guess_best_block_element w (fg bs) (bg bs);
  cbg ← bg;
  cfg ← fg;
  s1 ← print_color term256 lut ESC_COLOR256_BG ESC_COLOR_BG
                   (r cbg) (g cbg) (b cbg);
  let out := out bs +:+ s1 in
  s2 ← print_color term256 lut ESC_COLOR256_FG ESC_COLOR_FG
                   (r cfg) (g cfg) (b cfg);
  let out := out +:+ s2 in
  let out := out +:+ utf8_block_element in
  Some (rows, {| win_pixels := win; fg := fg; bg := bg; out := out |}).

Definition write_all_blocks (dwidth dheight swidth sheight : Z)
    (source : list Z) (source_stride : Z) (term256 : bool)
    (lut : list lut_item) : option string :=
  let tx := (dwidth - swidth) `quot` 2 in
  let ty := (dheight - sheight) `quot` 2 in
  bs ← foldlM
         (fun bs y =>
            let rows := replicate (Z.to_nat WINDOW_H) None in
            rows ← foldlM (fun rows i =>
                             store rows i (Some ((y + i) * source_stride)))
                          rows (c_range 0 WINDOW_H 1);
            let bs := {| win_pixels := win_pixels bs; fg := fg bs;
                         bg := bg bs;
                         out := out bs
                                +:+ printf_ESC_GOTOXY (ty + y `quot` WINDOW_H) tx |} in
            '(_, bs) ← foldlM (write_all_blocks_cell source term256 lut)
                              (rows, bs) (c_range 0 swidth 1);
            Some {| win_pixels := win_pixels bs; fg := fg bs; bg := bg bs;
                    out := out bs +:+ ESC_CLEAR_COLORS |})
         {| win_pixels := replicate (Z.to_nat WINDOW_SZ) None;
            fg := None; bg := None; out := "" |}
         (c_range 0 (sheight * WINDOW_H) WINDOW_H);
  Some (out bs +:+ NL).

(** ** Specification-level definitions *)

(** The table entry [preinit] computes for [i] from the indeterminate
    buffer contents [buff]. *)
Definition lut_entry (buff : string) (i : Z) : option lut_item :=
  '(buff, w) ← sprintf buff (";" +:+ fmt_d i);
  s ← memcpy buff 4;
  Some {| str := s; width := w |}.

(** The number of decimal digits of a byte value. *)
Definition fmt_d_width (i : Z) : Z :=
  if i <? 10 then 1 else if i <? 100 then 2 else 3.

(** A table whose entry for every byte value prints [;] and the decimal
    digits of the value. *)
Definition lut_ok (lut : list lut_item) : Prop :=
  forall i, 0 <= i < 256 ->
  exists item, lut !! Z.to_nat i = Some item /\
               fwrite (str item) (width item) = Some (";" +:+ fmt_d i).

(** A colour whose channels are values of [unsigned char]. *)
Definition wf_color (c : rgb_color) : Prop :=
  is_u8 (r c) /\ is_u8 (g c) /\ is_u8 (b c).

(** A [struct rgb_color win_pixels[WINDOW_SZ]]. *)
Definition wf_window (win : list rgb_color) : Prop :=
  length win = Z.to_nat WINDOW_SZ /\ Forall wf_color win.

(** The pixels of [win], whose first pixel has index [i], that a coverage
    mask puts on one side: the foreground for [side = true]. *)
Fixpoint pick (side : bool) (bits i : Z) (win : list rgb_color)
    : list rgb_color :=
  match win with
  | [] => []
  | p :: w =>
      if Bool.eqb (negb (is_fg bits i =? 0)) side
      then p :: pick side bits (i + 1) w
      else pick side bits (i + 1) w
  end.

(** Sum, sum of squares, truncated mean and loss contribution of one
    channel [ch] over a list of pixels. *)
Definition chan_sum (ch : rgb_color -> Z) (l : list rgb_color) : Z :=
  foldr (fun p a => ch p + a) 0 l.

Definition chan_sum2 (ch : rgb_color -> Z) (l : list rgb_color) : Z :=
  foldr (fun p a => ch p * ch p + a) 0 l.

Definition chan_mean (ch : rgb_color -> Z) (l : list rgb_color) : Z :=
  chan_sum ch l / Z.of_nat (length l).

Definition chan_loss (ch : rgb_color -> Z) (l : list rgb_color) : Z :=
  chan_sum2 ch l - Z.of_nat (length l) * (chan_mean ch l * chan_mean ch l).

Definition mean_color (l : list rgb_color) : rgb_color :=
  {| r := chan_mean r l; g := chan_mean g l; b := chan_mean b l |}.

(** The accumulators of [best_fg_bg] without wrap-around, for the
    foreground pixels [F] and the background pixels [B]. *)
Definition exact_sums (F B : list rgb_color) : sums :=
  {| sum_fg_r := chan_sum r F; sum_fg_g := chan_sum g F;
     sum_fg_b := chan_sum b F;
     sum_bg_r := chan_sum r B; sum_bg_g := chan_sum g B;
     sum_bg_b := chan_sum b B;
     sum_fg2_r := chan_sum2 r F; sum_fg2_g := chan_sum2 g F;
     sum_fg2_b := chan_sum2 b F;
     sum_bg2_r := chan_sum2 r B; sum_bg2_g := chan_sum2 g B;
     sum_bg2_b := chan_sum2 b B;
     num_fg := Z.of_nat (length F); num_bg := Z.of_nat (length B) |}.

(** The loss of a coverage mask on a window: six contributions, one per
    channel and per side. *)
Definition mask_loss (bits : Z) (win : list rgb_color) : Z :=
  let F := pick true bits 0 win in
  let B := pick false bits 0 win in
  chan_loss r F + chan_loss g F + chan_loss b F
  + chan_loss r B + chan_loss g B + chan_loss b B.
(** The number of window positions [i .. i + n - 1] that a coverage mask
    puts on one side. *)
Fixpoint count_side (side : bool) (bits i : Z) (n : nat) : nat :=
  match n with
  | O => O
  | S n' =>
      (if Bool.eqb (negb (is_fg bits i =? 0)) side then 1 else 0)
      + count_side side bits (i + 1) n'
  end.

(** What a catalog entry needs for a proper two-sided fit: a 64-bit mask
    that is neither empty nor full, with a foreground and a background
    position in the window. *)
Definition proper_mask (be : block_element) : bool :=
  (0 <? bitmap be) && (bitmap be <? 2 ^ 64 - 1)
  && (0 <? count_side true (bitmap be) 0 64)%nat
  && (0 <? count_side false (bitmap be) 0 64)%nat
  && existsb (fun i => is_fg (bitmap be) i =? 1) (seqZ 0 WINDOW_SZ)
  && existsb (fun i => is_fg (bitmap be) i =? 0) (seqZ 0 WINDOW_SZ).
(** The loss of catalog entry [elem] on a window. *)
Definition elem_loss (elem : Z) (win : list rgb_color) : Z :=
  match block_elements !! Z.to_nat elem with
  | Some be => mask_loss (bitmap be) win
  | None => 0
  end.
(** A window that is uniformly the colour [c]. *)
Definition uniform_window (c : rgb_color) (win : list rgb_color) : Prop :=
  length win = Z.to_nat WINDOW_SZ /\ forall p, p ∈ win -> p = c.

(** A window whose left four columns are the colour [A] and whose right
    four columns are the colour [B]; position [i] is in column
    [i mod WINDOW_W]. *)
Definition vertical_edge_window (A B : rgb_color) (win : list rgb_color)
    : Prop :=
  length win = Z.to_nat WINDOW_SZ /\
  forall i, 0 <= i < WINDOW_SZ ->
    win !! Z.to_nat i = Some (if i mod WINDOW_W <? 4 then A else B).

(** A window of 64 different colours, for examples. *)
Definition sample_window : list rgb_color :=
  (fun i => {| r := i; g := 255 - i; b := 3 * i |}) <$> seqZ 0 64.

(** The table [preinit] builds from a buffer of question marks and a
    table of empty entries, for examples. *)
Definition sample_lut : list lut_item :=
  default [] (preinit (fun _ => "????????")
                      (replicate 256 {| str := ""; width := 0 |})).

(** The pixel in row [y] and column [x] of the frame. *)
Definition pixel_at (source : list Z) (source_stride y x : Z)
    : option rgb_color :=
  get_rgb source (y * source_stride + 3 * x).

(** Every pixel of a frame of [rows] rows and [cols] columns lies inside
    the buffer, and the buffer holds bytes. *)
Definition frame_readable (source : list Z) (source_stride rows cols : Z)
    : Prop :=
  forall y x, 0 <= y < rows -> 0 <= x < cols ->
  exists c, pixel_at source source_stride y x = Some c /\ wf_color c.

(** The bytes of one cell of each strategy: colour sequence(s), then the
    glyph. *)
Definition plain_cell (source : list Z) (source_stride : Z) (term256 : bool)
    (lut : list lut_item) (y x : Z) : option string :=
  c ← pixel_at source source_stride y x;
  s ← print_color term256 lut ESC_COLOR256_BG ESC_COLOR_BG (r c) (g c) (b c);
  Some (s +:+ " ").

Definition half_blocks_cell (source : list Z) (source_stride : Z)
    (term256 : bool) (lut : list lut_item) (y x : Z) : option string :=
  up ← pixel_at source source_stride (2 * y) x;
  down ← pixel_at source source_stride (2 * y + 1) x;
  s1 ← print_color term256 lut ESC_COLOR256_BG ESC_COLOR_BG
                   (r up) (g up) (b up);
  s2 ← print_color term256 lut ESC_COLOR256_FG ESC_COLOR_FG
                   (r down) (g down) (b down);
  Some (s1 +:+ s2 +:+ xe2_x96 "132").

(** The 8x8 window of the cell in row [y] and column [x], row-major. *)
Definition window_at (source : list Z) (source_stride y x : Z)
    : option (list rgb_color) :=
  mapM (fun k => pixel_at source source_stride
                          (WINDOW_H * y + k `quot` WINDOW_W)
                          (WINDOW_W * x + k `rem` WINDOW_W))
       (seqZ 0 WINDOW_SZ).

Definition all_blocks_cell (source : list Z) (source_stride : Z)
    (term256 : bool) (lut : list lut_item) (y x : Z) : option string :=
  w ← window_at source source_stride y x;
  '(glyph, fg, bg) ← guess_best_block_element w None None;
  cbg ← bg;
  cfg ← fg;
  s1 ← print_color term256 lut ESC_COLOR256_BG ESC_COLOR_BG
                   (r cbg) (g cbg) (b cbg);
  s2 ← print_color term256 lut ESC_COLOR256_FG ESC_COLOR_FG
                   (r cfg) (g cfg) (b cfg);
  Some (s1 +:+ s2 +:+ glyph).

(** The bytes of a frame of [rows] rows and [cols] columns: per row one
    cursor position, the cells and one colour reset; one newline after
    the last row. *)
Definition frame_layout (ty tx rows cols : Z) (cell : Z -> Z -> string)
    : string :=
  concat_str ((fun y => printf_ESC_GOTOXY (ty + y) tx
                        +:+ concat_str (cell y <$> seqZ 0 cols)
                        +:+ ESC_CLEAR_COLORS) <$> seqZ 0 rows)
  +:+ NL.

(** The layout as the specification words it: the offsets by floor
    division, the row and column arguments counted from [first] (1 if
    the row index and the first column are taken 1-based, 0 if they are
    taken as offsets), and a newline after the reset of each row. *)
Definition spec_frame_layout (first dwidth dheight rows cols : Z)
    (cell : Z -> Z -> string) : string :=
  let tx := (dwidth - cols) / 2 in
  let ty := (dheight - rows) / 2 in
  concat_str ((fun y => printf_ESC_GOTOXY (ty + (y + first)) (tx + first)
                        +:+ concat_str (cell y <$> seqZ 0 cols)
                        +:+ ESC_CLEAR_COLORS +:+ NL) <$> seqZ 0 rows).

(** The pointers [rows[0..7]] of [write_all_blocks] after [t] pixels of
    the window of output row [y] and column [x] have been read: row [i]
    of the window has advanced by the pixels read from it. *)
Definition rows_at (source_stride y x t : Z) : list (option Z) :=
  (fun i => Some ((WINDOW_H * y + i) * source_stride + 3 * (WINDOW_W * x)
                  + 3 * Z.max 0 (Z.min WINDOW_W (t - WINDOW_W * i))))
  <$> seqZ 0 WINDOW_H.

(** The array [win_pixels] after its first [t] elements have been
    assigned the pixels of [W]. *)
Definition win_at (W : list rgb_color) (win0 : list (option rgb_color))
    (t : Z) : list (option rgb_color) :=
  (Some <$> take (Z.to_nat t) W) ++ drop (Z.to_nat t) win0.
(** The strategies, and the switch of [flip_page] that selects the
    writer ([default] is ALGO_HALF_BLOCKS). *)
Definition ALGO_PLAIN : Z := 1.
Definition ALGO_HALF_BLOCKS : Z := 2.
Definition ALGO_ALL_BLOCKS : Z := 3.

Definition flip_page (algo dwidth dheight swidth sheight : Z)
    (planes0 : list Z) (stride0 : Z) (term256 : bool) (lut : list lut_item)
    : option string :=
  if algo =? ALGO_PLAIN then
    write_plain dwidth dheight swidth sheight planes0 stride0 term256 lut
  else if algo =? ALGO_ALL_BLOCKS then
    write_all_blocks dwidth dheight swidth sheight planes0 stride0 term256 lut
  else
    write_half_blocks dwidth dheight swidth sheight planes0 stride0 term256 lut.

(** The switch of [reconfig] that sets [(mul_w, mul_h)], the number of
    source pixels per cell. *)
Definition reconfig_mul (algo : Z) : Z * Z :=
  if algo =? ALGO_PLAIN then (1, 1)
  else if algo =? ALGO_ALL_BLOCKS then (WINDOW_W, WINDOW_H)
  else (1, 2).

(** The bytes of one cell of a strategy. *)
Definition frame_cell (algo : Z) (source : list Z) (source_stride : Z)
    (term256 : bool) (lut : list lut_item) (y x : Z) : option string :=
  if algo =? ALGO_PLAIN then
    plain_cell source source_stride term256 lut y x
  else if algo =? ALGO_ALL_BLOCKS then
    all_blocks_cell source source_stride term256 lut y x
  else
    half_blocks_cell source source_stride term256 lut y x.

(** A frame of two rows and one column, for examples. *)
Definition sample_frame : list Z := [1; 2; 3; 4; 5; 6].

(** A frame of 8 rows and 8 columns with a vertical edge: the left half
    is (B=1, G=2, R=3) and the right half (B=7, G=8, R=9); for examples. *)
Definition sample_edge_frame : list Z :=
  mjoin ((fun i => if i mod 8 <? 4 then [1; 2; 3] else [7; 8; 9])
         <$> seqZ 0 64).

(** ** Definitions for the further properties *)

(** *** The palette *)

(** The colour that palette index [p] stands for, computed back from the
    index the way [rgb_to_x256] does: indices 16..231 are the 6x6x6 cube
    with levels [i2cv], indices 232..255 the grays [8 + 10 * gray_index]. *)
Definition x256_color (p : Z) : option (Z * Z * Z) :=
  if (16 <=? p) && (p <? 232) then
    cr ← i2cv !! Z.to_nat ((p - 16) / 36);
    cg ← i2cv !! Z.to_nat ((p - 16) / 6 mod 6);
    cb ← i2cv !! Z.to_nat ((p - 16) mod 6);
    Some (cr, cg, cb)
  else if (232 <=? p) && (p <? 256) then
    let gv := 8 + 10 * (p - 232) in Some (gv, gv, gv)
  else None.

(** The squared distance of a colour to [(r, g, b)]. *)
Definition color_dist (c : Z * Z * Z) (r g b : Z) : Z :=
  dist_square c.1.1 c.1.2 c.2 r g b.

(** The cube level of a channel value is a nearest one, the higher one
    when the value is the exact middle of two levels. *)
Definition v2ci_nearest_b (v : Z) : bool :=
  match i2cv !! Z.to_nat (v2ci v) with
  | Some c =>
      (Z.abs (c - v) <=? 47)
      && forallb (fun cj => (Z.abs (c - v) <? Z.abs (cj - v))
                            || ((Z.abs (c - v) =? Z.abs (cj - v)) && (cj <=? c)))
                 i2cv
  | None => false
  end.

(** The gray level chosen for a channel sum [s] is a nearest one to every
    triple of that sum, the higher one on a tie: for a gray [gk] the
    difference of the squared distances is
    [(gv - gk) * (3 * (gv + gk) - 2 * s)]. *)
Definition gray_nearest_b (s : Z) : bool :=
  let gi := gray_index_of s 0 0 in
  let gv := 8 + 10 * gi in
  (0 <=? gi) && (gi <=? 23)
  && forallb (fun k => let gk := 8 + 10 * k in
                       let d := (gv - gk) * (3 * (gv + gk) - 2 * s) in
                       (d <? 0) || ((d =? 0) && (gk <=? gv)))
             (seqZ 0 24).
(** Palette index [p] stands for a colour of byte channels that
    [rgb_to_x256] maps back to [p]. *)
Definition x256_round_trip_b (p : Z) : bool :=
  match x256_color p with
  | Some (cr, cg, cb) =>
      forallb (fun c => (0 <=? c) && (c <? 256)) [cr; cg; cb]
      && match rgb_to_x256 cr cg cb with
         | Some n => n =? p
         | None => false
         end
  | None => false
  end.

(** *** The squared error of a fit *)

(** The sum over the pixels of [l] of the squared deviation of channel
    [ch] from [m]. *)
Definition chan_dev (ch : rgb_color -> Z) (m : Z) (l : list rgb_color) : Z :=
  foldr (fun p a => (ch p - m) * (ch p - m) + a) 0 l.

(** The squared error of showing the pixels of [l] in the one colour
    [c]. *)
Definition side_error (c : rgb_color) (l : list rgb_color) : Z :=
  foldr (fun p a => dist_square (r c) (g c) (b c) (r p) (g p) (b p) + a) 0 l.

(** What truncating the mean of channel [ch] adds to its loss
    contribution. *)
Definition truncation_excess (ch : rgb_color -> Z) (l : list rgb_color) : Z :=
  2 * chan_mean ch l * (chan_sum ch l mod Z.of_nat (length l)).

(** *** The page *)

(** The bytes of a frame whose cells may be undefined: undefined as soon
    as one cell is, the layout of the cells otherwise. *)
Definition frame_layout_opt (ty tx rows cols : Z)
    (cell : Z -> Z -> option string) : option string :=
  rs ← mapM (fun y =>
               cs ← mapM (cell y) (seqZ 0 cols);
               Some (printf_ESC_GOTOXY (ty + y) tx +:+ concat_str cs
                     +:+ ESC_CLEAR_COLORS))
            (seqZ 0 rows);
  Some (concat_str rs +:+ NL).
(** Two states of the search that differ at most in output colours that
    were never assigned. *)
Definition same_search (st1 st2 : guess_state) : Prop :=
  best_loss st1 = best_loss st2 /\ best_elem st1 = best_elem st2 /\
  (best_elem st1 = None \/
   (best_fg st1 = best_fg st2 /\ best_bg st1 = best_bg st2)).

(** The pixel of index [k] of the 8x8 window of cell [(y, x)]. *)
Definition window_pixel (source : list Z) (source_stride y x k : Z)
    : option rgb_color :=
  pixel_at source source_stride (WINDOW_H * y + k `quot` WINDOW_W)
           (WINDOW_W * x + k `rem` WINDOW_W).

(** The pixel in row [y] and column [x] lies inside the buffer: its three
    bytes have offsets in [0, length source). *)
Definition pixel_in_buffer (source : list Z) (source_stride y x : Z)
    : Prop :=
  0 <= y * source_stride + 3 * x /\
  y * source_stride + 3 * x + 2 < Z.of_nat (length source).

(** A frame of two rows and one column whose rows are padded to four
    bytes, for examples. *)
Definition sample_padded_frame : list Z := [1; 2; 3; 99; 4; 5; 6; 99].

(** The 8x8 window whose upper four rows are the colour [up] and whose
    lower four rows are the colour [down]. *)
Definition split_window (up down : rgb_color) : list rgb_color :=
  replicate 32 up ++ replicate 32 down.

(** A frame of 8 rows and 8 columns that is [sample_frame] with each of
    its two pixels repeated over four rows of eight columns. *)
Definition sample_split_frame : list Z :=
  mjoin ((fun i => if i <? 32 then [1; 2; 3] else [4; 5; 6]) <$> seqZ 0 64).

(** * Properties *)

(** ** The colour quantiser *)

Lemma v2ci_range (v : Z) : is_u8 v -> 0 <= v2ci v <= 5.
Proof.
  unfold is_u8, v2ci. intros Hv.
  destruct (v <? 48) eqn:E1; [lia|].
  destruct (v <? 115) eqn:E2; [lia|].
  apply Z.ltb_ge in E2.
  Z.to_euclidean_division_equations. lia.
Qed.

Lemma gray_index_range (r g b : Z) :
  is_u8 r -> is_u8 g -> is_u8 b -> 0 <= gray_index_of r g b <= 23.
Proof.
  unfold is_u8, gray_index_of. intros Hr Hg Hb.
  destruct (238 <? (r + g + b) `quot` 3) eqn:E; [lia|].
  apply Z.ltb_ge in E.
  Z.to_euclidean_division_equations. lia.
Qed.

Lemma i2cv_lookup (i : Z) :
  0 <= i <= 5 -> exists c, i2cv !! Z.to_nat i = Some c /\ 0 <= c <= 255.
Proof.
  intros Hi.
  assert (i = 0 \/ i = 1 \/ i = 2 \/ i = 3 \/ i = 4 \/ i = 5) as H by lia.
  destruct H as [-> | [-> | [-> | [-> | [-> | ->]]]]];
    (eexists; split; [reflexivity | lia]).
Qed.

(** [rgb_to_x256] is the choice between its two candidates by the two
    distances of [x256_errors]. *)
Lemma rgb_to_x256_choice (r g b : Z) :
  rgb_to_x256 r g b =
  '(color_err, gray_err) ← x256_errors r g b;
  Some (if color_err <=? gray_err
        then 16 + (36 * v2ci r + 6 * v2ci g + v2ci b)
        else 232 + gray_index_of r g b).
Proof.
  unfold rgb_to_x256, x256_errors, gray_index_of.
  destruct (i2cv !! Z.to_nat (v2ci r)); [|reflexivity].
  destruct (i2cv !! Z.to_nat (v2ci g)); [|reflexivity].
  destruct (i2cv !! Z.to_nat (v2ci b)); reflexivity.
Qed.

Lemma x256_errors_total (r g b : Z) :
  is_u8 r -> is_u8 g -> is_u8 b ->
  exists color_err gray_err, x256_errors r g b = Some (color_err, gray_err).
Proof.
  intros Hr Hg Hb. unfold x256_errors.
  destruct (i2cv_lookup _ (v2ci_range r Hr)) as (cr & -> & _).
  destruct (i2cv_lookup _ (v2ci_range g Hg)) as (cg & -> & _).
  destruct (i2cv_lookup _ (v2ci_range b Hb)) as (cb & -> & _).
  eauto.
Qed.

(** On channel values, [rgb_to_x256] returns a palette index outside the
    16 system colours. *)
Lemma rgb_to_x256_total (r g b : Z) :
  is_u8 r -> is_u8 g -> is_u8 b ->
  exists n, rgb_to_x256 r g b = Some n /\ 16 <= n <= 255.
Proof.
  intros Hr Hg Hb.
  pose proof (v2ci_range r Hr) as Ir.
  pose proof (v2ci_range g Hg) as Ig.
  pose proof (v2ci_range b Hb) as Ib.
  pose proof (gray_index_range r g b Hr Hg Hb) as Igray.
  rewrite rgb_to_x256_choice.
  destruct (x256_errors_total r g b Hr Hg Hb) as (ce & ge & ->). simpl.
  eexists; split; [reflexivity|].
  destruct (ce <=? ge); lia.
Qed.

(** C7: for every triple of channel values in 0..255 the three cube
    coordinates lie in 0..5, the grayscale index lies in 0..23, both
    candidate palette indices are in range, and [rgb_to_x256] returns a
    palette index in 16..255. *)
Theorem rgb_to_x256_in_palette (r g b : Z) :
  is_u8 r -> is_u8 g -> is_u8 b ->
  (0 <= v2ci r <= 5 /\ 0 <= v2ci g <= 5 /\ 0 <= v2ci b <= 5) /\
  0 <= gray_index_of r g b <= 23 /\
  16 <= 16 + (36 * v2ci r + 6 * v2ci g + v2ci b) <= 231 /\
  232 <= 232 + gray_index_of r g b <= 255 /\
  exists n, rgb_to_x256 r g b = Some n /\ 16 <= n <= 255.
Proof.
  intros Hr Hg Hb.
  pose proof (v2ci_range r Hr) as Ir.
  pose proof (v2ci_range g Hg) as Ig.
  pose proof (v2ci_range b Hb) as Ib.
  pose proof (gray_index_range r g b Hr Hg Hb) as Igray.
  repeat (split; [lia|]).
  apply rgb_to_x256_total; assumption.
Qed.

Lemma rgb_to_x256_in_palette_witness :
  exists n, rgb_to_x256 200 100 50 = Some n /\ 16 <= n <= 255.
Proof.
  apply (rgb_to_x256_in_palette 200 100 50); unfold is_u8; lia.
Defined.

(** C6, as the spec states it, fails: for r = g = b = 118 the cube
    candidate is at squared distance 867 and the grayscale candidate at
    squared distance 0, so the input is no tie and the result is the
    grayscale index 243, not a cube index. *)
Lemma gray118_is_not_a_tie :
  ~ (exists e, x256_errors 118 118 118 = Some (e, e) /\
               rgb_to_x256 118 118 118 =
               Some (16 + (36 * v2ci 118 + 6 * v2ci 118 + v2ci 118))).
Proof.
  intros (e & He & _). vm_compute in He. congruence.
Qed.

(** C6 (amended): r = g = b = 118 is resolved to the grayscale index
    243, its two distances being 867 and 0; whenever the cube distance is
    at most the grayscale distance, a tie included, [rgb_to_x256] returns
    the cube index; r = g = b = 4 is such a tie (48 and 48) and gives the
    cube index 16. *)
Theorem rgb_to_x256_color_wins_ties (r g b color_err gray_err : Z) :
  x256_errors r g b = Some (color_err, gray_err) ->
  color_err <= gray_err ->
  rgb_to_x256 r g b = Some (16 + (36 * v2ci r + 6 * v2ci g + v2ci b)) /\
  x256_errors 118 118 118 = Some (867, 0) /\
  rgb_to_x256 118 118 118 = Some 243 /\
  x256_errors 4 4 4 = Some (48, 48) /\
  rgb_to_x256 4 4 4 = Some 16.
Proof.
  intros He Hle. split; [|repeat split; reflexivity].
  rewrite rgb_to_x256_choice, He. simpl.
  apply Z.leb_le in Hle. rewrite Hle. reflexivity.
Qed.

Lemma rgb_to_x256_color_wins_ties_witness :
  rgb_to_x256 4 4 4 = Some (16 + (36 * v2ci 4 + 6 * v2ci 4 + v2ci 4)).
Proof.
  apply (rgb_to_x256_color_wins_ties 4 4 4 48 48); [reflexivity | lia].
Defined.

(** ** Loops *)

Lemma c_range_aux_steps (n : nat) : forall (fuel : nat) (lo step : Z),
  0 < step -> (n <= fuel)%nat ->
  c_range_aux fuel lo (lo + Z.of_nat n * step) step
  = (fun j => lo + step * j) <$> seqZ 0 (Z.of_nat n).
Proof.
  induction n as [|n IH]; intros fuel lo step Hstep Hfuel.
  - destruct fuel; simpl; [reflexivity|].
    rewrite (proj2 (Z.ltb_ge _ _)) by lia. reflexivity.
  - destruct fuel as [|fuel]; [lia|]. simpl c_range_aux.
    rewrite (proj2 (Z.ltb_lt _ _)) by nia.
    rewrite seqZ_cons by lia. rewrite fmap_cons. f_equal; [lia|].
    replace (lo + Z.of_nat (S n) * step)
      with ((lo + step) + Z.of_nat n * step) by lia.
    rewrite IH by lia.
    replace (Z.pred (Z.of_nat (S n))) with (Z.of_nat n) by lia.
    rewrite <- (fmap_add_seqZ 1 0). rewrite <- list_fmap_compose.
    apply list_fmap_ext. intros _ j _. simpl. lia.
Qed.

Lemma c_range_empty (lo hi step : Z) : hi <= lo -> c_range lo hi step = [].
Proof.
  intros H. unfold c_range. replace (Z.to_nat (hi - lo)) with O by lia.
  reflexivity.
Qed.

(** [for (i = 0; i < n * step; i += step)] visits [0, step, 2 step, ...],
    [n] values in all. *)
Lemma c_range_multiples (n step : Z) :
  0 < step -> c_range 0 (n * step) step = (fun j => step * j) <$> seqZ 0 n.
Proof.
  intros Hstep. destruct (Z_le_gt_dec n 0) as [Hn|Hn].
  - rewrite c_range_empty by nia. rewrite seqZ_nil by lia. reflexivity.
  - unfold c_range.
    replace (n * step) with (0 + Z.of_nat (Z.to_nat n) * step) at 2 by lia.
    rewrite c_range_aux_steps by nia.
    rewrite Z2Nat.id by lia. reflexivity.
Qed.

(** [for (i = lo; i < hi; ++i)] visits [lo, lo + 1, ..., hi - 1]. *)
Lemma c_range_seqZ (lo hi : Z) : c_range lo hi 1 = seqZ lo (hi - lo).
Proof.
  destruct (Z_le_gt_dec hi lo) as [H|H].
  - rewrite c_range_empty by lia. rewrite seqZ_nil by lia. reflexivity.
  - unfold c_range.
    replace hi with (lo + Z.of_nat (Z.to_nat (hi - lo)) * 1) at 2 by lia.
    rewrite c_range_aux_steps by lia.
    rewrite Z2Nat.id by lia.
    replace (seqZ lo (hi - lo)) with (seqZ (lo + 0) (hi - lo))
      by (f_equal; lia).
    rewrite <- (fmap_add_seqZ lo 0).
    apply list_fmap_ext. intros _ j _. lia.
Qed.

Lemma foldlM_app {S A : Type} (body : S -> A -> option S) (l k : list A) :
  forall s, foldlM body s (l ++ k) = s' ← foldlM body s l; foldlM body s' k.
Proof.
  induction l as [|a l IH]; intros s; simpl; [reflexivity|].
  destruct (body s a); simpl; [apply IH | reflexivity].
Qed.

Lemma foldlM_ext {S A : Type} (f h : S -> A -> option S) (l : list A) :
  (forall s a, a ∈ l -> f s a = h s a) ->
  forall s, foldlM f s l = foldlM h s l.
Proof.
  induction l as [|a l IH]; intros Hfh s; simpl; [reflexivity|].
  rewrite Hfh by left.
  destruct (h s a); simpl; [|reflexivity].
  apply IH. intros s' a' Ha'. apply Hfh. right. exact Ha'.
Qed.

(** ** The lookup table *)

Lemma fmt_d_length (i : Z) :
  0 <= i < 256 -> Z.of_nat (String.length (fmt_d i)) = fmt_d_width i.
Proof.
  intros Hi.
  assert (Forall (fun i => Z.of_nat (String.length (fmt_d i)) = fmt_d_width i)
                 (seqZ 0 256)) as H.
  { apply Forall_forall. intros j Hj.
    assert (forallb (fun j => Z.of_nat (String.length (fmt_d j)) =? fmt_d_width j)
                    (seqZ 0 256) = true) as Hb by (vm_compute; reflexivity).
    rewrite forallb_forall in Hb. apply Z.eqb_eq, Hb, list_elem_of_In, Hj. }
  rewrite Forall_seqZ in H. apply H. lia.
Qed.

Lemma lut_entry_text (buff : string) (i : Z) :
  String.length buff = 8%nat -> 0 <= i < 256 ->
  exists item, lut_entry buff i = Some item /\
    String.length (str item) = 4%nat /\
    width item = 1 + fmt_d_width i /\
    fwrite (str item) (width item) = Some (";" +:+ fmt_d i).
Proof.
  intros Hbuff Hi. pose proof (fmt_d_length i Hi) as Hlen.
  unfold lut_entry, fmt_d_width in *.
  destruct buff as [|a0 [|a1 [|a2 [|a3 [|a4 [|a5 [|a6 [|a7 [|]]]]]]]]];
    try discriminate Hbuff.
  destruct (fmt_d i) as [|c1 [|c2 [|c3 [|c4 t]]]];
    simpl String.length in Hlen;
    destruct (i <? 10); try destruct (i <? 100); try lia;
    (eexists; split; [reflexivity|]); repeat split; reflexivity.
Qed.

Lemma store_is_Some {A : Type} (a : list A) (i : Z) (v : A) :
  0 <= i < Z.of_nat (length a) -> store a i v = Some (<[Z.to_nat i := v]> a).
Proof.
  intros H. unfold store.
  rewrite (proj2 (Z.leb_le _ _)), (proj2 (Z.ltb_lt _ _)) by lia. reflexivity.
Qed.

(** A loop that stores into [a[i]] a value computed from [i] alone. *)
Lemma foldlM_store_entries {A : Type} (f : Z -> option A) (l : list Z) :
  forall a : list A,
  (forall i, i ∈ l -> 0 <= i < Z.of_nat (length a) /\ is_Some (f i)) ->
  exists a', foldlM (fun a i => v ← f i; store a i v) a l = Some a' /\
    length a' = length a /\
    forall i, 0 <= i ->
      a' !! Z.to_nat i = if decide (i ∈ l) then f i else a !! Z.to_nat i.
Proof.
  induction l as [|k l IH]; intros a Hl.
  - exists a. repeat split.
  - destruct (Hl k) as [Hk [v Hv]]; [left|].
    simpl. rewrite Hv. simpl. rewrite store_is_Some by exact Hk.
    destruct (IH (<[Z.to_nat k := v]> a)) as (a' & Hfold & Hlen & Hget).
    { intros i Hi. rewrite length_insert. apply Hl. right. exact Hi. }
    exists a'. split; [exact Hfold|]. rewrite length_insert in Hlen.
    split; [exact Hlen|]. intros i Hi0. rewrite (Hget i Hi0).
    destruct (decide (i ∈ l)) as [Hin|Hnin].
    + rewrite decide_True by (right; exact Hin). reflexivity.
    + destruct (decide (i = k)) as [->|Hne].
      * rewrite decide_True by left. rewrite Hv.
        apply list_lookup_insert_eq. lia.
      * rewrite decide_False
          by (intros [?|?]%elem_of_cons; [congruence | contradiction]).
        apply list_lookup_insert_ne. lia.
Qed.

Lemma preinit_body (junk : Z -> string) (lut : list lut_item) (i : Z) :
  ('(buff, w) ← sprintf (junk i) (";" +:+ fmt_d i);
   s ← memcpy buff 4;
   store lut i {| str := s; width := w |})
  = (v ← lut_entry (junk i) i; store lut i v).
Proof.
  unfold lut_entry.
  destruct (sprintf (junk i) (";" +:+ fmt_d i)) as [[buff w]|]; simpl;
    [|reflexivity].
  destruct (memcpy buff 4); reflexivity.
Qed.

Lemma preinit_entries (junk : Z -> string) (lut0 : list lut_item) :
  length lut0 = 256%nat ->
  (forall i, String.length (junk i) = 8%nat) ->
  exists lut, preinit junk lut0 = Some lut /\ length lut = 256%nat /\
    forall i, 0 <= i < 256 -> lut !! Z.to_nat i = lut_entry (junk i) i.
Proof.
  intros Hlen Hjunk. unfold preinit.
  rewrite (foldlM_ext _ (fun a i => v ← lut_entry (junk i) i; store a i v))
    by (intros; apply preinit_body).
  rewrite c_range_seqZ.
  destruct (foldlM_store_entries (fun i => lut_entry (junk i) i)
              (seqZ 0 (256 - 0)) lut0) as (lut & Hfold & Hl & Hget).
  { intros i Hi%elem_of_seqZ. rewrite Hlen. split; [lia|].
    destruct (lut_entry_text (junk i) i) as (item & -> & _); eauto; lia. }
  exists lut. split; [exact Hfold|]. split; [congruence|].
  intros i Hi. rewrite Hget by lia.
  apply decide_True. apply elem_of_seqZ. lia.
Qed.

Lemma append_assoc (s1 s2 s3 : string) :
  (s1 +:+ s2) +:+ s3 = s1 +:+ (s2 +:+ s3).
Proof.
  induction s1 as [|a s1 IH]; [reflexivity|].
  change (String a ((s1 +:+ s2) +:+ s3) = String a (s1 +:+ (s2 +:+ s3))).
  f_equal. exact IH.
Qed.

Lemma append_nil_r (s : string) : s +:+ "" = s.
Proof.
  induction s as [|a s IH]; [reflexivity|].
  change (String a (s +:+ "") = String a s). f_equal. exact IH.
Qed.

Lemma print_seq1_eq_win32 (lut : list lut_item) (prefix : string) (c : Z) :
  lut_ok lut -> is_u8 c ->
  print_seq1 lut prefix c = Some (print_seq1_win32 prefix c).
Proof.
  intros Hlut Hc. unfold print_seq1, print_seq1_win32.
  destruct (Hlut c Hc) as (item & -> & Hw). simpl. rewrite Hw. simpl.
  rewrite append_assoc. reflexivity.
Qed.

Lemma print_seq3_eq_win32 (lut : list lut_item) (prefix : string)
    (r g b : Z) :
  lut_ok lut -> is_u8 r -> is_u8 g -> is_u8 b ->
  print_seq3 lut prefix r g b = Some (print_seq3_win32 prefix r g b).
Proof.
  intros Hlut Hr Hg Hb. unfold print_seq3, print_seq3_win32.
  destruct (Hlut r Hr) as (ir & -> & Hwr). simpl. rewrite Hwr. simpl.
  destruct (Hlut g Hg) as (ig & -> & Hwg). simpl. rewrite Hwg. simpl.
  destruct (Hlut b Hb) as (ib & -> & Hwb). simpl. rewrite Hwb. simpl.
  rewrite !append_assoc. reflexivity.
Qed.

Lemma preinit_lut_ok (junk : Z -> string) (lut0 lut : list lut_item) :
  length lut0 = 256%nat ->
  (forall i, String.length (junk i) = 8%nat) ->
  preinit junk lut0 = Some lut -> lut_ok lut.
Proof.
  intros Hlen Hjunk Hpre i Hi.
  destruct (preinit_entries junk lut0 Hlen Hjunk) as (lut' & H' & _ & Hget).
  assert (lut' = lut) as -> by congruence.
  rewrite (Hget i Hi).
  destruct (lut_entry_text (junk i) i (Hjunk i) Hi) as (item & -> & _ & _ & Hw).
  eauto.
Qed.

(** C9: after the loop of [preinit], whatever the buffer and the table
    held before, the entry of every byte value [i] is four bytes whose
    first [width] bytes, the ones [fwrite] prints, are exactly [;]
    followed by the decimal digits of [i]; the recorded width is the
    length of that text (2, 3 or 4), and the sequences printed through
    the table are those of direct decimal formatting. *)
Theorem preinit_lut_decimal (junk : Z -> string) (lut0 : list lut_item) :
  length lut0 = 256%nat ->
  (forall i, String.length (junk i) = 8%nat) ->
  exists lut, preinit junk lut0 = Some lut /\
    (forall i, 0 <= i < 256 ->
       exists item, lut !! Z.to_nat i = Some item /\
         String.length (str item) = 4%nat /\
         fwrite (str item) (width item) = Some (";" +:+ fmt_d i) /\
         width item = Z.of_nat (String.length (";" +:+ fmt_d i)) /\
         width item = if i <? 10 then 2 else if i <? 100 then 3 else 4) /\
    (forall prefix c, is_u8 c ->
       print_seq1 lut prefix c = Some (print_seq1_win32 prefix c)) /\
    (forall prefix r g b, is_u8 r -> is_u8 g -> is_u8 b ->
       print_seq3 lut prefix r g b = Some (print_seq3_win32 prefix r g b)).
Proof.
  intros Hlen Hjunk.
  destruct (preinit_entries junk lut0 Hlen Hjunk) as (lut & Hpre & _ & Hget).
  pose proof (preinit_lut_ok junk lut0 lut Hlen Hjunk Hpre) as Hok.
  exists lut. split; [exact Hpre|]. split; [|split].
  - intros i Hi. rewrite (Hget i Hi).
    destruct (lut_entry_text (junk i) i (Hjunk i) Hi)
      as (item & -> & Hstr & Hw & Hf).
    exists item. repeat split; [exact Hstr | exact Hf | |].
    + rewrite Hw. change (String.length (";" +:+ fmt_d i))
        with (S (String.length (fmt_d i))).
      rewrite <- (fmt_d_length i Hi). lia.
    + rewrite Hw. unfold fmt_d_width.
      destruct (i <? 10); [reflexivity|]. destruct (i <? 100); reflexivity.
  - intros prefix c Hc. apply print_seq1_eq_win32; assumption.
  - intros prefix r g b Hr Hg Hb. apply print_seq3_eq_win32; assumption.
Qed.

Lemma preinit_lut_decimal_witness :
  exists lut,
    preinit (fun _ => "????????") (replicate 256 {| str := ""; width := 0 |})
    = Some lut /\
    print_seq3 lut ESC_COLOR_BG 30 20 10
    = Some (print_seq3_win32 ESC_COLOR_BG 30 20 10).
Proof.
  destruct (preinit_lut_decimal (fun _ => "????????")
              (replicate 256 {| str := ""; width := 0 |}))
    as (lut & Hpre & _ & _ & H3); [reflexivity | reflexivity |].
  exists lut. split; [exact Hpre|].
  apply H3; unfold is_u8; lia.
Defined.

(** ** The glyph fitter *)

Lemma pick_app (side : bool) (bits : Z) (l k : list rgb_color) :
  forall i, pick side bits i (l ++ k)
            = pick side bits i l ++ pick side bits (i + Z.of_nat (length l)) k.
Proof.
  induction l as [|p l IH]; intros i; simpl.
  - f_equal. lia.
  - rewrite IH. replace (i + 1 + Z.of_nat (length l))
      with (i + Z.pos (Pos.of_succ_nat (length l))) by lia.
    destruct (Bool.eqb _ side); reflexivity.
Qed.

Lemma pick_wf (side : bool) (bits : Z) (l : list rgb_color) :
  forall i, Forall wf_color l -> Forall wf_color (pick side bits i l).
Proof.
  induction l as [|p l IH]; intros i Hl; simpl; [constructor|].
  inversion Hl; subst.
  destruct (Bool.eqb _ side); [constructor|]; auto.
Qed.

Lemma pick_length_le (side : bool) (bits : Z) (l : list rgb_color) :
  forall i, (length (pick side bits i l) <= length l)%nat.
Proof.
  induction l as [|p l IH]; intros i; simpl; [lia|].
  specialize (IH (i + 1)). destruct (Bool.eqb _ side); simpl; lia.
Qed.

Lemma pick_both_length (bits : Z) (l : list rgb_color) :
  forall i, (length (pick true bits i l) + length (pick false bits i l)
             = length l)%nat.
Proof.
  induction l as [|p l IH]; intros i; simpl; [reflexivity|].
  specialize (IH (i + 1)).
  destruct (negb (is_fg bits i =? 0)); simpl; lia.
Qed.

Section Channel.

Variable ch : rgb_color -> Z.

Lemma chan_sum_cons p l : chan_sum ch (p :: l) = ch p + chan_sum ch l.
Proof. reflexivity. Qed.

Lemma chan_sum2_cons p l :
  chan_sum2 ch (p :: l) = ch p * ch p + chan_sum2 ch l.
Proof. reflexivity. Qed.

Lemma chan_sum_app l k : chan_sum ch (l ++ k) = chan_sum ch l + chan_sum ch k.
Proof.
  induction l as [|p l IH]; [reflexivity|].
  rewrite <- app_comm_cons, !chan_sum_cons, IH. lia.
Qed.

Lemma chan_sum2_app l k :
  chan_sum2 ch (l ++ k) = chan_sum2 ch l + chan_sum2 ch k.
Proof.
  induction l as [|p l IH]; [reflexivity|].
  rewrite <- app_comm_cons, !chan_sum2_cons, IH. lia.
Qed.

Lemma chan_sum_bounds l :
  Forall (fun p => is_u8 (ch p)) l ->
  0 <= chan_sum ch l <= 255 * Z.of_nat (length l).
Proof.
  induction 1 as [|p l Hp _ IH]; [simpl; lia|].
  rewrite chan_sum_cons, length_cons. unfold is_u8 in Hp. lia.
Qed.

Lemma chan_sum2_bounds l :
  Forall (fun p => is_u8 (ch p)) l ->
  0 <= chan_sum2 ch l <= 65025 * Z.of_nat (length l).
Proof.
  induction 1 as [|p l Hp _ IH]; [simpl; lia|].
  rewrite chan_sum2_cons, length_cons, Nat2Z.inj_succ.
  unfold is_u8 in Hp. nia.
Qed.

Lemma chan_cross l (x : Z) :
  2 * x * chan_sum ch l <= chan_sum2 ch l + Z.of_nat (length l) * (x * x).
Proof.
  induction l as [|p l IH]; [simpl; lia|].
  rewrite chan_sum_cons, chan_sum2_cons, length_cons, Nat2Z.inj_succ.
  pose proof (Z.square_nonneg (ch p - x)). nia.
Qed.

(** Cauchy-Schwarz: the square of a sum is at most the number of terms
    times the sum of the squares. *)
Lemma chan_sum_square l :
  chan_sum ch l * chan_sum ch l <= Z.of_nat (length l) * chan_sum2 ch l.
Proof.
  induction l as [|p l IH]; [simpl; lia|].
  rewrite chan_sum_cons, chan_sum2_cons, length_cons, Nat2Z.inj_succ.
  pose proof (chan_cross l (ch p)). nia.
Qed.

Lemma chan_mean_bounds l :
  Forall (fun p => is_u8 (ch p)) l -> 0 <= chan_mean ch l <= 255.
Proof.
  intros Hch. unfold chan_mean. pose proof (chan_sum_bounds l Hch) as Hs.
  destruct l as [|p l']; [simpl; rewrite Z.div_0_r; lia|].
  set (n := Z.of_nat (length (p :: l'))) in *.
  assert (0 < n) by (subst n; rewrite length_cons; lia).
  split; [apply Z.div_pos; lia|].
  apply Z.div_le_upper_bound; lia.
Qed.

(** The subtraction of one loss contribution does not underflow, and
    the contribution is at most the sum of the squares. *)
Lemma chan_loss_bounds l :
  Forall (fun p => is_u8 (ch p)) l -> 0 <= chan_loss ch l <= chan_sum2 ch l.
Proof.
  intros Hch. unfold chan_loss.
  pose proof (chan_sum_bounds l Hch) as Hs.
  pose proof (chan_sum_square l) as Hcs.
  pose proof (chan_mean_bounds l Hch) as Hm.
  unfold chan_mean in *.
  destruct l as [|p l']; [simpl; lia|].
  set (n := Z.of_nat (length (p :: l'))) in *.
  assert (0 < n) by (subst n; rewrite length_cons; lia).
  set (s := chan_sum ch (p :: l')) in *.
  set (q := chan_sum2 ch (p :: l')) in *.
  assert (n * (s / n) <= s) by (apply Z.mul_div_le; lia).
  set (m := s / n) in *.
  split; [|nia].
  assert (n * (n * (m * m)) <= n * q) by nia.
  nia.
Qed.

End Channel.

Lemma wf_channels (l : list rgb_color) :
  Forall wf_color l ->
  Forall (fun p => is_u8 (r p)) l /\ Forall (fun p => is_u8 (g p)) l /\
  Forall (fun p => is_u8 (b p)) l.
Proof.
  intros H. repeat split; eapply Forall_impl; try exact H;
    intros p (Hr & Hg & Hb); assumption.
Qed.

(** Poses the bounds of the sums, the sums of squares, the means and the
    loss contributions of the three channels of [l], given [Hl] that its
    pixels are well formed. *)
Ltac channel_bounds l Hl :=
  let Hr := fresh "Hr" in
  let Hg := fresh "Hg" in
  let Hb := fresh "Hb" in
  destruct (wf_channels l Hl) as (Hr & Hg & Hb);
  pose proof (chan_sum_bounds r l Hr); pose proof (chan_sum_bounds g l Hg);
  pose proof (chan_sum_bounds b l Hb);
  pose proof (chan_sum2_bounds r l Hr); pose proof (chan_sum2_bounds g l Hg);
  pose proof (chan_sum2_bounds b l Hb);
  pose proof (chan_mean_bounds r l Hr); pose proof (chan_mean_bounds g l Hg);
  pose proof (chan_mean_bounds b l Hb);
  pose proof (chan_loss_bounds r l Hr); pose proof (chan_loss_bounds g l Hg);
  pose proof (chan_loss_bounds b l Hb).

Lemma u32_small (x : Z) : 0 <= x < 2 ^ 32 -> u32 x = x.
Proof. apply Z.mod_small. Qed.

Lemma u8_small (x : Z) : 0 <= x < 2 ^ 8 -> u8 x = x.
Proof. apply Z.mod_small. Qed.

(** One iteration of the loop of [best_fg_bg] on accumulators that hold
    the exact sums of the first [k] pixels. *)
Lemma accumulate_exact (bits : Z) (win : list rgb_color) (k : nat) (p : rgb_color) :
  Forall wf_color win -> (length win <= 64)%nat ->
  win !! k = Some p ->
  accumulate bits win
    (exact_sums (pick true bits 0 (take k win)) (pick false bits 0 (take k win)))
    (Z.of_nat k)
  = Some (exact_sums (pick true bits 0 (take (S k) win))
                     (pick false bits 0 (take (S k) win))).
Proof.
  intros Hwf Hlen Hp. unfold accumulate.
  rewrite Nat2Z.id, Hp. simpl.
  rewrite (take_S_r _ _ _ Hp), !pick_app.
  assert (length (take k win) = k) as Hk.
  { rewrite length_take. apply lookup_lt_Some in Hp. lia. }
  rewrite Hk. simpl pick.
  assert (Forall wf_color (take k win)) as Hwfk by (apply Forall_take, Hwf).
  assert (wf_color p) as (Hr & Hg & Hb).
  { eapply Forall_lookup_1 in Hwf; eauto. }
  set (F := pick true bits 0 (take k win)).
  set (B := pick false bits 0 (take k win)).
  pose proof (pick_length_le true bits (take k win) 0) as HlF.
  pose proof (pick_length_le false bits (take k win) 0) as HlB.
  fold F in HlF. fold B in HlB. rewrite Hk in HlF, HlB.
  apply lookup_lt_Some in Hp.
  channel_bounds F (pick_wf true bits _ 0 Hwfk).
  channel_bounds B (pick_wf false bits _ 0 Hwfk).
  unfold is_u8 in Hr, Hg, Hb.
  destruct (negb (is_fg bits (0 + Z.of_nat k) =? 0)) eqn:E;
    replace (0 + Z.of_nat k) with (Z.of_nat k) in E by lia; rewrite E;
    simpl Bool.eqb; cbv iota; rewrite ?app_nil_r;
    unfold exact_sums, square; simpl sum_fg_r; simpl sum_fg_g;
    simpl sum_fg_b; simpl sum_bg_r; simpl sum_bg_g; simpl sum_bg_b;
    simpl sum_fg2_r; simpl sum_fg2_g; simpl sum_fg2_b; simpl sum_bg2_r;
    simpl sum_bg2_g; simpl sum_bg2_b; simpl num_fg; simpl num_bg;
    rewrite ?chan_sum_app, ?chan_sum2_app, ?length_app;
    rewrite ?chan_sum_cons, ?chan_sum2_cons; simpl length;
    simpl (chan_sum _ []); simpl (chan_sum2 _ []);
    do 2 f_equal; rewrite u32_small; nia.
Qed.

Lemma window_loop_exact (bits : Z) (win : list rgb_color) (k : nat) :
  Forall wf_color win -> (length win <= 64)%nat -> (k <= length win)%nat ->
  foldlM (accumulate bits win) sums_zero (seqZ 0 (Z.of_nat k))
  = Some (exact_sums (pick true bits 0 (take k win))
                     (pick false bits 0 (take k win))).
Proof.
  intros Hwf Hlen. induction k as [|k IH]; intros Hk; [reflexivity|].
  rewrite seqZ_S, foldlM_app, IH by lia. simpl.
  destruct (lookup_lt_is_Some_2 win k) as [p Hp]; [lia|].
  rewrite Z.add_0_l, (accumulate_exact bits win k p Hwf Hlen Hp).
  reflexivity.
Qed.

Lemma window_sums_exact (elem : Z) (be : block_element) (win : list rgb_color) :
  block_elements !! Z.to_nat elem = Some be -> wf_window win ->
  window_sums elem win
  = Some (exact_sums (pick true (bitmap be) 0 win)
                     (pick false (bitmap be) 0 win)).
Proof.
  intros Hbe [Hlen Hwf]. unfold window_sums. rewrite Hbe.
  cbn -[c_range WINDOW_SZ]. rewrite c_range_seqZ.
  change (WINDOW_SZ - 0) with (Z.of_nat 64).
  change (Z.to_nat WINDOW_SZ) with 64%nat in Hlen.
  rewrite window_loop_exact by (try assumption; lia).
  rewrite firstn_all2 by lia. reflexivity.
Qed.

(** [best_fg_bg] on a mask with pixels on both sides: the truncated
    means of the two sides and the loss, none of the unsigned
    operations wrapping around. *)
Lemma best_fg_bg_exact (elem : Z) (be : block_element) (win : list rgb_color) :
  block_elements !! Z.to_nat elem = Some be -> wf_window win ->
  pick true (bitmap be) 0 win <> [] ->
  pick false (bitmap be) 0 win <> [] ->
  best_fg_bg elem win
  = Some (mean_color (pick true (bitmap be) 0 win),
          mean_color (pick false (bitmap be) 0 win),
          mask_loss (bitmap be) win).
Proof.
  intros Hbe Hwin HF HB. unfold best_fg_bg, mask_loss.
  rewrite (window_sums_exact elem be win Hbe Hwin). simpl.
  destruct Hwin as [Hlen Hwf].
  change (Z.to_nat WINDOW_SZ) with 64%nat in Hlen.
  set (F := pick true (bitmap be) 0 win) in *.
  set (B := pick false (bitmap be) 0 win) in *.
  pose proof (pick_length_le true (bitmap be) win 0) as HlF.
  pose proof (pick_length_le false (bitmap be) win 0) as HlB.
  fold F in HlF. fold B in HlB.
  assert (0 < Z.of_nat (length F)) as HnF by (destruct F; [congruence | simpl; lia]).
  assert (0 < Z.of_nat (length B)) as HnB by (destruct B; [congruence | simpl; lia]).
  channel_bounds F (pick_wf true (bitmap be) _ 0 Hwf).
  channel_bounds B (pick_wf false (bitmap be) _ 0 Hwf).
  unfold udiv.
  rewrite (proj2 (Z.eqb_neq (Z.of_nat (length F)) 0)) by lia.
  rewrite (proj2 (Z.eqb_neq (Z.of_nat (length B)) 0)) by lia.
  simpl.
  fold (chan_mean r F) (chan_mean g F) (chan_mean b F).
  fold (chan_mean r B) (chan_mean g B) (chan_mean b B).
  rewrite !u8_small by lia. unfold square.
  unfold chan_loss in *.
  repeat match goal with
  | |- context [u32 (Z.of_nat (length ?L) * (chan_mean ?c ?L * chan_mean ?c ?L))] =>
      rewrite (u32_small (Z.of_nat (length L) * (chan_mean c L * chan_mean c L)))
        by lia
  end.
  repeat match goal with
  | |- context [u32 (chan_sum2 ?c ?L - ?x)] =>
      rewrite (u32_small (chan_sum2 c L - x)) by lia
  end.
  unfold mean_color.
  set (c1 := chan_sum2 r F - _) in *. set (c2 := chan_sum2 g F - _) in *.
  set (c3 := chan_sum2 b F - _) in *. set (c4 := chan_sum2 r B - _) in *.
  set (c5 := chan_sum2 g B - _) in *. set (c6 := chan_sum2 b B - _) in *.
  rewrite (u32_small (0 + c1)) by lia.
  rewrite (u32_small (0 + c1 + c2)) by lia.
  rewrite (u32_small (0 + c1 + c2 + c3)) by lia.
  rewrite (u32_small (0 + c1 + c2 + c3 + c4)) by lia.
  rewrite (u32_small (0 + c1 + c2 + c3 + c4 + c5)) by lia.
  rewrite (u32_small (0 + c1 + c2 + c3 + c4 + c5 + c6)) by lia.
  reflexivity.
Qed.

Lemma pick_length (side : bool) (bits : Z) (win : list rgb_color) :
  forall i, length (pick side bits i win)
            = count_side side bits i (length win).
Proof.
  induction win as [|p w IH]; intros i; simpl; [reflexivity|].
  destruct (Bool.eqb _ side); simpl; rewrite IH; reflexivity.
Qed.

Lemma catalog_proper (elem : Z) :
  0 <= elem < NUM_ELEMENTS ->
  exists be, block_elements !! Z.to_nat elem = Some be /\
             proper_mask be = true.
Proof.
  intros He.
  destruct (lookup_lt_is_Some_2 block_elements (Z.to_nat elem)) as [be Hbe].
  { change (length block_elements) with (Z.to_nat NUM_ELEMENTS). lia. }
  exists be. split; [exact Hbe|].
  assert (forallb proper_mask block_elements = true) as Hall
    by (vm_compute; reflexivity).
  rewrite forallb_forall in Hall. apply Hall.
  apply list_elem_of_In. eapply list_elem_of_lookup_2. exact Hbe.
Qed.

Lemma proper_mask_sides (be : block_element) (win : list rgb_color) :
  proper_mask be = true -> length win = 64%nat ->
  pick true (bitmap be) 0 win <> [] /\ pick false (bitmap be) 0 win <> [].
Proof.
  unfold proper_mask. intros H Hlen.
  repeat (apply andb_prop in H as [H ?]).
  split; intros Hnil; apply (f_equal length) in Hnil;
    rewrite pick_length, Hlen in Hnil; simpl length in Hnil;
    rewrite Hnil in *; discriminate.
Qed.

(** [best_fg_bg] on any catalog entry and any window. *)
Lemma best_fg_bg_catalog (elem : Z) (win : list rgb_color) :
  0 <= elem < NUM_ELEMENTS -> wf_window win ->
  exists be, block_elements !! Z.to_nat elem = Some be /\
    best_fg_bg elem win
    = Some (mean_color (pick true (bitmap be) 0 win),
            mean_color (pick false (bitmap be) 0 win),
            mask_loss (bitmap be) win).
Proof.
  intros He Hwin. destruct (catalog_proper elem He) as (be & Hbe & Hp).
  exists be. split; [exact Hbe|].
  destruct (proper_mask_sides be win Hp (proj1 Hwin)) as [HF HB].
  apply best_fg_bg_exact; assumption.
Qed.

Lemma mask_loss_bounds (bits : Z) (win : list rgb_color) :
  wf_window win -> 0 <= mask_loss bits win <= 3 * 64 * (255 * 255).
Proof.
  intros [Hlen Hwf]. change (Z.to_nat WINDOW_SZ) with 64%nat in Hlen.
  unfold mask_loss.
  set (F := pick true bits 0 win). set (B := pick false bits 0 win).
  pose proof (pick_both_length bits win 0) as Hsplit.
  fold F B in Hsplit. rewrite Hlen in Hsplit.
  channel_bounds F (pick_wf true bits _ 0 Hwf).
  channel_bounds B (pick_wf false bits _ 0 Hwf).
  lia.
Qed.

Lemma best_fg_bg_loss (elem : Z) (win : list rgb_color) :
  0 <= elem < NUM_ELEMENTS -> wf_window win ->
  exists fg bg, best_fg_bg elem win = Some (fg, bg, elem_loss elem win) /\
                0 <= elem_loss elem win <= 3 * 64 * (255 * 255).
Proof.
  intros He Hwin.
  destruct (best_fg_bg_catalog elem win He Hwin) as (be & Hbe & Hfit).
  unfold elem_loss. rewrite Hbe, Hfit.
  split_and?; eauto using mask_loss_bounds; apply mask_loss_bounds, Hwin.
Qed.

Lemma to_int_small (x : Z) : 0 <= x <= INT_MAX -> to_int x = x.
Proof.
  unfold to_int, INT_MAX. intros H. rewrite u32_small by lia.
  rewrite (proj2 (Z.leb_le _ _)) by lia. reflexivity.
Qed.

(** The state of the search after its first [k] iterations: the best
    element is the first one of least loss among those seen. *)
Lemma guess_loop_first_min (win : list rgb_color)
    (best_fg0 best_bg0 : option rgb_color) (k : nat) :
  wf_window win -> (1 <= k)%nat -> Z.of_nat k <= NUM_ELEMENTS ->
  exists e fg bg,
    foldlM (guess_step win)
           {| best_loss := INT_MAX; best_elem := None;
              best_fg := best_fg0; best_bg := best_bg0 |}
           (seqZ 0 (Z.of_nat k))
    = Some {| best_loss := elem_loss e win; best_elem := Some e;
              best_fg := Some fg; best_bg := Some bg |} /\
    0 <= e < Z.of_nat k /\
    best_fg_bg e win = Some (fg, bg, elem_loss e win) /\
    (forall e', 0 <= e' < Z.of_nat k -> elem_loss e win <= elem_loss e' win) /\
    (forall e', 0 <= e' < e -> elem_loss e win < elem_loss e' win).
Proof.
  intros Hwin Hk1. induction k as [|k IH]; [lia|]. intros Hk.
  destruct (best_fg_bg_loss (Z.of_nat k) win) as (fg & bg & Hfit & Hl);
    [lia | exact Hwin |].
  rewrite seqZ_S, foldlM_app, Z.add_0_l.
  destruct k as [|k'].
  - clear IH. simpl. unfold guess_step. rewrite Hfit. simpl.
    rewrite u32_small by (unfold INT_MAX; lia).
    rewrite (proj2 (Z.ltb_lt _ _)) by (unfold INT_MAX; simpl Z.of_nat; lia).
    rewrite to_int_small by (unfold INT_MAX; lia).
    exists 0, fg, bg. split; [reflexivity|]. split; [lia|].
    split; [exact Hfit|]. split; intros e' He'; [|lia].
    replace e' with 0 by lia. simpl Z.of_nat. lia.
  - destruct IH as (e & fge & bge & -> & He & Hefit & Hmin & Hfirst);
      [lia | lia |].
    destruct (best_fg_bg_loss e win) as (? & ? & _ & Hle);
      [unfold NUM_ELEMENTS in *; lia | exact Hwin |].
    set (K := Z.of_nat (S k')) in *.
    simpl. unfold guess_step. rewrite Hfit. simpl.
    rewrite u32_small by lia.
    destruct (elem_loss K win <? elem_loss e win) eqn:E.
    + apply Z.ltb_lt in E. rewrite to_int_small by (unfold INT_MAX; lia).
      exists K, fg, bg. split; [reflexivity|]. split; [lia|].
      split; [exact Hfit|]. split; intros e' He'.
      * destruct (decide (e' = K)) as [->|Hne]; [lia|].
        specialize (Hmin e'). lia.
      * specialize (Hmin e'). lia.
    + apply Z.ltb_ge in E.
      exists e, fge, bge. split; [reflexivity|]. split; [lia|].
      split; [exact Hefit|]. split; intros e' He'; [|auto].
      destruct (decide (e' = K)) as [->|Hne]; [lia|].
      apply Hmin. lia.
Qed.

(** [guess_best_block_element] returns the first catalog entry of least
    loss, with the mean colours [best_fg_bg] computes for it. *)
Lemma guess_best_first_min (win : list rgb_color)
    (best_fg0 best_bg0 : option rgb_color) :
  wf_window win ->
  exists e be fg bg,
    guess_best_block_element win best_fg0 best_bg0
    = Some (utf8 be, Some fg, Some bg) /\
    0 <= e < NUM_ELEMENTS /\
    block_elements !! Z.to_nat e = Some be /\
    best_fg_bg e win = Some (fg, bg, elem_loss e win) /\
    (forall e', 0 <= e' < NUM_ELEMENTS -> elem_loss e win <= elem_loss e' win) /\
    (forall e', 0 <= e' < e -> elem_loss e win < elem_loss e' win).
Proof.
  intros Hwin.
  destruct (guess_loop_first_min win best_fg0 best_bg0 19 Hwin)
    as (e & fg & bg & Hloop & He & Hfit & Hmin & Hfirst);
    [lia | unfold NUM_ELEMENTS; lia |].
  change (Z.of_nat 19) with NUM_ELEMENTS in *.
  destruct (catalog_proper e He) as (be & Hbe & _).
  exists e, be, fg, bg. split; [|auto].
  unfold guess_best_block_element, guess_search.
  rewrite c_range_seqZ. change (NUM_ELEMENTS - 0) with NUM_ELEMENTS.
  rewrite Hloop. simpl. rewrite Hbe. reflexivity.
Qed.

(** C5: for every catalog glyph and every window, the loss [best_fg_bg]
    returns is the sum of six contributions, one per channel and per
    side, each the sum of the squares minus the count times the square
    of the truncated mean; no contribution is negative (none of the six
    unsigned subtractions wraps around), and neither is the total. *)
Theorem best_fg_bg_six_contributions (elem : Z) (win : list rgb_color) :
  0 <= elem < NUM_ELEMENTS -> wf_window win ->
  exists be,
    block_elements !! Z.to_nat elem = Some be /\
    let F := pick true (bitmap be) 0 win in
    let B := pick false (bitmap be) 0 win in
    let contribution ch l :=
      chan_sum2 ch l
      - Z.of_nat (length l)
        * square (chan_sum ch l / Z.of_nat (length l)) in
    let loss := contribution r F + contribution g F + contribution b F
                + contribution r B + contribution g B + contribution b B in
    best_fg_bg elem win = Some (mean_color F, mean_color B, loss) /\
    0 <= contribution r F /\ 0 <= contribution g F /\
    0 <= contribution b F /\ 0 <= contribution r B /\
    0 <= contribution g B /\ 0 <= contribution b B /\
    0 <= loss.
Proof.
  intros He Hwin.
  destruct (best_fg_bg_catalog elem win He Hwin) as (be & Hbe & Hfit).
  exists be. split; [exact Hbe|]. intros F B contribution loss.
  destruct Hwin as [Hlen Hwf].
  channel_bounds F (pick_wf true (bitmap be) _ 0 Hwf).
  channel_bounds B (pick_wf false (bitmap be) _ 0 Hwf).
  split; [exact Hfit|].
  change (contribution r F) with (chan_loss r F) in *.
  change (contribution g F) with (chan_loss g F) in *.
  change (contribution b F) with (chan_loss b F) in *.
  change (contribution r B) with (chan_loss r B) in *.
  change (contribution g B) with (chan_loss g B) in *.
  change (contribution b B) with (chan_loss b B) in *.
  subst loss. change (contribution r F) with (chan_loss r F).
  lia.
Qed.

Lemma sample_window_wf : wf_window sample_window.
Proof.
  split; [reflexivity|]. unfold sample_window.
  apply Forall_fmap, Forall_seqZ. intros i Hi.
  unfold wf_color, is_u8; simpl. lia.
Qed.

Lemma best_fg_bg_six_contributions_witness :
  exists be, block_elements !! Z.to_nat LEFT_HALF = Some be /\
    exists fg bg loss,
      best_fg_bg LEFT_HALF sample_window = Some (fg, bg, loss) /\ 0 <= loss.
Proof.
  destruct (best_fg_bg_six_contributions LEFT_HALF sample_window)
    as (be & Hbe & Hfit & H);
    [unfold LEFT_HALF, NUM_ELEMENTS; lia | exact sample_window_wf |].
  exists be. split; [exact Hbe|]. do 3 eexists. split; [exact Hfit|].
  apply H.
Defined.

(** C8: every one of the 19 catalog entries has a 64-bit coverage mask
    that is neither all-0 nor all-1, with a set and an unset bit among
    the 64 window positions; so for every window [best_fg_bg] counts
    [num_fg > 0] and [num_bg > 0], and its six divisions are defined. *)
Theorem catalog_masks_two_sided (elem : Z) :
  0 <= elem < NUM_ELEMENTS ->
  exists be,
    block_elements !! Z.to_nat elem = Some be /\
    0 < bitmap be < 2 ^ 64 - 1 /\
    (exists i, 0 <= i < WINDOW_SZ /\ is_fg (bitmap be) i = 1) /\
    (exists i, 0 <= i < WINDOW_SZ /\ is_fg (bitmap be) i = 0) /\
    forall win, wf_window win ->
      exists s, window_sums elem win = Some s /\
        0 < num_fg s /\ 0 < num_bg s /\
        is_Some (udiv (sum_fg_r s) (num_fg s)) /\
        is_Some (udiv (sum_fg_g s) (num_fg s)) /\
        is_Some (udiv (sum_fg_b s) (num_fg s)) /\
        is_Some (udiv (sum_bg_r s) (num_bg s)) /\
        is_Some (udiv (sum_bg_g s) (num_bg s)) /\
        is_Some (udiv (sum_bg_b s) (num_bg s)) /\
        is_Some (best_fg_bg elem win).
Proof.
  intros He. destruct (catalog_proper elem He) as (be & Hbe & Hp).
  exists be. split; [exact Hbe|].
  pose proof Hp as Hp'. unfold proper_mask in Hp'.
  apply andb_prop in Hp' as [Hp' Hex0]. apply andb_prop in Hp' as [Hp' Hex1].
  apply andb_prop in Hp' as [Hp' _]. apply andb_prop in Hp' as [Hp' _].
  apply andb_prop in Hp' as [Hlo Hhi].
  split; [lia|]. split; [|split].
  - apply existsb_exists in Hex1
      as (i & Hi%list_elem_of_In%elem_of_seqZ & Hfg).
    exists i. split; [lia|]. apply Z.eqb_eq, Hfg.
  - apply existsb_exists in Hex0
      as (i & Hi%list_elem_of_In%elem_of_seqZ & Hfg).
    exists i. split; [lia|]. apply Z.eqb_eq, Hfg.
  - intros win Hwin.
    destruct (proper_mask_sides be win Hp (proj1 Hwin)) as [HF HB].
    rewrite (window_sums_exact elem be win Hbe Hwin).
    rewrite (best_fg_bg_exact elem be win Hbe Hwin HF HB).
    eexists. split; [reflexivity|]. simpl.
    assert (0 < Z.of_nat (length (pick true (bitmap be) 0 win))) as HnF
      by (destruct (pick true _ _ _); [congruence | simpl; lia]).
    assert (0 < Z.of_nat (length (pick false (bitmap be) 0 win))) as HnB
      by (destruct (pick false _ _ _); [congruence | simpl; lia]).
    unfold udiv.
    rewrite (proj2 (Z.eqb_neq _ 0)) by lia.
    rewrite (proj2 (Z.eqb_neq (Z.of_nat (length (pick false _ _ _))) 0)) by lia.
    repeat split; eauto.
Qed.

Lemma catalog_masks_two_sided_witness :
  exists be,
    block_elements !! Z.to_nat LOWER_ONE_EIGHTH = Some be /\
    0 < bitmap be < 2 ^ 64 - 1.
Proof.
  destruct (catalog_masks_two_sided LOWER_ONE_EIGHTH) as (be & Hbe & Hm & _);
    [unfold LOWER_ONE_EIGHTH, NUM_ELEMENTS; lia|].
  exists be. split; assumption.
Defined.

(** C10: for every window the search selects a catalog entry: the loss
    of the first candidate is at most 3 * 64 * 255^2, which is below the
    initial minimum [INT_MAX], so the best element is assigned in the
    first iteration, and the glyph and the two colours returned are those
    [best_fg_bg] computes for one of the 19 entries. *)
Theorem guess_best_always_selects (win : list rgb_color)
    (best_fg0 best_bg0 : option rgb_color) :
  wf_window win ->
  (exists fg0 bg0 loss0 st,
     best_fg_bg 0 win = Some (fg0, bg0, loss0) /\
     loss0 <= 3 * 64 * (255 * 255) /\ 3 * 64 * (255 * 255) < INT_MAX /\
     guess_step win {| best_loss := INT_MAX; best_elem := None;
                       best_fg := best_fg0; best_bg := best_bg0 |} 0
     = Some st /\ best_elem st = Some 0) /\
  exists e be fg bg loss,
    guess_best_block_element win best_fg0 best_bg0
    = Some (utf8 be, Some fg, Some bg) /\
    0 <= e < NUM_ELEMENTS /\
    block_elements !! Z.to_nat e = Some be /\
    best_fg_bg e win = Some (fg, bg, loss).
Proof.
  intros Hwin. split.
  - destruct (best_fg_bg_loss 0 win) as (fg & bg & Hfit & Hl);
      [unfold NUM_ELEMENTS; lia | exact Hwin |].
    exists fg, bg, (elem_loss 0 win). eexists.
    split; [exact Hfit|]. split; [lia|]. split; [unfold INT_MAX; lia|].
    unfold guess_step. rewrite Hfit. simpl.
    rewrite u32_small by (unfold INT_MAX; lia).
    rewrite (proj2 (Z.ltb_lt _ _)) by (unfold INT_MAX; lia).
    split; reflexivity.
  - destruct (guess_best_first_min win best_fg0 best_bg0 Hwin)
      as (e & be & fg & bg & Hg & He & Hbe & Hfit & _).
    exists e, be, fg, bg, (elem_loss e win). auto.
Qed.

Lemma guess_best_always_selects_witness :
  exists e be fg bg loss,
    guess_best_block_element sample_window None None
    = Some (utf8 be, Some fg, Some bg) /\
    0 <= e < NUM_ELEMENTS /\
    block_elements !! Z.to_nat e = Some be /\
    best_fg_bg e sample_window = Some (fg, bg, loss).
Proof.
  apply (guess_best_always_selects sample_window None None).
  exact sample_window_wf.
Defined.

(** *** Uniform windows and clean vertical edges *)

Lemma chan_sum_replicate ch (n : nat) (c : rgb_color) :
  chan_sum ch (replicate n c) = Z.of_nat n * ch c.
Proof.
  induction n as [|n IH]; [reflexivity|].
  change (replicate (S n) c) with (c :: replicate n c).
  rewrite chan_sum_cons, IH. lia.
Qed.

Lemma chan_sum2_replicate ch (n : nat) (c : rgb_color) :
  chan_sum2 ch (replicate n c) = Z.of_nat n * (ch c * ch c).
Proof.
  induction n as [|n IH]; [reflexivity|].
  change (replicate (S n) c) with (c :: replicate n c).
  rewrite chan_sum2_cons, IH. lia.
Qed.

Lemma chan_mean_replicate ch (n : nat) (c : rgb_color) :
  (0 < n)%nat -> chan_mean ch (replicate n c) = ch c.
Proof.
  intros Hn. unfold chan_mean.
  rewrite chan_sum_replicate, length_replicate, Z.mul_comm.
  apply Z.div_mul. lia.
Qed.

Lemma chan_loss_replicate ch (n : nat) (c : rgb_color) :
  (0 < n)%nat -> chan_loss ch (replicate n c) = 0.
Proof.
  intros Hn. unfold chan_loss.
  rewrite chan_mean_replicate, chan_sum2_replicate, length_replicate by exact Hn.
  lia.
Qed.

Lemma mean_color_replicate (n : nat) (c : rgb_color) :
  (0 < n)%nat -> mean_color (replicate n c) = c.
Proof.
  intros Hn. unfold mean_color. rewrite !chan_mean_replicate by exact Hn.
  destruct c; reflexivity.
Qed.

Lemma pick_replicate (side : bool) (bits : Z) (c : rgb_color) (n : nat) :
  forall i, pick side bits i (replicate n c)
            = replicate (count_side side bits i n) c.
Proof.
  induction n as [|n IH]; intros i; simpl; [reflexivity|].
  rewrite IH. destruct (Bool.eqb _ side); reflexivity.
Qed.

Lemma uniform_window_replicate (c : rgb_color) (win : list rgb_color) :
  uniform_window c win -> win = replicate (Z.to_nat WINDOW_SZ) c.
Proof.
  intros [Hlen Hall]. rewrite <- Hlen. clear Hlen.
  induction win as [|p w IH]; [reflexivity|]. simpl. f_equal.
  - apply Hall. left.
  - apply IH. intros q Hq. apply Hall. right. exact Hq.
Qed.

Lemma uniform_window_wf (c : rgb_color) (win : list rgb_color) :
  wf_color c -> uniform_window c win -> wf_window win.
Proof.
  intros Hc [Hlen Hall]. split; [exact Hlen|].
  apply Forall_forall. intros p Hp. rewrite (Hall p Hp). exact Hc.
Qed.

(** On a uniform window every catalog glyph has loss zero and both mean
    colours are the colour of the window. *)
Lemma best_fg_bg_uniform (c : rgb_color) (win : list rgb_color) (elem : Z) :
  wf_color c -> uniform_window c win -> 0 <= elem < NUM_ELEMENTS ->
  best_fg_bg elem win = Some (c, c, 0) /\ elem_loss elem win = 0.
Proof.
  intros Hc Hu He. pose proof (uniform_window_wf c win Hc Hu) as Hwin.
  destruct (catalog_proper elem He) as (be & Hbe & Hp).
  destruct (proper_mask_sides be win Hp (proj1 Hwin)) as [HF HB].
  unfold elem_loss.
  rewrite (best_fg_bg_exact elem be win Hbe Hwin HF HB), Hbe.
  unfold mask_loss.
  rewrite (uniform_window_replicate c win Hu) in *.
  rewrite !pick_replicate in *.
  assert (0 < count_side true (bitmap be) 0 (Z.to_nat WINDOW_SZ))%nat
    by (destruct (count_side true _ _ _); [simpl in HF; congruence | lia]).
  assert (0 < count_side false (bitmap be) 0 (Z.to_nat WINDOW_SZ))%nat
    by (destruct (count_side false _ _ _); [simpl in HB; congruence | lia]).
  rewrite !mean_color_replicate, !chan_loss_replicate by assumption.
  split; reflexivity.
Qed.

(** C4: on a window that is uniformly one colour every one of the 19
    catalog glyphs has loss zero, and the search returns the first glyph
    of the catalog, LOWER_HALF, with both colours the colour of the
    window: a later glyph of equal loss does not replace the best one,
    the comparison being strict. *)
Theorem uniform_window_selects_first_glyph (c : rgb_color)
    (win : list rgb_color) (best_fg0 best_bg0 : option rgb_color) :
  wf_color c -> uniform_window c win ->
  (forall elem, 0 <= elem < NUM_ELEMENTS ->
     best_fg_bg elem win = Some (c, c, 0)) /\
  (forall st elem fg bg loss,
     best_fg_bg elem win = Some (fg, bg, loss) ->
     0 <= best_loss st -> best_loss st <= loss ->
     guess_step win st elem = Some st) /\
  exists be, block_elements !! Z.to_nat LOWER_HALF = Some be /\
    utf8 be = xe2_x96 "132" /\
    guess_best_block_element win best_fg0 best_bg0
    = Some (utf8 be, Some c, Some c).
Proof.
  intros Hc Hu. pose proof (uniform_window_wf c win Hc Hu) as Hwin.
  split; [|split].
  - intros elem He. apply (best_fg_bg_uniform c win elem Hc Hu He).
  - intros st elem fg bg loss Hfit H0 Hle. unfold guess_step.
    rewrite Hfit. simpl.
    destruct (loss <? u32 (best_loss st)) eqn:E; [|reflexivity].
    apply Z.ltb_lt in E. unfold u32 in E.
    pose proof (Z.mod_le (best_loss st) (2 ^ 32)). lia.
  - destruct (guess_best_first_min win best_fg0 best_bg0 Hwin)
      as (e & be & fg & bg & Hg & He & Hbe & Hfit & _ & Hfirst).
    assert (e = 0) as ->.
    { destruct (decide (e = 0)) as [|Hne]; [assumption|].
      specialize (Hfirst 0 ltac:(lia)).
      rewrite (proj2 (best_fg_bg_uniform c win e Hc Hu He)) in Hfirst.
      rewrite (proj2 (best_fg_bg_uniform c win 0 Hc Hu
                        ltac:(unfold NUM_ELEMENTS; lia))) in Hfirst.
      lia. }
    destruct (best_fg_bg_uniform c win 0 Hc Hu He) as [Hfit0 _].
    rewrite Hfit0 in Hfit. injection Hfit as <- <- _.
    exists be. split; [exact Hbe|]. split; [|exact Hg].
    change (block_elements !! Z.to_nat 0) with
      (Some {| bitmap := binary "0000000000000000000000000000000011111111111111111111111111111111";
               utf8 := xe2_x96 "132" |}) in Hbe.
    injection Hbe as <-. reflexivity.
Qed.

Lemma uniform_window_selects_first_glyph_witness :
  exists be, block_elements !! Z.to_nat LOWER_HALF = Some be /\
    utf8 be = xe2_x96 "132" /\
    guess_best_block_element (replicate 64 {| r := 9; g := 8; b := 7 |})
                             None None
    = Some (utf8 be, Some {| r := 9; g := 8; b := 7 |},
            Some {| r := 9; g := 8; b := 7 |}).
Proof.
  apply (uniform_window_selects_first_glyph {| r := 9; g := 8; b := 7 |}).
  - unfold wf_color, is_u8; simpl; lia.
  - split; [reflexivity|]. intros p Hp. apply elem_of_replicate in Hp.
    apply Hp.
Defined.

(** The window with a clean vertical edge, written out. *)
Lemma vertical_edge_window_eq (A B : rgb_color) (win : list rgb_color) :
  vertical_edge_window A B win ->
  win = (fun i => if i mod WINDOW_W <? 4 then A else B) <$> seqZ 0 WINDOW_SZ.
Proof.
  intros [Hlen Hget]. apply list_eq. intros k.
  destruct (decide (k < 64)%nat) as [Hk|Hk].
  - specialize (Hget (Z.of_nat k)). rewrite Nat2Z.id in Hget.
    rewrite Hget by (unfold WINDOW_SZ, WINDOW_W, WINDOW_H; lia).
    rewrite list_lookup_fmap, lookup_seqZ_lt
      by (unfold WINDOW_SZ, WINDOW_W, WINDOW_H; lia).
    reflexivity.
  - rewrite !lookup_ge_None_2; [reflexivity | |].
    + rewrite length_fmap, length_seqZ. change (Z.to_nat WINDOW_SZ) with 64%nat.
      lia.
    + rewrite Hlen. change (Z.to_nat WINDOW_SZ) with 64%nat. lia.
Qed.

Lemma vertical_edge_window_wf (A B : rgb_color) (win : list rgb_color) :
  wf_color A -> wf_color B -> vertical_edge_window A B win -> wf_window win.
Proof.
  intros HA HB Hv. split; [apply Hv|].
  rewrite (vertical_edge_window_eq A B win Hv).
  apply Forall_fmap, Forall_forall. intros i _. simpl.
  destruct (i mod WINDOW_W <? 4); assumption.
Qed.

(** A side that holds sixteen pixels of each of two colours has a
    positive loss on a channel where the two colours differ. *)
Lemma chan_loss_mixed ch (a c : Z) (l : list rgb_color) :
  0 <= a -> 0 <= c -> a <> c ->
  length l = 32%nat -> chan_sum ch l = 16 * a + 16 * c ->
  chan_sum2 ch l = 16 * (a * a) + 16 * (c * c) ->
  0 < chan_loss ch l.
Proof.
  intros Ha Hc Hne Hlen Hs Hq. unfold chan_loss, chan_mean.
  rewrite Hlen, Hs, Hq. change (Z.of_nat 32) with 32.
  set (m := (16 * a + 16 * c) / 32).
  assert (32 * m <= 16 * a + 16 * c) by (apply Z.mul_div_le; lia).
  assert (0 <= m) by (apply Z.div_pos; lia).
  assert (4 * (m * m) <= (a + c) * (a + c)) by nia.
  assert (0 < (a - c) * (a - c)) by nia.
  nia.
Qed.

Lemma rgb_color_neq (A B : rgb_color) :
  A <> B -> r A <> r B \/ g A <> g B \/ b A <> b B.
Proof.
  intros Hne. destruct A as [ra ga ba], B as [rb gb bb]. simpl.
  destruct (decide (ra = rb)) as [->|]; [|auto].
  destruct (decide (ga = gb)) as [->|]; [|auto].
  destruct (decide (ba = bb)) as [->|]; [|auto].
  congruence.
Qed.

Lemma left_half_fits_edge (A B : rgb_color) (win : list rgb_color) :
  wf_color A -> wf_color B -> vertical_edge_window A B win ->
  best_fg_bg LEFT_HALF win = Some (A, B, 0) /\ elem_loss LEFT_HALF win = 0.
Proof.
  intros HA HB Hv.
  pose proof (vertical_edge_window_wf A B win HA HB Hv) as Hwin.
  pose proof (vertical_edge_window_eq A B win Hv) as Heq.
  destruct (catalog_proper LEFT_HALF) as (be & Hbe & _);
    [unfold LEFT_HALF, NUM_ELEMENTS; lia|].
  assert (pick true (bitmap be) 0 win = replicate 32 A) as HF1.
  { rewrite Heq. injection Hbe as <-. vm_compute. reflexivity. }
  assert (pick false (bitmap be) 0 win = replicate 32 B) as HB1.
  { rewrite Heq. injection Hbe as <-. vm_compute. reflexivity. }
  unfold elem_loss. rewrite Hbe.
  rewrite (best_fg_bg_exact LEFT_HALF be win Hbe Hwin)
    by (rewrite ?HF1, ?HB1; discriminate).
  unfold mask_loss. rewrite HF1, HB1.
  rewrite !mean_color_replicate, !chan_loss_replicate by lia.
  split; reflexivity.
Qed.

Lemma lower_half_misfits_edge (A B : rgb_color) (win : list rgb_color) :
  wf_color A -> wf_color B -> A <> B -> vertical_edge_window A B win ->
  0 < elem_loss LOWER_HALF win.
Proof.
  intros HA HB Hne Hv.
  pose proof (vertical_edge_window_wf A B win HA HB Hv) as Hwin.
  pose proof (vertical_edge_window_eq A B win Hv) as Heq.
  destruct (catalog_proper LOWER_HALF) as (be & Hbe & _);
    [unfold LOWER_HALF, NUM_ELEMENTS; lia|].
  unfold elem_loss. rewrite Hbe.
  pose proof (mask_loss_bounds (bitmap be) win Hwin) as Hb.
  unfold mask_loss in *. cbv zeta in *.
  set (F := pick true (bitmap be) 0 win) in *.
  set (K := pick false (bitmap be) 0 win) in *.
  assert (F = concat (replicate 4 (replicate 4 A ++ replicate 4 B))) as HF.
  { subst F. rewrite Heq. injection Hbe as <-. vm_compute. reflexivity. }
  destruct Hwin as [_ Hwf].
  channel_bounds F (pick_wf true (bitmap be) _ 0 Hwf).
  channel_bounds K (pick_wf false (bitmap be) _ 0 Hwf).
  destruct HA as (HAr & HAg & HAb), HB as (HBr & HBg & HBb).
  unfold is_u8 in *.
  assert (forall ch, 0 <= ch A -> 0 <= ch B -> ch A <> ch B ->
                     0 < chan_loss ch F) as Hmixed.
  { intros ch Hc1 Hc2 Hc3.
    apply (chan_loss_mixed ch (ch A) (ch B)); trivial;
      rewrite HF; [reflexivity | |];
      simpl concat; simpl app;
      rewrite ?chan_sum_cons, ?chan_sum2_cons; simpl; lia. }
  destruct (rgb_color_neq A B Hne) as [Hd | [Hd | Hd]].
  - pose proof (Hmixed r ltac:(lia) ltac:(lia) Hd). lia.
  - pose proof (Hmixed g ltac:(lia) ltac:(lia) Hd). lia.
  - pose proof (Hmixed b ltac:(lia) ltac:(lia) Hd). lia.
Qed.

(** C3: on a window whose left four columns are the colour [A] and whose
    right four columns are a different colour [B], the search selects
    LEFT_HALF (U+258C), whose mask is the left/right half split, with
    loss zero, foreground mean [A] and background mean [B]. *)
Theorem vertical_edge_selects_left_half (A B : rgb_color)
    (win : list rgb_color) (best_fg0 best_bg0 : option rgb_color) :
  wf_color A -> wf_color B -> A <> B -> vertical_edge_window A B win ->
  exists be, block_elements !! Z.to_nat LEFT_HALF = Some be /\
    utf8 be = xe2_x96 "140" /\
    (forall i, 0 <= i < WINDOW_SZ ->
       is_fg (bitmap be) i = if i mod WINDOW_W <? 4 then 1 else 0) /\
    best_fg_bg LEFT_HALF win = Some (A, B, 0) /\
    guess_best_block_element win best_fg0 best_bg0
    = Some (utf8 be, Some A, Some B).
Proof.
  intros HA HB Hne Hv.
  pose proof (vertical_edge_window_wf A B win HA HB Hv) as Hwin.
  destruct (left_half_fits_edge A B win HA HB Hv) as [Hfit1 Hloss1].
  pose proof (lower_half_misfits_edge A B win HA HB Hne Hv) as Hloss0.
  destruct (guess_best_first_min win best_fg0 best_bg0 Hwin)
    as (e & be & fg & bg & Hg & He & Hbe & Hfit & Hmin & Hfirst).
  destruct (best_fg_bg_loss e win He Hwin) as (_ & _ & _ & Hle).
  pose proof (Hmin LEFT_HALF ltac:(unfold LEFT_HALF, NUM_ELEMENTS; lia)) as Hm1.
  assert (e = LEFT_HALF) as ->.
  { unfold LEFT_HALF in *. destruct (decide (e = 0)) as [->|Hne0].
    - unfold LOWER_HALF in Hloss0. lia.
    - destruct (decide (e = 1)) as [|Hne1]; [assumption|].
      specialize (Hfirst 1 ltac:(lia)). lia. }
  rewrite Hfit1 in Hfit. injection Hfit as <- <- _.
  exists be. split; [exact Hbe|].
  injection Hbe as <-. split; [reflexivity|].
  split; [|split; [exact Hfit1 | exact Hg]].
  intros i Hi.
  assert (forallb (fun j => is_fg (binary "1111000011110000111100001111000011110000111100001111000011110000") j
                            =? if j mod WINDOW_W <? 4 then 1 else 0)
                  (seqZ 0 WINDOW_SZ) = true) as Hb by (vm_compute; reflexivity).
  rewrite forallb_forall in Hb. apply Z.eqb_eq, Hb, list_elem_of_In.
  apply elem_of_seqZ. lia.
Qed.

Lemma vertical_edge_selects_left_half_witness :
  exists be, block_elements !! Z.to_nat LEFT_HALF = Some be /\
    utf8 be = xe2_x96 "140" /\
    (forall i, 0 <= i < WINDOW_SZ ->
       is_fg (bitmap be) i = if i mod WINDOW_W <? 4 then 1 else 0) /\
    best_fg_bg LEFT_HALF
      ((fun i => if i mod WINDOW_W <? 4
                 then {| r := 200; g := 10; b := 10 |}
                 else {| r := 10; g := 10; b := 200 |}) <$> seqZ 0 WINDOW_SZ)
    = Some ({| r := 200; g := 10; b := 10 |},
            {| r := 10; g := 10; b := 200 |}, 0) /\
    guess_best_block_element
      ((fun i => if i mod WINDOW_W <? 4
                 then {| r := 200; g := 10; b := 10 |}
                 else {| r := 10; g := 10; b := 200 |}) <$> seqZ 0 WINDOW_SZ)
      None None
    = Some (utf8 be, Some {| r := 200; g := 10; b := 10 |},
            Some {| r := 10; g := 10; b := 200 |}).
Proof.
  apply (vertical_edge_selects_left_half
           {| r := 200; g := 10; b := 10 |} {| r := 10; g := 10; b := 200 |}).
  - unfold wf_color, is_u8; simpl; lia.
  - unfold wf_color, is_u8; simpl; lia.
  - discriminate.
  - split; [reflexivity|]. intros i Hi.
    rewrite list_lookup_fmap, lookup_seqZ_lt by lia.
    simpl. rewrite Z2Nat.id by lia. reflexivity.
Defined.

(** ** The frame writers *)

Lemma sample_lut_ok : lut_ok sample_lut.
Proof.
  apply (preinit_lut_ok (fun _ => "????????")
           (replicate 256 {| str := ""; width := 0 |}));
    [reflexivity | reflexivity |].
  unfold sample_lut.
  destruct (preinit_entries (fun _ => "????????")
              (replicate 256 {| str := ""; width := 0 |}))
    as (lut & -> & _); reflexivity.
Qed.

Lemma concat_str_app (l k : list string) :
  concat_str (l ++ k) = concat_str l +:+ concat_str k.
Proof.
  induction l as [|s l IH]; [reflexivity|].
  change (s +:+ concat_str (l ++ k) = (s +:+ concat_str l) +:+ concat_str k).
  rewrite IH, append_assoc. reflexivity.
Qed.

Lemma foldlM_fmap {S A B : Type} (body : S -> B -> option S) (f : A -> B)
    (l : list A) :
  forall s, foldlM body s (f <$> l) = foldlM (fun s a => body s (f a)) s l.
Proof.
  induction l as [|a l IH]; intros s; simpl; [reflexivity|].
  destruct (body s (f a)); simpl; [apply IH | reflexivity].
Qed.

Section CellLoops.

Context {St : Type}.
Variable body : St -> Z -> option St.
Variable at_pos : Z -> St -> Prop.
Variable output : St -> string.
Variable cell : Z -> string.

(** A loop over [lo .. lo + n - 1] whose iteration [k] takes a state
    that is at position [k] to one at position [k + 1] and appends
    [cell k] to the output. *)
Lemma loop_appends_cells (lo : Z) (n : nat) :
  (forall k s, lo <= k < lo + Z.of_nat n -> at_pos k s ->
     exists s', body s k = Some s' /\ at_pos (k + 1) s' /\
                output s' = output s +:+ cell k) ->
  forall s, at_pos lo s ->
  exists s', foldlM body s (seqZ lo (Z.of_nat n)) = Some s' /\
             at_pos (lo + Z.of_nat n) s' /\
             output s' = output s +:+ concat_str (cell <$> seqZ lo (Z.of_nat n)).
Proof.
  induction n as [|n IH]; intros Hbody s Hs.
  - exists s. split; [reflexivity|]. split.
    + replace (lo + Z.of_nat 0) with lo by lia. exact Hs.
    + simpl. rewrite append_nil_r. reflexivity.
  - destruct (IH ltac:(intros k s0 Hk; apply Hbody; lia) s Hs)
      as (s1 & Hfold & Hat & Hout).
    destruct (Hbody (lo + Z.of_nat n) s1 ltac:(lia) Hat)
      as (s2 & Hstep & Hat2 & Hout2).
    exists s2. rewrite seqZ_S, foldlM_app, Hfold. simpl. rewrite Hstep.
    split; [reflexivity|]. split.
    + replace (lo + Z.of_nat (S n)) with (lo + Z.of_nat n + 1) by lia.
      exact Hat2.
    + rewrite Hout2, Hout, fmap_app, concat_str_app, append_assoc.
      change (concat_str (cell <$> [lo + Z.of_nat n]))
        with (cell (lo + Z.of_nat n) +:+ "").
      rewrite append_nil_r. reflexivity.
Qed.

Lemma seqZ_to_nat (m n : Z) : seqZ m n = seqZ m (Z.of_nat (Z.to_nat n)).
Proof. unfold seqZ. rewrite Nat2Z.id. reflexivity. Qed.

Lemma seqZ_loop_appends_cells (n : Z) :
  (forall k s, 0 <= k < n -> at_pos k s ->
     exists s', body s k = Some s' /\ at_pos (k + 1) s' /\
                output s' = output s +:+ cell k) ->
  forall s, at_pos 0 s ->
  exists s', foldlM body s (seqZ 0 n) = Some s' /\
             at_pos (Z.max 0 n) s' /\
             output s' = output s +:+ concat_str (cell <$> seqZ 0 n).
Proof.
  intros Hbody s Hs. rewrite seqZ_to_nat.
  destruct (loop_appends_cells 0 (Z.to_nat n)
              ltac:(intros k s0 Hk; apply Hbody; lia) s Hs)
    as (s' & Hfold & Hat & Hout).
  exists s'. split; [exact Hfold|]. split; [|exact Hout].
  replace (Z.max 0 n) with (0 + Z.of_nat (Z.to_nat n)) by lia. exact Hat.
Qed.

(** The same for a C loop [for (k = 0; k < n; ++k)]. *)
Lemma c_loop_appends_cells (n : Z) :
  (forall k s, 0 <= k < n -> at_pos k s ->
     exists s', body s k = Some s' /\ at_pos (k + 1) s' /\
                output s' = output s +:+ cell k) ->
  forall s, at_pos 0 s ->
  exists s', foldlM body s (c_range 0 n 1) = Some s' /\
             at_pos (Z.max 0 n) s' /\
             output s' = output s +:+ concat_str (cell <$> seqZ 0 n).
Proof.
  rewrite c_range_seqZ, Z.sub_0_r. apply seqZ_loop_appends_cells.
Qed.

End CellLoops.

(** The same for a C loop [for (k = 0; k < n * step; k += step)], whose
    iteration [j] runs the body on [step * j]. *)
Lemma c_step_loop_appends_cells {St : Type} (body : St -> Z -> option St)
    (at_pos : Z -> St -> Prop) (output : St -> string) (cell : Z -> string)
    (n step : Z) :
  0 < step ->
  (forall j s, 0 <= j < n -> at_pos j s ->
     exists s', body s (step * j) = Some s' /\ at_pos (j + 1) s' /\
                output s' = output s +:+ cell j) ->
  forall s, at_pos 0 s ->
  exists s', foldlM body s (c_range 0 (n * step) step) = Some s' /\
             at_pos (Z.max 0 n) s' /\
             output s' = output s +:+ concat_str (cell <$> seqZ 0 n).
Proof.
  intros Hstep Hbody. rewrite c_range_multiples by exact Hstep.
  intros s Hs. rewrite foldlM_fmap.
  apply (seqZ_loop_appends_cells (fun s j => body s (step * j))); assumption.
Qed.

Lemma print_color_total (term256 : bool) (lut : list lut_item)
    (prefix256 prefix : string) (c : rgb_color) :
  lut_ok lut -> wf_color c ->
  is_Some (print_color term256 lut prefix256 prefix (r c) (g c) (b c)).
Proof.
  intros Hlut (Hr & Hg & Hb). unfold print_color. destruct term256.
  - destruct (rgb_to_x256_total _ _ _ Hr Hg Hb) as (n & -> & Hn).
    simpl. rewrite print_seq1_eq_win32; [eauto | exact Hlut |].
    unfold is_u8. rewrite u8_small; lia.
  - rewrite print_seq3_eq_win32; eauto.
Qed.

Lemma get_rgb_channels (source : list Z) (p : Z) (c : rgb_color) :
  get_rgb source p = Some c ->
  load source p = Some (b c) /\ load source (p + 1) = Some (g c) /\
  load source (p + 1 + 1) = Some (r c).
Proof.
  unfold get_rgb. intros H.
  destruct (load source p) as [vb|]; [|discriminate]. simpl in H.
  destruct (load source (p + 1)) as [vg|]; [|discriminate]. simpl in H.
  destruct (load source (p + 1 + 1)) as [vr|]; [|discriminate].
  injection H as <-. auto.
Qed.

(** *** The plain writer *)

Lemma write_plain_cell_spec (source : list Z) (source_stride : Z)
    (term256 : bool) (lut : list lut_item) (y x : Z) (out s : string) :
  plain_cell source source_stride term256 lut y x = Some s ->
  write_plain_cell source term256 lut (y * source_stride + 3 * x, out) x
  = Some (y * source_stride + 3 * (x + 1), out +:+ s).
Proof.
  unfold plain_cell, write_plain_cell. intros H.
  destruct (pixel_at source source_stride y x) as [c|] eqn:Hc; [|discriminate].
  apply get_rgb_channels in Hc as (Hb & Hg & Hr).
  rewrite Hb. simpl. rewrite Hg. simpl. rewrite Hr. simpl.
  simpl in H.
  destruct (print_color term256 lut _ _ (r c) (g c) (b c)) as [s0|];
    [|discriminate].
  injection H as <-. simpl. rewrite append_assoc.
  do 2 f_equal. lia.
Qed.

Lemma plain_cell_total (source : list Z) (source_stride rows cols : Z)
    (term256 : bool) (lut : list lut_item) (y x : Z) :
  lut_ok lut -> frame_readable source source_stride rows cols ->
  0 <= y < rows -> 0 <= x < cols ->
  is_Some (plain_cell source source_stride term256 lut y x).
Proof.
  intros Hlut Hframe Hy Hx. unfold plain_cell.
  destruct (Hframe y x Hy Hx) as (c & -> & Hc). simpl.
  destruct (print_color_total term256 lut ESC_COLOR256_BG ESC_COLOR_BG c
              Hlut Hc) as [s ->].
  simpl. eauto.
Qed.

Lemma default_is_Some {A : Type} (d : A) (o : option A) :
  is_Some o -> o = Some (default d o).
Proof. intros [a ->]. reflexivity. Qed.

Lemma write_plain_layout (dwidth dheight swidth sheight : Z)
    (source : list Z) (source_stride : Z) (term256 : bool)
    (lut : list lut_item) :
  lut_ok lut -> frame_readable source source_stride sheight swidth ->
  write_plain dwidth dheight swidth sheight source source_stride term256 lut
  = Some (frame_layout ((dheight - sheight) `quot` 2)
            ((dwidth - swidth) `quot` 2) sheight swidth
            (fun y x => default ""
               (plain_cell source source_stride term256 lut y x))).
Proof.
  intros Hlut Hframe. unfold write_plain, frame_layout. cbv zeta.
  set (tx := (dwidth - swidth) `quot` 2). set (ty := (dheight - sheight) `quot` 2).
  set (cell := fun y x => default "" (plain_cell source source_stride term256 lut y x)).
  destruct (c_loop_appends_cells
    (fun out y =>
       '(_, out) ← foldlM (write_plain_cell source term256 lut)
                          (y * source_stride,
                           out +:+ printf_ESC_GOTOXY (ty + y) tx)
                          (c_range 0 swidth 1);
       Some (out +:+ ESC_CLEAR_COLORS))
    (fun _ _ => True) id
    (fun y => printf_ESC_GOTOXY (ty + y) tx
              +:+ concat_str (cell y <$> seqZ 0 swidth)
              +:+ ESC_CLEAR_COLORS)
    sheight) with (s := ""%string) as (out & Hfold & _ & Hout); [|exact I|].
  - intros y out Hy _.
    destruct (c_loop_appends_cells (write_plain_cell source term256 lut)
      (fun k st => st.1 = y * source_stride + 3 * k) snd (cell y) swidth)
      with (s := (y * source_stride, out +:+ printf_ESC_GOTOXY (ty + y) tx))
      as ([row out'] & Hfold & _ & Hout'); [|simpl; lia|].
    + intros x [row0 out0] Hx Hrow. simpl in Hrow. subst row0.
      pose proof (plain_cell_total source source_stride sheight swidth
                    term256 lut y x Hlut Hframe Hy Hx) as Hsome.
      apply (default_is_Some "") in Hsome. fold (cell y x) in Hsome.
      rewrite (write_plain_cell_spec _ _ _ _ _ _ _ _ Hsome).
      eexists. split; [reflexivity|]. split; reflexivity.
    + rewrite Hfold. simpl in Hout'. simpl.
      eexists. split; [reflexivity|]. split; [exact I|].
      unfold id. rewrite Hout', !append_assoc. reflexivity.
  - rewrite Hfold. simpl. unfold id in Hout. rewrite Hout. reflexivity.
Qed.

(** *** The half-block writer *)

Lemma write_half_blocks_cell_spec (source : list Z) (source_stride : Z)
    (term256 : bool) (lut : list lut_item) (y x : Z) (out s : string) :
  half_blocks_cell source source_stride term256 lut y x = Some s ->
  write_half_blocks_cell source term256 lut
    (2 * y * source_stride + 3 * x, (2 * y + 1) * source_stride + 3 * x, out) x
  = Some (2 * y * source_stride + 3 * (x + 1),
          (2 * y + 1) * source_stride + 3 * (x + 1), out +:+ s).
Proof.
  unfold half_blocks_cell, write_half_blocks_cell. intros H.
  destruct (pixel_at source source_stride (2 * y) x) as [up|] eqn:Hup;
    [|discriminate].
  destruct (pixel_at source source_stride (2 * y + 1) x) as [down|] eqn:Hdown;
    [|discriminate].
  apply get_rgb_channels in Hup as (Hb & Hg & Hr).
  apply get_rgb_channels in Hdown as (Hb' & Hg' & Hr').
  rewrite Hb. simpl. rewrite Hg. simpl. rewrite Hr. simpl.
  rewrite Hb'. simpl. rewrite Hg'. simpl. rewrite Hr'. simpl.
  simpl in H.
  destruct (print_color term256 lut _ _ (r up) (g up) (b up)) as [s1|];
    [|discriminate].
  simpl in H |- *.
  destruct (print_color term256 lut _ _ (r down) (g down) (b down)) as [s2|];
    [|discriminate].
  injection H as <-. simpl. rewrite !append_assoc.
  do 2 f_equal. f_equal; lia.
Qed.

Lemma half_blocks_cell_total (source : list Z) (source_stride rows cols : Z)
    (term256 : bool) (lut : list lut_item) (y x : Z) :
  lut_ok lut -> frame_readable source source_stride (2 * rows) cols ->
  0 <= y < rows -> 0 <= x < cols ->
  is_Some (half_blocks_cell source source_stride term256 lut y x).
Proof.
  intros Hlut Hframe Hy Hx. unfold half_blocks_cell.
  destruct (Hframe (2 * y) x ltac:(lia) Hx) as (up & -> & Hup).
  destruct (Hframe (2 * y + 1) x ltac:(lia) Hx) as (down & -> & Hdown).
  simpl.
  destruct (print_color_total term256 lut ESC_COLOR256_BG ESC_COLOR_BG up
              Hlut Hup) as [s1 ->].
  destruct (print_color_total term256 lut ESC_COLOR256_FG ESC_COLOR_FG down
              Hlut Hdown) as [s2 ->].
  simpl. eauto.
Qed.

Lemma write_half_blocks_layout (dwidth dheight swidth sheight : Z)
    (source : list Z) (source_stride : Z) (term256 : bool)
    (lut : list lut_item) :
  lut_ok lut -> frame_readable source source_stride (2 * sheight) swidth ->
  write_half_blocks dwidth dheight swidth sheight source source_stride
                    term256 lut
  = Some (frame_layout ((dheight - sheight) `quot` 2)
            ((dwidth - swidth) `quot` 2) sheight swidth
            (fun y x => default ""
               (half_blocks_cell source source_stride term256 lut y x))).
Proof.
  intros Hlut Hframe. unfold write_half_blocks, frame_layout. cbv zeta.
  set (tx := (dwidth - swidth) `quot` 2). set (ty := (dheight - sheight) `quot` 2).
  set (cell := fun y x => default "" (half_blocks_cell source source_stride term256 lut y x)).
  destruct (c_step_loop_appends_cells
    (fun out y =>
       '(_, _, out) ← foldlM (write_half_blocks_cell source term256 lut)
                          (y * source_stride, (y + 1) * source_stride,
                           out +:+ printf_ESC_GOTOXY (ty + y `quot` 2) tx)
                          (c_range 0 swidth 1);
       Some (out +:+ ESC_CLEAR_COLORS))
    (fun _ _ => True) id
    (fun y => printf_ESC_GOTOXY (ty + y) tx
              +:+ concat_str (cell y <$> seqZ 0 swidth)
              +:+ ESC_CLEAR_COLORS)
    sheight 2) with (s := ""%string) as (out & Hfold & _ & Hout);
    [lia | | exact I |].
  - intros y out Hy _.
    replace ((2 * y) `quot` 2) with y by (rewrite Z.mul_comm, Z.quot_mul; lia).
    destruct (c_loop_appends_cells (write_half_blocks_cell source term256 lut)
      (fun k st => st.1.1 = 2 * y * source_stride + 3 * k /\
                   st.1.2 = (2 * y + 1) * source_stride + 3 * k)
      snd (cell y) swidth)
      with (s := (2 * y * source_stride, (2 * y + 1) * source_stride,
                  out +:+ printf_ESC_GOTOXY (ty + y) tx))
      as ([[row_up row_down] out'] & Hfold & _ & Hout'); [|simpl; lia|].
    + intros x [[up0 down0] out0] Hx [Hup Hdown]. simpl in Hup, Hdown.
      subst up0 down0.
      pose proof (half_blocks_cell_total source source_stride sheight swidth
                    term256 lut y x Hlut Hframe Hy Hx) as Hsome.
      apply (default_is_Some "") in Hsome. fold (cell y x) in Hsome.
      rewrite (write_half_blocks_cell_spec _ _ _ _ _ _ _ _ Hsome).
      eexists. split; [reflexivity|]. split; [split|]; reflexivity.
    + rewrite Hfold. simpl in Hout'. simpl.
      eexists. split; [reflexivity|]. split; [exact I|].
      unfold id. rewrite Hout', !append_assoc. reflexivity.
  - rewrite Hfold. simpl. unfold id in Hout. rewrite Hout. reflexivity.
Qed.

(** C2: in true-colour mode, the half-block writer on a buffer of one
    column and two rows, whose upper pixel is (B=10, G=20, R=30) and
    whose lower pixel is (B=40, G=50, R=60), writes after the cursor
    position the background sequence 48;2;30;20;10m, then the foreground
    sequence 38;2;60;50;40m, then the bytes of U+2584, then the colour
    reset (and the final newline). *)
Theorem half_blocks_two_pixels (dwidth dheight : Z) (source : list Z)
    (source_stride : Z) (lut : list lut_item) :
  lut_ok lut ->
  pixel_at source source_stride 0 0 = Some {| r := 30; g := 20; b := 10 |} ->
  pixel_at source source_stride 1 0 = Some {| r := 60; g := 50; b := 40 |} ->
  write_half_blocks dwidth dheight 1 1 source source_stride false lut
  = Some (printf_ESC_GOTOXY ((dheight - 1) `quot` 2) ((dwidth - 1) `quot` 2)
          +:+ (ESC +:+ "[48;2;30;20;10m")
          +:+ (ESC +:+ "[38;2;60;50;40m")
          +:+ String "226" (String "150" (String "132" ""))
          +:+ (ESC +:+ "[0m")
          +:+ NL).
Proof.
  intros Hlut Hup Hdown.
  rewrite write_half_blocks_layout; [|exact Hlut|].
  - unfold frame_layout. change (seqZ 0 1) with [0].
    cbn [fmap list_fmap concat_str foldr]. unfold half_blocks_cell.
    change (2 * 0) with 0. change (0 + 1) with 1.
    rewrite Hup, Hdown. cbn [mbind option_bind r g b]. unfold print_color.
    rewrite !print_seq3_eq_win32 by (try assumption; unfold is_u8; lia).
    cbn [mbind option_bind default]. rewrite Z.add_0_r.
    rewrite !append_nil_r, !append_assoc. reflexivity.
  - intros y x Hy Hx. assert (x = 0) as -> by lia.
    assert (y = 0 \/ y = 1) as [-> | ->] by lia;
      (eexists; split; [eassumption|]);
      unfold wf_color, is_u8; simpl; lia.
Qed.

Lemma half_blocks_two_pixels_witness :
  write_half_blocks 80 25 1 1 [10; 20; 30; 40; 50; 60] 3 false sample_lut
  = Some (printf_ESC_GOTOXY 12 39
          +:+ (ESC +:+ "[48;2;30;20;10m")
          +:+ (ESC +:+ "[38;2;60;50;40m")
          +:+ String "226" (String "150" (String "132" ""))
          +:+ (ESC +:+ "[0m")
          +:+ NL).
Proof.
  apply (half_blocks_two_pixels 80 25 [10; 20; 30; 40; 50; 60] 3 sample_lut);
    [exact sample_lut_ok | reflexivity | reflexivity].
Defined.

(** *** The all-blocks writer *)

Lemma loop_invariant {St : Type} (body : St -> Z -> option St)
    (at_pos : Z -> St -> Prop) (lo : Z) (n : nat) :
  (forall k s, lo <= k < lo + Z.of_nat n -> at_pos k s ->
     exists s', body s k = Some s' /\ at_pos (k + 1) s') ->
  forall s, at_pos lo s ->
  exists s', foldlM body s (seqZ lo (Z.of_nat n)) = Some s' /\
             at_pos (lo + Z.of_nat n) s'.
Proof.
  intros Hbody s Hs.
  destruct (loop_appends_cells body at_pos (fun _ => ""%string)
              (fun _ => ""%string) lo n) with (s := s)
    as (s' & Hfold & Hat & _); [|exact Hs|eauto].
  intros k s0 Hk Hat. destruct (Hbody k s0 Hk Hat) as (s' & Hb & Hat').
  exists s'. auto.
Qed.

Lemma window_at_lookup (source : list Z) (source_stride y x : Z)
    (W : list rgb_color) :
  window_at source source_stride y x = Some W ->
  length W = 64%nat /\
  forall k, 0 <= k < 64 ->
    exists c, W !! Z.to_nat k = Some c /\
      get_rgb source ((WINDOW_H * y + k `quot` WINDOW_W) * source_stride
                      + 3 * (WINDOW_W * x + k `rem` WINDOW_W)) = Some c.
Proof.
  unfold window_at. intros H. split.
  - apply length_mapM in H. rewrite <- H, length_seqZ. reflexivity.
  - intros k Hk. apply mapM_Some_1 in H.
    destruct (Forall2_lookup_l _ _ _ (Z.to_nat k) k H) as (c & Hc & Hpix).
    { rewrite lookup_seqZ_lt by (unfold WINDOW_SZ, WINDOW_W, WINDOW_H; lia).
      f_equal. lia. }
    exists c. split; [exact Hc | exact Hpix].
Qed.

Lemma fetch_rows_at (source_stride y x t i : Z) :
  0 <= i < 8 ->
  fetch (rows_at source_stride y x t) i
  = Some ((WINDOW_H * y + i) * source_stride + 3 * (WINDOW_W * x)
          + 3 * Z.max 0 (Z.min WINDOW_W (t - WINDOW_W * i))).
Proof.
  intros Hi. unfold fetch, rows_at.
  rewrite (proj2 (Z.ltb_ge _ _)) by lia.
  rewrite list_lookup_fmap, lookup_seqZ_lt by (unfold WINDOW_H; lia).
  simpl. replace (0 + Z.of_nat (Z.to_nat i)) with i by lia. reflexivity.
Qed.

Lemma store_rows_at (source_stride y x t i : Z) :
  0 <= i < 8 -> 8 * i <= t < 8 * i + 8 ->
  store (rows_at source_stride y x t) i
        (Some ((WINDOW_H * y + i) * source_stride + 3 * (WINDOW_W * x)
               + 3 * Z.max 0 (Z.min WINDOW_W (t - WINDOW_W * i)) + 3))
  = Some (rows_at source_stride y x (t + 1)).
Proof.
  intros Hi Ht. rewrite store_is_Some
    by (unfold rows_at; rewrite length_fmap, length_seqZ; unfold WINDOW_H; lia).
  f_equal. apply list_eq. intros k. unfold rows_at.
  destruct (decide (k = Z.to_nat i)) as [->|Hk].
  - rewrite list_lookup_insert_eq
      by (rewrite length_fmap, length_seqZ; unfold WINDOW_H; lia).
    rewrite list_lookup_fmap, lookup_seqZ_lt by (unfold WINDOW_H; lia).
    simpl. replace (0 + Z.of_nat (Z.to_nat i)) with i by lia.
    do 2 f_equal. unfold WINDOW_W, WINDOW_H. lia.
  - rewrite list_lookup_insert_ne by congruence.
    rewrite !list_lookup_fmap.
    destruct (decide (k < 8)%nat) as [Hk8|Hk8].
    + rewrite lookup_seqZ_lt by (unfold WINDOW_H; lia). simpl.
      do 2 f_equal. unfold WINDOW_W, WINDOW_H. lia.
    + rewrite lookup_seqZ_ge by (unfold WINDOW_H; lia). reflexivity.
Qed.

Lemma store_win_at (W : list rgb_color) (win0 : list (option rgb_color))
    (t : Z) (c : rgb_color) :
  length W = 64%nat -> length win0 = 64%nat -> 0 <= t < 64 ->
  W !! Z.to_nat t = Some c ->
  store (win_at W win0 t) t (Some c) = Some (win_at W win0 (t + 1)).
Proof.
  intros HW Hwin0 Ht Hc. unfold win_at.
  assert (length (Some <$> take (Z.to_nat t) W) = Z.to_nat t) as Hlen
    by (rewrite length_fmap, length_take; lia).
  rewrite store_is_Some
    by (rewrite length_app, Hlen, length_drop; lia).
  f_equal.
  replace (Z.to_nat (t + 1)) with (S (Z.to_nat t)) by lia.
  rewrite (take_S_r _ _ _ Hc), fmap_app, <- app_assoc. simpl.
  rewrite insert_app_r_alt by lia. rewrite Hlen, Nat.sub_diag.
  f_equal.
  destruct (lookup_lt_is_Some_2 win0 (Z.to_nat t)) as [o Ho]; [lia|].
  rewrite (drop_S _ _ _ Ho). reflexivity.
Qed.

Lemma fill_pixel_spec (source : list Z) (source_stride y x i j : Z)
    (W : list rgb_color) (win0 : list (option rgb_color)) :
  window_at source source_stride y x = Some W -> length win0 = 64%nat ->
  0 <= i < 8 -> 8 * i <= j < 8 * i + 8 ->
  fill_pixel source i (rows_at source_stride y x j, win_at W win0 j) j
  = Some (rows_at source_stride y x (j + 1), win_at W win0 (j + 1)).
Proof.
  intros HW Hwin0 Hi Hj. unfold fill_pixel.
  destruct (window_at_lookup _ _ _ _ _ HW) as [HlenW Hpix].
  destruct (Hpix j ltac:(lia)) as (c & Hc & Hget).
  rewrite fetch_rows_at by exact Hi. simpl.
  assert (j `quot` WINDOW_W = i) as Hq
    by (unfold WINDOW_W, WINDOW_H; Z.to_euclidean_division_equations; lia).
  assert (j `rem` WINDOW_W = j - 8 * i) as Hr
    by (unfold WINDOW_W, WINDOW_H; Z.to_euclidean_division_equations; lia).
  rewrite Hq, Hr in Hget.
  replace ((WINDOW_H * y + i) * source_stride + 3 * (WINDOW_W * x)
           + 3 * Z.max 0 (Z.min WINDOW_W (j - WINDOW_W * i)))
    with ((WINDOW_H * y + i) * source_stride
          + 3 * (WINDOW_W * x + (j - 8 * i)))
    by (unfold WINDOW_W, WINDOW_H; lia).
  rewrite Hget. simpl.
  rewrite (store_win_at W win0 j c HlenW Hwin0 ltac:(lia) Hc). simpl.
  replace ((WINDOW_H * y + i) * source_stride
           + 3 * (WINDOW_W * x + (j - 8 * i)) + 3)
    with ((WINDOW_H * y + i) * source_stride + 3 * (WINDOW_W * x)
          + 3 * Z.max 0 (Z.min WINDOW_W (j - WINDOW_W * i)) + 3)
    by (unfold WINDOW_W, WINDOW_H; lia).
  rewrite store_rows_at by assumption. reflexivity.
Qed.

Lemma fill_row_spec (source : list Z) (source_stride y x i : Z)
    (W : list rgb_color) (win0 : list (option rgb_color)) :
  window_at source source_stride y x = Some W -> length win0 = 64%nat ->
  0 <= i < 8 ->
  fill_row source
    (8 * i, rows_at source_stride y x (8 * i), win_at W win0 (8 * i)) i
  = Some (8 * (i + 1), rows_at source_stride y x (8 * (i + 1)),
          win_at W win0 (8 * (i + 1))).
Proof.
  intros HW Hwin0 Hi. unfold fill_row. rewrite c_range_seqZ.
  replace (WINDOW_W * (i + 1) - 8 * i) with (Z.of_nat 8)
    by (unfold WINDOW_W, WINDOW_H; lia).
  destruct (loop_invariant (fill_pixel source i)
    (fun j st => st = (rows_at source_stride y x j, win_at W win0 j))
    (8 * i) 8) with (s := (rows_at source_stride y x (8 * i),
                           win_at W win0 (8 * i)))
    as (st & -> & ->); [|reflexivity|].
  - intros j st Hj ->. eexists. split; [|reflexivity].
    apply fill_pixel_spec; trivial; lia.
  - simpl. replace (8 * i + Z.of_nat 8) with (8 * (i + 1)) by lia.
    reflexivity.
Qed.

Lemma fill_window_spec (source : list Z) (source_stride y x : Z)
    (W : list rgb_color) (win0 : list (option rgb_color)) :
  window_at source source_stride y x = Some W -> length win0 = 64%nat ->
  foldlM (fill_row source) (0, rows_at source_stride y x 0, win0)
         (c_range 0 WINDOW_H 1)
  = Some (64, rows_at source_stride y x 64, Some <$> W).
Proof.
  intros HW Hwin0. rewrite c_range_seqZ.
  change (WINDOW_H - 0) with (Z.of_nat 8).
  destruct (window_at_lookup _ _ _ _ _ HW) as [HlenW _].
  destruct (loop_invariant (fill_row source)
    (fun i st => st = (8 * i, rows_at source_stride y x (8 * i),
                       win_at W win0 (8 * i)))
    0 8) with (s := (0, rows_at source_stride y x 0, win0))
    as (st & -> & ->); [|reflexivity|].
  - intros i st Hi ->. eexists. split; [|reflexivity].
    apply fill_row_spec; trivial; lia.
  - do 2 f_equal. unfold win_at. simpl Z.to_nat.
    rewrite take_ge, drop_ge by lia. apply app_nil_r.
Qed.

Lemma mean_color_wf (l : list rgb_color) :
  Forall wf_color l -> wf_color (mean_color l).
Proof.
  intros Hl. channel_bounds l Hl.
  unfold wf_color, mean_color, is_u8. simpl. lia.
Qed.

(** The result of the search does not depend on what the output colours
    held on entry. *)
Lemma guess_best_entry_independent (win : list rgb_color)
    (best_fg0 best_bg0 : option rgb_color) :
  wf_window win ->
  exists glyph cfg cbg,
    guess_best_block_element win best_fg0 best_bg0
    = Some (glyph, Some cfg, Some cbg) /\
    guess_best_block_element win None None
    = Some (glyph, Some cfg, Some cbg) /\
    wf_color cfg /\ wf_color cbg.
Proof.
  intros Hwin.
  destruct (guess_best_first_min win best_fg0 best_bg0 Hwin)
    as (e & be & cfg & cbg & Hg & He & Hbe & Hfit & Hmin & Hfirst).
  destruct (guess_best_first_min win None None Hwin)
    as (e' & be' & cfg' & cbg' & Hg' & He' & Hbe' & Hfit' & Hmin' & Hfirst').
  assert (e' = e) as ->.
  { destruct (Z.lt_trichotomy e e') as [Hlt | [Heq | Hgt]]; [|auto|].
    - specialize (Hfirst' e ltac:(lia)). specialize (Hmin e' He'). lia.
    - specialize (Hfirst e' ltac:(lia)). specialize (Hmin' e He). lia. }
  rewrite Hfit in Hfit'. injection Hfit' as <- <-.
  rewrite Hbe in Hbe'. injection Hbe' as <-.
  exists (utf8 be), cfg, cbg. split; [exact Hg|]. split; [exact Hg'|].
  destruct (best_fg_bg_catalog e win He Hwin) as (be2 & _ & Hfit2).
  rewrite Hfit in Hfit2. injection Hfit2 as -> -> _.
  destruct Hwin as [_ Hwf].
  split; apply mean_color_wf, pick_wf, Hwf.
Qed.

Lemma window_at_wf (source : list Z) (source_stride rows cols y x : Z) :
  frame_readable source source_stride (WINDOW_H * rows) (WINDOW_W * cols) ->
  0 <= y < rows -> 0 <= x < cols ->
  exists W, window_at source source_stride y x = Some W /\ wf_window W.
Proof.
  intros Hframe Hy Hx. unfold window_at.
  set (f := fun k => pixel_at source source_stride
                       (WINDOW_H * y + k `quot` WINDOW_W)
                       (WINDOW_W * x + k `rem` WINDOW_W)).
  assert (forall k, 0 <= k < WINDOW_SZ ->
            exists c, f k = Some c /\ wf_color c) as Hf.
  { intros k Hk. apply Hframe;
      unfold WINDOW_SZ, WINDOW_W, WINDOW_H in *;
      Z.to_euclidean_division_equations; lia. }
  destruct (mapM_is_Some_2 f (seqZ 0 WINDOW_SZ)) as [W HW].
  { apply Forall_seqZ. intros k Hk. destruct (Hf k ltac:(lia)) as (c & Hc & _).
    simpl. rewrite Hc. eauto. }
  exists W. split; [exact HW|]. split.
  - apply length_mapM in HW. rewrite <- HW, length_seqZ. reflexivity.
  - apply mapM_Some_1 in HW. apply Forall_forall. intros c Hc.
    apply list_elem_of_lookup in Hc as [n Hn].
    destruct (Forall2_lookup_r _ _ _ _ _ HW Hn) as (k & Hk & Hfk).
    apply lookup_seqZ in Hk as [-> Hk].
    destruct (Hf (0 + Z.of_nat n) ltac:(lia)) as (c' & Hc' & Hwf).
    congruence.
Qed.

Lemma all_blocks_cell_total (source : list Z) (source_stride rows cols : Z)
    (term256 : bool) (lut : list lut_item) (y x : Z) :
  lut_ok lut ->
  frame_readable source source_stride (WINDOW_H * rows) (WINDOW_W * cols) ->
  0 <= y < rows -> 0 <= x < cols ->
  is_Some (all_blocks_cell source source_stride term256 lut y x).
Proof.
  intros Hlut Hframe Hy Hx. unfold all_blocks_cell.
  destruct (window_at_wf _ _ _ _ _ _ Hframe Hy Hx) as (W & -> & HW). simpl.
  destruct (guess_best_entry_independent W None None HW)
    as (glyph & cfg & cbg & -> & _ & Hcfg & Hcbg).
  simpl.
  destruct (print_color_total term256 lut ESC_COLOR256_BG ESC_COLOR_BG cbg
              Hlut Hcbg) as [s1 ->].
  destruct (print_color_total term256 lut ESC_COLOR256_FG ESC_COLOR_FG cfg
              Hlut Hcfg) as [s2 ->].
  simpl. eauto.
Qed.

Lemma write_all_blocks_cell_spec (source : list Z) (source_stride : Z)
    (term256 : bool) (lut : list lut_item) (y x : Z) (bs : blocks_state)
    (W : list rgb_color) (s : string) :
  window_at source source_stride y x = Some W -> wf_window W ->
  all_blocks_cell source source_stride term256 lut y x = Some s ->
  length (win_pixels bs) = 64%nat ->
  exists bs',
    write_all_blocks_cell source term256 lut
      (rows_at source_stride y x 0, bs) x
    = Some (rows_at source_stride y x 64, bs') /\
    length (win_pixels bs') = 64%nat /\ out bs' = out bs +:+ s.
Proof.
  intros HW Hwf Hcell Hlen. unfold write_all_blocks_cell.
  rewrite (fill_window_spec source source_stride y x W (win_pixels bs) HW Hlen).
  simpl. rewrite mapM_fmap_Some by reflexivity. simpl.
  unfold all_blocks_cell in Hcell. rewrite HW in Hcell. simpl in Hcell.
  destruct (guess_best_entry_independent W (fg bs) (bg bs) Hwf)
    as (glyph & cfg & cbg & -> & Hg & _). rewrite Hg in Hcell.
  simpl in Hcell |- *.
  destruct (print_color term256 lut _ _ (r cbg) (g cbg) (b cbg)) as [s1|];
    [|discriminate].
  simpl in Hcell |- *.
  destruct (print_color term256 lut _ _ (r cfg) (g cfg) (b cfg)) as [s2|];
    [|discriminate].
  injection Hcell as <-. simpl.
  eexists. split; [reflexivity|]. simpl. split.
  - rewrite length_fmap. apply Hwf.
  - rewrite !append_assoc. reflexivity.
Qed.

Lemma rows_at_next (source_stride y x : Z) :
  rows_at source_stride y x 64 = rows_at source_stride y (x + 1) 0.
Proof.
  unfold rows_at. apply list_fmap_ext. intros n i Hi.
  apply lookup_seqZ in Hi as [-> Hi].
  unfold WINDOW_W, WINDOW_H in *. f_equal. lia.
Qed.

Lemma rows_init_spec (source_stride y : Z) :
  foldlM (fun rows i =>
            store rows i (Some ((WINDOW_H * y + i) * source_stride)))
         (replicate (Z.to_nat WINDOW_H) None) (c_range 0 WINDOW_H 1)
  = Some (rows_at source_stride y 0 0).
Proof.
  destruct (foldlM_store_entries
              (fun i => Some (Some ((WINDOW_H * y + i) * source_stride)))
              (c_range 0 WINDOW_H 1) (replicate (Z.to_nat WINDOW_H) None))
    as (rows & Hfold & Hlen & Hget).
  { intros i Hi. rewrite c_range_seqZ in Hi. apply elem_of_seqZ in Hi.
    rewrite length_replicate. split; [lia | eauto]. }
  simpl in Hfold. simpl. rewrite Hfold. f_equal.
  rewrite length_replicate in Hlen. apply list_eq. intros k.
  unfold rows_at. rewrite list_lookup_fmap.
  destruct (decide (k < 8)%nat) as [Hk|Hk].
  - specialize (Hget (Z.of_nat k) ltac:(lia)). rewrite Nat2Z.id in Hget.
    rewrite Hget, decide_True
      by (rewrite c_range_seqZ; apply elem_of_seqZ; unfold WINDOW_H; lia).
    rewrite lookup_seqZ_lt by (unfold WINDOW_H; lia). simpl.
    do 2 f_equal. unfold WINDOW_W, WINDOW_H. lia.
  - rewrite lookup_ge_None_2 by (rewrite Hlen; unfold WINDOW_H; lia).
    rewrite lookup_seqZ_ge by (unfold WINDOW_H; lia). reflexivity.
Qed.

Lemma write_all_blocks_layout (dwidth dheight swidth sheight : Z)
    (source : list Z) (source_stride : Z) (term256 : bool)
    (lut : list lut_item) :
  lut_ok lut ->
  frame_readable source source_stride (WINDOW_H * sheight)
                 (WINDOW_W * swidth) ->
  write_all_blocks dwidth dheight swidth sheight source source_stride
                   term256 lut
  = Some (frame_layout ((dheight - sheight) `quot` 2)
            ((dwidth - swidth) `quot` 2) sheight swidth
            (fun y x => default ""
               (all_blocks_cell source source_stride term256 lut y x))).
Proof.
  intros Hlut Hframe. unfold write_all_blocks, frame_layout. cbv zeta.
  set (tx := (dwidth - swidth) `quot` 2). set (ty := (dheight - sheight) `quot` 2).
  set (cell := fun y x => default "" (all_blocks_cell source source_stride term256 lut y x)).
  destruct (c_step_loop_appends_cells
    (fun bs y =>
       rows ← foldlM (fun rows i =>
                        store rows i (Some ((y + i) * source_stride)))
                     (replicate (Z.to_nat WINDOW_H) None)
                     (c_range 0 WINDOW_H 1);
       '(_, bs) ← foldlM (write_all_blocks_cell source term256 lut)
                    (rows,
                     {| win_pixels := win_pixels bs; fg := fg bs; bg := bg bs;
                        out := out bs
                               +:+ printf_ESC_GOTOXY (ty + y `quot` WINDOW_H) tx |})
                    (c_range 0 swidth 1);
       Some {| win_pixels := win_pixels bs; fg := fg bs; bg := bg bs;
               out := out bs +:+ ESC_CLEAR_COLORS |})
    (fun _ bs => length (win_pixels bs) = 64%nat) out
    (fun y => printf_ESC_GOTOXY (ty + y) tx
              +:+ concat_str (cell y <$> seqZ 0 swidth)
              +:+ ESC_CLEAR_COLORS)
    sheight WINDOW_H)
    with (s := {| win_pixels := replicate (Z.to_nat WINDOW_SZ) None;
                  fg := None; bg := None; out := "" |})
    as (bs & Hfold & _ & Hout); [reflexivity | | reflexivity |].
  - intros y bs Hy Hlen.
    replace ((WINDOW_H * y) `quot` WINDOW_H) with y
      by (rewrite Z.mul_comm, Z.quot_mul; [reflexivity | discriminate]).
    rewrite rows_init_spec. cbn [mbind option_bind].
    destruct (c_loop_appends_cells (write_all_blocks_cell source term256 lut)
      (fun x st => st.1 = rows_at source_stride y x 0 /\
                   length (win_pixels st.2) = 64%nat)
      (fun st => out st.2) (cell y) swidth)
      with (s := (rows_at source_stride y 0 0,
                  {| win_pixels := win_pixels bs; fg := fg bs; bg := bg bs;
                     out := out bs +:+ printf_ESC_GOTOXY (ty + y) tx |}))
      as ([rows bs'] & Hfold & [_ Hlen'] & Hout'); [|split; [reflexivity | exact Hlen]|].
    + intros x [rows0 bs0] Hx [Hrows Hlen0]. simpl in Hrows, Hlen0.
      subst rows0.
      destruct (window_at_wf _ _ _ _ _ _ Hframe Hy Hx) as (W & HW & Hwf).
      pose proof (all_blocks_cell_total source source_stride sheight swidth
                    term256 lut y x Hlut Hframe Hy Hx) as Hsome.
      apply (default_is_Some "") in Hsome. fold (cell y x) in Hsome.
      destruct (write_all_blocks_cell_spec source source_stride term256 lut
                  y x bs0 W (cell y x) HW Hwf Hsome Hlen0)
        as (bs1 & Hcell & Hlen1 & Hout1).
      exists (rows_at source_stride y x 64, bs1).
      split; [exact Hcell|]. simpl.
      split; [split; [apply rows_at_next | exact Hlen1] | exact Hout1].
    + rewrite Hfold. simpl in Hout', Hlen'. simpl.
      eexists. split; [reflexivity|]. simpl. split; [exact Hlen'|].
      rewrite Hout', !append_assoc. reflexivity.
  - rewrite Hfold. simpl. simpl in Hout. rewrite Hout. reflexivity.
Qed.

(** *** All strategies *)

(** C1, as the spec states it, fails.  On a frame of one row that fits
    the terminal the writers emit the layout of the spec with rows and
    columns counted as offsets (first conjunct), not with 1 added to
    them (second conjunct); on a frame of two rows they differ from it,
    the newline being emitted once after the last row and not after
    each row (third conjunct); and on a frame wider than the terminal
    they differ from it, the offsets being truncated toward zero and not
    floored (fourth conjunct). *)
Lemma spec_frame_layout_not_emitted :
  write_plain 80 25 1 1 sample_frame 3 false sample_lut
  = Some (spec_frame_layout 0 80 25 1 1
            (fun y x => default "" (plain_cell sample_frame 3 false
                                               sample_lut y x))) /\
  write_plain 80 25 1 1 sample_frame 3 false sample_lut
  <> Some (spec_frame_layout 1 80 25 1 1
             (fun y x => default "" (plain_cell sample_frame 3 false
                                                sample_lut y x))) /\
  write_plain 80 25 1 2 sample_frame 3 false sample_lut
  <> Some (spec_frame_layout 0 80 25 2 1
             (fun y x => default "" (plain_cell sample_frame 3 false
                                                sample_lut y x))) /\
  write_plain 0 25 1 1 sample_frame 3 false sample_lut
  <> Some (spec_frame_layout 0 0 25 1 1
             (fun y x => default "" (plain_cell sample_frame 3 false
                                                sample_lut y x))).
Proof.
  split; [vm_compute; reflexivity|].
  repeat split; vm_compute; intros H; discriminate H.
Qed.

(** C1 (amended): for every strategy, the bytes written for a frame are,
    for each output row [y] counted from 0, one cursor-positioning
    sequence with row argument [ty + y] and column argument [tx], then
    per cell the colour sequence(s) followed by the glyph, then one
    colour reset; one newline follows the reset of the last row.  The
    offsets [tx] and [ty] are (terminal size - content size) / 2 by C
    division, which is floor division when the content is not larger
    than the terminal. *)
Theorem flip_page_layout (algo dwidth dheight swidth sheight : Z)
    (source : list Z) (source_stride : Z) (term256 : bool)
    (lut : list lut_item) :
  lut_ok lut ->
  frame_readable source source_stride
    ((reconfig_mul algo).2 * sheight) ((reconfig_mul algo).1 * swidth) ->
  let tx := (dwidth - swidth) `quot` 2 in
  let ty := (dheight - sheight) `quot` 2 in
  flip_page algo dwidth dheight swidth sheight source source_stride
            term256 lut
  = Some (frame_layout ty tx sheight swidth
            (fun y x => default ""
               (frame_cell algo source source_stride term256 lut y x))) /\
  (forall y x, 0 <= y < sheight -> 0 <= x < swidth ->
     is_Some (frame_cell algo source source_stride term256 lut y x)) /\
  (swidth <= dwidth -> tx = (dwidth - swidth) / 2) /\
  (sheight <= dheight -> ty = (dheight - sheight) / 2).
Proof.
  intros Hlut Hframe tx ty.
  assert ((swidth <= dwidth -> tx = (dwidth - swidth) / 2) /\
          (sheight <= dheight -> ty = (dheight - sheight) / 2)) as Hoff.
  { subst tx ty. split; intros H; apply Z.quot_div_nonneg; lia. }
  unfold flip_page, frame_cell, reconfig_mul in *.
  destruct (algo =? ALGO_PLAIN); [|destruct (algo =? ALGO_ALL_BLOCKS)];
    simpl in Hframe.
  - replace (1 * sheight) with sheight in Hframe by lia.
    replace (1 * swidth) with swidth in Hframe by lia.
    split; [apply write_plain_layout; assumption|].
    split; [|exact Hoff]. intros y x. apply plain_cell_total; assumption.
  - split; [apply write_all_blocks_layout; assumption|].
    split; [|exact Hoff]. intros y x. apply all_blocks_cell_total; assumption.
  - replace (1 * swidth) with swidth in Hframe by lia.
    split; [apply write_half_blocks_layout; assumption|].
    split; [|exact Hoff]. intros y x. apply half_blocks_cell_total; assumption.
Qed.

Lemma sample_frame_readable : frame_readable sample_frame 3 2 1.
Proof.
  intros y x Hy Hx. assert (x = 0) as -> by lia.
  assert (y = 0 \/ y = 1) as [-> | ->] by lia;
    (eexists; split; [reflexivity|]);
    unfold wf_color, is_u8; simpl; lia.
Qed.

Lemma flip_page_layout_witness :
  flip_page ALGO_HALF_BLOCKS 80 25 1 1 sample_frame 3 false sample_lut
  = Some (frame_layout 12 39 1 1
            (fun y x => default ""
               (frame_cell ALGO_HALF_BLOCKS sample_frame 3 false sample_lut
                           y x))).
Proof.
  apply (flip_page_layout ALGO_HALF_BLOCKS 80 25 1 1 sample_frame 3 false
           sample_lut).
  - exact sample_lut_ok.
  - exact sample_frame_readable.
Defined.

(** *** The writers on small frames *)

Example write_plain_two_rows :
  write_plain 80 25 1 2 sample_frame 3 false sample_lut
  = Some (printf_ESC_GOTOXY 11 39 +:+ ESC +:+ "[48;2;3;2;1m " +:+ ESC +:+ "[0m"
          +:+ printf_ESC_GOTOXY 12 39 +:+ ESC +:+ "[48;2;6;5;4m " +:+ ESC +:+ "[0m"
          +:+ NL).
Proof. vm_compute. reflexivity. Qed.

Example write_half_blocks_256 :
  write_half_blocks 80 25 1 1 sample_frame 3 true sample_lut
  = Some (printf_ESC_GOTOXY 12 39 +:+ ESC +:+ "[48;5;16m" +:+ ESC +:+ "[38;5;232m"
          +:+ xe2_x96 "132" +:+ ESC +:+ "[0m" +:+ NL).
Proof. vm_compute. reflexivity. Qed.

Example write_all_blocks_edge :
  write_all_blocks 80 25 1 1 sample_edge_frame 24 false sample_lut
  = Some (printf_ESC_GOTOXY 12 39 +:+ ESC +:+ "[48;2;9;8;7m"
          +:+ ESC +:+ "[38;2;3;2;1m" +:+ xe2_x96 "140" +:+ ESC +:+ "[0m" +:+ NL).
Proof. vm_compute. reflexivity. Qed.

(** ** Further properties of the colour quantiser *)

Lemma forallb_seqZ (f : Z -> bool) (m n i : Z) :
  forallb f (seqZ m n) = true -> m <= i < m + n -> f i = true.
Proof.
  intros H Hi. rewrite forallb_forall in H. apply H.
  apply list_elem_of_In, elem_of_seqZ. exact Hi.
Qed.

Lemma v2ci_nearest_all (v : Z) : is_u8 v -> v2ci_nearest_b v = true.
Proof.
  intros Hv. apply (forallb_seqZ v2ci_nearest_b 0 256); [|unfold is_u8 in Hv; lia].
  vm_compute. reflexivity.
Qed.

Lemma gray_nearest_all (s : Z) : 0 <= s <= 765 -> gray_nearest_b s = true.
Proof.
  intros Hs. apply (forallb_seqZ gray_nearest_b 0 766); [|lia].
  vm_compute. reflexivity.
Qed.

(** X1: the cube coordinate of a channel value selects a nearest of the
    six cube levels, at most 47 away; when the value is the exact middle
    of two levels the higher level is selected. *)
Theorem v2ci_nearest_level (v : Z) :
  is_u8 v ->
  exists c, i2cv !! Z.to_nat (v2ci v) = Some c /\
    Z.abs (c - v) <= 47 /\
    forall (j : nat) (cj : Z), i2cv !! j = Some cj ->
      Z.abs (c - v) <= Z.abs (cj - v) /\
      (Z.abs (c - v) = Z.abs (cj - v) -> cj <= c).
Proof.
  intros Hv. pose proof (v2ci_nearest_all v Hv) as H.
  unfold v2ci_nearest_b in H.
  destruct (i2cv !! Z.to_nat (v2ci v)) as [c|]; [|discriminate].
  apply andb_prop in H as [Hbound Hall].
  exists c. split; [reflexivity|]. split; [lia|].
  intros j cj Hj. rewrite forallb_forall in Hall.
  specialize (Hall cj (proj1 (list_elem_of_In _ _) (list_elem_of_lookup_2 _ _ _ Hj))).
  apply orb_prop in Hall as [Hlt | Heq]; [lia|].
  apply andb_prop in Heq as [Heq Hle]. lia.
Qed.

Lemma v2ci_nearest_level_witness :
  exists c, i2cv !! Z.to_nat (v2ci 115) = Some c /\ Z.abs (c - 115) <= 47.
Proof.
  destruct (v2ci_nearest_level 115) as (c & Hc & Hb & _);
    [unfold is_u8; lia|].
  exists c. split; assumption.
Defined.

(** X2: the quantiser levels are monotone: a larger channel value never
    gets a smaller cube coordinate, and a larger channel sum never gets a
    smaller gray index. *)
Theorem quantiser_levels_monotone (r g b r' g' b' : Z) :
  r <= r' -> g <= g' -> b <= b' ->
  v2ci r <= v2ci r' /\ v2ci g <= v2ci g' /\ v2ci b <= v2ci b' /\
  gray_index_of r g b <= gray_index_of r' g' b'.
Proof.
  intros Hr Hg Hb.
  assert (forall v v', v <= v' -> v2ci v <= v2ci v') as Hmono.
  { intros v v' Hv. unfold v2ci.
    destruct (v <? 48) eqn:E1, (v' <? 48) eqn:E1';
      destruct (v <? 115) eqn:E2, (v' <? 115) eqn:E2';
      try lia; Z.to_euclidean_division_equations; lia. }
  repeat (split; [apply Hmono; assumption|]).
  unfold gray_index_of.
  destruct (238 <? (r + g + b) `quot` 3) eqn:E,
           (238 <? (r' + g' + b') `quot` 3) eqn:E';
    Z.to_euclidean_division_equations; lia.
Qed.

Lemma quantiser_levels_monotone_witness :
  v2ci 100 <= v2ci 200 /\ v2ci 0 <= v2ci 0 /\ v2ci 50 <= v2ci 60 /\
  gray_index_of 100 0 50 <= gray_index_of 200 0 60.
Proof.
  apply (quantiser_levels_monotone 100 0 50 200 0 60); lia.
Defined.

Lemma gray_index_of_sum (r g b : Z) :
  gray_index_of r g b = gray_index_of (r + g + b) 0 0.
Proof. unfold gray_index_of. rewrite !Z.add_0_r. reflexivity. Qed.

Lemma gray_dist_difference (gv gk r g b : Z) :
  dist_square gv gv gv r g b - dist_square gk gk gk r g b
  = (gv - gk) * (3 * (gv + gk) - 2 * (r + g + b)).
Proof. unfold dist_square. ring. Qed.

(** The gray candidate is a nearest gray of the ramp. *)
Lemma gray_candidate_nearest (r g b k : Z) :
  is_u8 r -> is_u8 g -> is_u8 b -> 0 <= k <= 23 ->
  let gv := 8 + 10 * gray_index_of r g b in
  let gk := 8 + 10 * k in
  dist_square gv gv gv r g b <= dist_square gk gk gk r g b /\
  (dist_square gv gv gv r g b = dist_square gk gk gk r g b -> gk <= gv).
Proof.
  intros Hr Hg Hb Hk gv gk. unfold is_u8 in Hr, Hg, Hb.
  pose proof (gray_nearest_all (r + g + b) ltac:(lia)) as H.
  unfold gray_nearest_b in H. cbv zeta in H.
  rewrite <- gray_index_of_sum in H. fold gv in H.
  apply andb_prop in H as [_ Hall].
  pose proof (forallb_seqZ _ 0 24 k Hall ltac:(lia)) as Hk'. cbv beta in Hk'.
  fold gk in Hk'.
  pose proof (gray_dist_difference gv gk r g b) as Hd.
  apply orb_prop in Hk' as [Hlt | Heq]; [lia|].
  apply andb_prop in Heq as [Heq Hle]. lia.
Qed.

(** X3: the gray index selects a nearest of the 24 grays of the ramp to
    the input colour, in squared distance, and the higher gray on a
    tie. *)
Theorem gray_index_nearest (r g b k : Z) :
  is_u8 r -> is_u8 g -> is_u8 b -> 0 <= k <= 23 ->
  0 <= gray_index_of r g b <= 23 /\
  dist_square (8 + 10 * gray_index_of r g b) (8 + 10 * gray_index_of r g b)
              (8 + 10 * gray_index_of r g b) r g b
  <= dist_square (8 + 10 * k) (8 + 10 * k) (8 + 10 * k) r g b /\
  (dist_square (8 + 10 * gray_index_of r g b) (8 + 10 * gray_index_of r g b)
               (8 + 10 * gray_index_of r g b) r g b
   = dist_square (8 + 10 * k) (8 + 10 * k) (8 + 10 * k) r g b ->
   k <= gray_index_of r g b).
Proof.
  intros Hr Hg Hb Hk. split; [apply gray_index_range; assumption|].
  destruct (gray_candidate_nearest r g b k Hr Hg Hb Hk) as [Hle Heq].
  split; [exact Hle|]. intros H. specialize (Heq H). lia.
Qed.

Lemma gray_index_nearest_witness :
  0 <= gray_index_of 13 13 13 <= 23 /\
  dist_square (8 + 10 * gray_index_of 13 13 13) (8 + 10 * gray_index_of 13 13 13)
              (8 + 10 * gray_index_of 13 13 13) 13 13 13
  <= dist_square (8 + 10 * 0) (8 + 10 * 0) (8 + 10 * 0) 13 13 13.
Proof.
  assert (is_u8 13) as H13 by (unfold is_u8; lia).
  destruct (gray_index_nearest 13 13 13 0 H13 H13 H13 ltac:(lia))
    as (H1 & H2 & _).
  split; assumption.
Defined.

Lemma x256_color_cube (a b c : nat) (ca cb cc : Z) :
  i2cv !! a = Some ca -> i2cv !! b = Some cb -> i2cv !! c = Some cc ->
  x256_color (16 + (36 * Z.of_nat a + 6 * Z.of_nat b + Z.of_nat c))
  = Some (ca, cb, cc).
Proof.
  intros Ha Hb Hc.
  pose proof (lookup_lt_Some _ _ _ Ha) as La.
  pose proof (lookup_lt_Some _ _ _ Hb) as Lb.
  pose proof (lookup_lt_Some _ _ _ Hc) as Lc.
  change (length i2cv) with 6%nat in La, Lb, Lc.
  unfold x256_color.
  set (q := 36 * Z.of_nat a + 6 * Z.of_nat b + Z.of_nat c).
  rewrite (proj2 (Z.leb_le 16 _)), (proj2 (Z.ltb_lt _ 232)) by lia.
  replace (16 + q - 16) with q by lia. cbn [andb].
  replace (Z.to_nat (q / 36)) with a
    by (subst q; Z.to_euclidean_division_equations; lia).
  replace (Z.to_nat (q / 6 mod 6)) with b
    by (subst q; Z.to_euclidean_division_equations; lia).
  replace (Z.to_nat (q mod 6)) with c
    by (subst q; Z.to_euclidean_division_equations; lia).
  rewrite Ha, Hb, Hc. reflexivity.
Qed.

Lemma x256_color_gray (k : Z) :
  0 <= k <= 23 ->
  x256_color (232 + k) = Some (8 + 10 * k, 8 + 10 * k, 8 + 10 * k).
Proof.
  intros Hk. unfold x256_color.
  rewrite (proj2 (Z.ltb_ge _ 232)) by lia. rewrite andb_false_r.
  rewrite (proj2 (Z.leb_le 232 _)), (proj2 (Z.ltb_lt _ 256)) by lia.
  cbn [andb]. cbv zeta. replace (232 + k - 232) with k by lia. reflexivity.
Qed.

Lemma abs_le_square (x y : Z) : Z.abs x <= Z.abs y -> x * x <= y * y.
Proof. intros H. nia. Qed.

Lemma v2ci_square_nearest (v : Z) (j : nat) (cj : Z) :
  is_u8 v -> i2cv !! j = Some cj ->
  exists c, i2cv !! Z.to_nat (v2ci v) = Some c /\
            (c - v) * (c - v) <= (cj - v) * (cj - v).
Proof.
  intros Hv Hj. pose proof (v2ci_nearest_all v Hv) as H.
  unfold v2ci_nearest_b in H.
  destruct (i2cv !! Z.to_nat (v2ci v)) as [c|]; [|discriminate].
  apply andb_prop in H as [_ Hall].
  exists c. split; [reflexivity|]. apply abs_le_square.
  rewrite forallb_forall in Hall.
  specialize (Hall cj (proj1 (list_elem_of_In _ _) (list_elem_of_lookup_2 _ _ _ Hj))).
  apply orb_prop in Hall as [Hlt | Heq]; [lia|].
  apply andb_prop in Heq as [Heq Hle]. lia.
Qed.

(** The two candidates of [rgb_to_x256], their colours and the result,
    which is the candidate of least distance. *)
Lemma rgb_to_x256_candidates (r g b : Z) :
  is_u8 r -> is_u8 g -> is_u8 b ->
  exists cr cg cb color_err gray_err n cn,
    i2cv !! Z.to_nat (v2ci r) = Some cr /\
    i2cv !! Z.to_nat (v2ci g) = Some cg /\
    i2cv !! Z.to_nat (v2ci b) = Some cb /\
    color_err = dist_square cr cg cb r g b /\
    gray_err = dist_square (8 + 10 * gray_index_of r g b)
                 (8 + 10 * gray_index_of r g b)
                 (8 + 10 * gray_index_of r g b) r g b /\
    rgb_to_x256 r g b = Some n /\ x256_color n = Some cn /\
    color_dist cn r g b = Z.min color_err gray_err.
Proof.
  intros Hr Hg Hb.
  destruct (i2cv_lookup _ (v2ci_range r Hr)) as (cr & Hcr & _).
  destruct (i2cv_lookup _ (v2ci_range g Hg)) as (cg & Hcg & _).
  destruct (i2cv_lookup _ (v2ci_range b Hb)) as (cb & Hcb & _).
  pose proof (v2ci_range r Hr) as Ir. pose proof (v2ci_range g Hg) as Ig.
  pose proof (v2ci_range b Hb) as Ib.
  pose proof (gray_index_range r g b Hr Hg Hb) as Igray.
  set (ce := dist_square cr cg cb r g b).
  set (gv := 8 + 10 * gray_index_of r g b).
  set (ge := dist_square gv gv gv r g b).
  assert (rgb_to_x256 r g b
          = Some (if ce <=? ge
                  then 16 + (36 * v2ci r + 6 * v2ci g + v2ci b)
                  else 232 + gray_index_of r g b)) as Hres.
  { rewrite rgb_to_x256_choice. unfold x256_errors.
    rewrite Hcr, Hcg, Hcb. reflexivity. }
  exists cr, cg, cb, ce, ge.
  destruct (ce <=? ge) eqn:E.
  - apply Z.leb_le in E.
    exists (16 + (36 * v2ci r + 6 * v2ci g + v2ci b)), (cr, cg, cb).
    repeat (split; [first [assumption | reflexivity]|]).
    pose proof (x256_color_cube (Z.to_nat (v2ci r)) (Z.to_nat (v2ci g))
                  (Z.to_nat (v2ci b)) cr cg cb Hcr Hcg Hcb) as Hc.
    rewrite !Z2Nat.id in Hc by lia.
    split; [exact Hc|]. unfold color_dist. cbn [fst snd]. fold ce. lia.
  - apply Z.leb_gt in E.
    exists (232 + gray_index_of r g b), (gv, gv, gv).
    repeat (split; [first [assumption | reflexivity]|]).
    split; [apply x256_color_gray; exact Igray|].
    unfold color_dist. cbn [fst snd]. fold ge. lia.
Qed.

(** X4: [rgb_to_x256] returns the index of a colour of the palette
    entries 16..255 that is nearest to the input in squared distance: no
    entry of the colour cube or of the gray ramp is nearer. *)
Theorem rgb_to_x256_nearest (r g b p : Z) :
  is_u8 r -> is_u8 g -> is_u8 b -> 16 <= p <= 255 ->
  exists n cn cp,
    rgb_to_x256 r g b = Some n /\
    x256_color n = Some cn /\ x256_color p = Some cp /\
    color_dist cn r g b <= color_dist cp r g b.
Proof.
  intros Hr Hg Hb Hp.
  destruct (rgb_to_x256_candidates r g b Hr Hg Hb)
    as (cr & cg & cb & ce & ge & n & cn & Hcr & Hcg & Hcb & Hce & Hge
        & Hn & Hcn & Hmin).
  exists n, cn. destruct (Z_lt_ge_dec p 232) as [Hcube | Hgray].
  - set (q := p - 16).
    assert (0 <= q / 36 < 6 /\ 0 <= q / 6 mod 6 < 6 /\ 0 <= q mod 6 < 6
            /\ q = 36 * (q / 36) + 6 * (q / 6 mod 6) + q mod 6) as (Ha & Hb' & Hc & Hq)
      by (subst q; Z.to_euclidean_division_equations; lia).
    destruct (i2cv_lookup (q / 36) ltac:(lia)) as (ca & Hca & _).
    destruct (i2cv_lookup (q / 6 mod 6) ltac:(lia)) as (cb' & Hcb' & _).
    destruct (i2cv_lookup (q mod 6) ltac:(lia)) as (cc & Hcc & _).
    pose proof (x256_color_cube _ _ _ _ _ _ Hca Hcb' Hcc) as Hcp.
    rewrite !Z2Nat.id, <- Hq in Hcp by lia.
    replace (16 + q) with p in Hcp by (subst q; lia).
    exists (ca, cb', cc). repeat (split; [assumption|]).
    destruct (v2ci_square_nearest r _ _ Hr Hca) as (cr1 & Hcr1 & Lr).
    destruct (v2ci_square_nearest g _ _ Hg Hcb') as (cg1 & Hcg1 & Lg).
    destruct (v2ci_square_nearest b _ _ Hb Hcc) as (cb1 & Hcb1 & Lb).
    assert (cr1 = cr) as -> by congruence.
    assert (cg1 = cg) as -> by congruence.
    assert (cb1 = cb) as -> by congruence.
    rewrite Hmin. unfold color_dist. simpl. subst ce. unfold dist_square in *.
    lia.
  - pose proof (x256_color_gray (p - 232) ltac:(lia)) as Hcp.
    replace (232 + (p - 232)) with p in Hcp by lia.
    eexists. repeat (split; [eassumption|]).
    destruct (gray_candidate_nearest r g b (p - 232) Hr Hg Hb ltac:(lia))
      as [Hle _].
    rewrite Hmin. unfold color_dist. simpl. subst ge. lia.
Qed.

Lemma rgb_to_x256_nearest_witness :
  exists n cn cp,
    rgb_to_x256 118 118 118 = Some n /\
    x256_color n = Some cn /\ x256_color 102 = Some cp /\
    color_dist cn 118 118 118 <= color_dist cp 118 118 118.
Proof.
  apply (rgb_to_x256_nearest 118 118 118 102); unfold is_u8; lia.
Defined.

Lemma x256_round_trip_all (p : Z) :
  16 <= p <= 255 -> x256_round_trip_b p = true.
Proof.
  intros Hp. apply (forallb_seqZ x256_round_trip_b 16 240); [|lia].
  vm_compute. reflexivity.
Qed.

(** X5: the palette round trip: every palette index from 16 to 255
    stands for a colour of byte channels that [rgb_to_x256] maps back to
    that index; so the 240 colours are pairwise different and each one is
    quantised exactly. *)
Theorem x256_color_round_trip (p : Z) :
  16 <= p <= 255 ->
  exists r g b, x256_color p = Some (r, g, b) /\
    is_u8 r /\ is_u8 g /\ is_u8 b /\
    rgb_to_x256 r g b = Some p.
Proof.
  intros Hp. pose proof (x256_round_trip_all p Hp) as H.
  unfold x256_round_trip_b in H.
  destruct (x256_color p) as [[[cr cg] cb]|] eqn:Hc; [|discriminate].
  apply andb_prop in H as [Hbytes H].
  destruct (rgb_to_x256 cr cg cb) as [n|] eqn:Hn; [|discriminate].
  apply Z.eqb_eq in H. subst n.
  cbn [forallb] in Hbytes.
  exists cr, cg, cb. unfold is_u8. repeat split; try reflexivity; try lia.
  exact Hn.
Qed.

Lemma x256_color_round_trip_witness :
  exists r g b, x256_color 243 = Some (r, g, b) /\
    rgb_to_x256 r g b = Some 243.
Proof.
  destruct (x256_color_round_trip 243 ltac:(lia))
    as (r & g & b & Hc & _ & _ & _ & Hq).
  exists r, g, b. split; assumption.
Defined.

(** ** Further properties of the glyph fitter *)

(** *** Optimality and exactness of the fit *)

(** X6: the search returns a catalog entry of least loss, and the first
    such entry: no entry has a smaller loss than the one returned, and
    every entry before it has a larger loss. *)
Theorem guess_best_least_loss (win : list rgb_color)
    (best_fg0 best_bg0 : option rgb_color) :
  wf_window win ->
  exists e be fg bg loss,
    guess_best_block_element win best_fg0 best_bg0
    = Some (utf8 be, Some fg, Some bg) /\
    0 <= e < NUM_ELEMENTS /\
    block_elements !! Z.to_nat e = Some be /\
    best_fg_bg e win = Some (fg, bg, loss) /\
    forall e', 0 <= e' < NUM_ELEMENTS ->
      exists fg' bg' loss',
        best_fg_bg e' win = Some (fg', bg', loss') /\
        loss <= loss' /\ (e' < e -> loss < loss').
Proof.
  intros Hwin.
  destruct (guess_best_first_min win best_fg0 best_bg0 Hwin)
    as (e & be & fg & bg & Hg & He & Hbe & Hfit & Hmin & Hfirst).
  exists e, be, fg, bg, (elem_loss e win).
  repeat (split; [assumption|]).
  intros e' He'.
  destruct (best_fg_bg_loss e' win He' Hwin) as (fg' & bg' & Hfit' & _).
  exists fg', bg', (elem_loss e' win).
  split; [exact Hfit'|]. split; [apply Hmin; exact He'|].
  intros Hlt. apply Hfirst. lia.
Qed.

Lemma guess_best_least_loss_witness :
  exists e be fg bg loss,
    guess_best_block_element sample_window None None
    = Some (utf8 be, Some fg, Some bg) /\
    0 <= e < NUM_ELEMENTS /\
    block_elements !! Z.to_nat e = Some be /\
    best_fg_bg e sample_window = Some (fg, bg, loss) /\
    forall e', 0 <= e' < NUM_ELEMENTS ->
      exists fg' bg' loss',
        best_fg_bg e' sample_window = Some (fg', bg', loss') /\
        loss <= loss' /\ (e' < e -> loss < loss').
Proof.
  apply (guess_best_least_loss sample_window None None).
  exact sample_window_wf.
Defined.

Section Deviation.

Variable ch : rgb_color -> Z.

Lemma chan_dev_cons (m : Z) (p : rgb_color) (l : list rgb_color) :
  chan_dev ch m (p :: l) = (ch p - m) * (ch p - m) + chan_dev ch m l.
Proof. reflexivity. Qed.

Lemma chan_dev_nonneg (m : Z) (l : list rgb_color) : 0 <= chan_dev ch m l.
Proof.
  induction l as [|p l IH]; [simpl; lia|]. rewrite chan_dev_cons.
  pose proof (Z.square_nonneg (ch p - m)). lia.
Qed.

(** The sum of the squared deviations from [m], expanded. *)
Lemma chan_dev_expand (m : Z) (l : list rgb_color) :
  chan_dev ch m l
  = chan_sum2 ch l - 2 * m * chan_sum ch l + Z.of_nat (length l) * (m * m).
Proof.
  induction l as [|p l IH];
    [unfold chan_dev, chan_sum2, chan_sum; simpl; ring|].
  rewrite chan_dev_cons, chan_sum_cons, chan_sum2_cons, length_cons,
    Nat2Z.inj_succ, IH. ring.
Qed.

Lemma chan_dev_zero (m : Z) (l : list rgb_color) :
  chan_dev ch m l = 0 -> forall p, p ∈ l -> ch p = m.
Proof.
  induction l as [|q l IH]; intros H p Hp; [inversion Hp|].
  rewrite chan_dev_cons in H. pose proof (chan_dev_nonneg m l).
  pose proof (Z.square_nonneg (ch q - m)).
  apply elem_of_cons in Hp as [->|Hp]; [nia|].
  apply IH; [lia | exact Hp].
Qed.

(** The loss contribution of a channel is the sum of the squared
    deviations from the truncated mean plus what the truncation adds. *)
Lemma chan_loss_deviation (l : list rgb_color) :
  chan_loss ch l
  = chan_dev ch (chan_mean ch l) l + truncation_excess ch l.
Proof.
  unfold chan_loss, truncation_excess. rewrite chan_dev_expand.
  unfold chan_mean.
  set (n := Z.of_nat (length l)). set (s := chan_sum ch l).
  destruct (Z.eq_dec n 0) as [Hn|Hn].
  - rewrite Hn, Z.div_0_r, Z.mod_0_r. ring.
  - pose proof (Z.div_mod s n Hn). nia.
Qed.

Lemma truncation_excess_nonneg (l : list rgb_color) :
  Forall (fun p => is_u8 (ch p)) l -> 0 <= truncation_excess ch l.
Proof.
  intros Hl. unfold truncation_excess.
  pose proof (chan_mean_bounds ch l Hl).
  destruct l as [|p l']; [simpl; rewrite Z.mod_0_r; lia|].
  pose proof (Z.mod_pos_bound (chan_sum ch (p :: l'))
                (Z.of_nat (length (p :: l'))) ltac:(rewrite length_cons; lia)).
  nia.
Qed.

Lemma chan_loss_zero (l : list rgb_color) :
  Forall (fun p => is_u8 (ch p)) l -> chan_loss ch l = 0 ->
  forall p, p ∈ l -> ch p = chan_mean ch l.
Proof.
  intros Hl H. rewrite chan_loss_deviation in H.
  pose proof (truncation_excess_nonneg l Hl).
  pose proof (chan_dev_nonneg (chan_mean ch l) l).
  apply chan_dev_zero. lia.
Qed.

End Deviation.

Lemma side_error_channels (c : rgb_color) (l : list rgb_color) :
  side_error c l = chan_dev r (r c) l + chan_dev g (g c) l + chan_dev b (b c) l.
Proof.
  induction l as [|p l IH]; [reflexivity|].
  rewrite !chan_dev_cons, <- Z.add_assoc.
  change (side_error c (p :: l))
    with (dist_square (r c) (g c) (b c) (r p) (g p) (b p) + side_error c l).
  rewrite IH. unfold dist_square. ring.
Qed.

(** X8: the loss [best_fg_bg] returns is the squared error of showing the
    foreground pixels in the mean foreground colour and the background
    pixels in the mean background colour, plus what the truncation of the
    six means adds, which is not negative: the loss is never below that
    squared error. *)
Theorem best_fg_bg_loss_is_squared_error (elem : Z) (win : list rgb_color) :
  0 <= elem < NUM_ELEMENTS -> wf_window win ->
  exists be fg bg loss,
    block_elements !! Z.to_nat elem = Some be /\
    best_fg_bg elem win = Some (fg, bg, loss) /\
    let F := pick true (bitmap be) 0 win in
    let B := pick false (bitmap be) 0 win in
    let excess := truncation_excess r F + truncation_excess g F
                  + truncation_excess b F + truncation_excess r B
                  + truncation_excess g B + truncation_excess b B in
    loss = side_error fg F + side_error bg B + excess /\
    0 <= excess /\
    side_error fg F + side_error bg B <= loss.
Proof.
  intros He Hwin.
  destruct (best_fg_bg_catalog elem win He Hwin) as (be & Hbe & Hfit).
  exists be. do 3 eexists. split; [exact Hbe|]. split; [exact Hfit|].
  intros F B excess. destruct Hwin as [_ Hwf].
  destruct (wf_channels F (pick_wf true (bitmap be) _ 0 Hwf)) as (HFr & HFg & HFb).
  destruct (wf_channels B (pick_wf false (bitmap be) _ 0 Hwf)) as (HBr & HBg & HBb).
  pose proof (truncation_excess_nonneg r F HFr).
  pose proof (truncation_excess_nonneg g F HFg).
  pose proof (truncation_excess_nonneg b F HFb).
  pose proof (truncation_excess_nonneg r B HBr).
  pose proof (truncation_excess_nonneg g B HBg).
  pose proof (truncation_excess_nonneg b B HBb).
  assert (mask_loss (bitmap be) win
          = side_error (mean_color F) F + side_error (mean_color B) B + excess)
    as Hloss.
  { unfold mask_loss. fold F B. rewrite !chan_loss_deviation.
    rewrite !side_error_channels. unfold mean_color. cbn [r g b].
    subst excess. ring. }
  split; [exact Hloss|]. split; [subst excess; lia|].
  rewrite Hloss. subst excess. fold F B. lia.
Qed.

Lemma best_fg_bg_loss_is_squared_error_witness :
  exists be fg bg loss,
    block_elements !! Z.to_nat LEFT_HALF = Some be /\
    best_fg_bg LEFT_HALF sample_window = Some (fg, bg, loss) /\
    side_error fg (pick true (bitmap be) 0 sample_window)
    + side_error bg (pick false (bitmap be) 0 sample_window) <= loss.
Proof.
  destruct (best_fg_bg_loss_is_squared_error LEFT_HALF sample_window)
    as (be & fg & bg & loss & Hbe & Hfit & _ & _ & Hle);
    [unfold LEFT_HALF, NUM_ELEMENTS; lia | exact sample_window_wf |].
  exists be, fg, bg, loss. repeat split; assumption.
Defined.

Lemma all_equal_replicate (c : rgb_color) (l : list rgb_color) :
  (forall p, p ∈ l -> p = c) -> l = replicate (length l) c.
Proof.
  induction l as [|q l IH]; intros H; [reflexivity|]. simpl. f_equal.
  - apply H. left.
  - apply IH. intros p Hp. apply H. right. exact Hp.
Qed.

(** X7: a catalog glyph fits a window with loss zero exactly when the
    window has one colour on the foreground of the glyph and one colour
    on its background; the two colours are then the means returned. *)
Theorem best_fg_bg_zero_loss_iff (elem : Z) (win : list rgb_color)
    (A B : rgb_color) :
  0 <= elem < NUM_ELEMENTS -> wf_window win ->
  exists be, block_elements !! Z.to_nat elem = Some be /\
    (best_fg_bg elem win = Some (A, B, 0) <->
     (forall p, p ∈ pick true (bitmap be) 0 win -> p = A) /\
     (forall p, p ∈ pick false (bitmap be) 0 win -> p = B)).
Proof.
  intros He Hwin.
  destruct (catalog_proper elem He) as (be & Hbe & Hp).
  destruct (proper_mask_sides be win Hp (proj1 Hwin)) as [HF HB].
  exists be. split; [exact Hbe|].
  rewrite (best_fg_bg_exact elem be win Hbe Hwin HF HB).
  set (F := pick true (bitmap be) 0 win) in *.
  set (K := pick false (bitmap be) 0 win) in *.
  destruct Hwin as [_ Hwf].
  pose proof (pick_wf true (bitmap be) win 0 Hwf) as HwfF.
  pose proof (pick_wf false (bitmap be) win 0 Hwf) as HwfK.
  fold F in HwfF. fold K in HwfK.
  split.
  - intros H. injection H as HA HB' Hloss. unfold mask_loss in Hloss.
    fold F K in Hloss.
    destruct (wf_channels F HwfF) as (HFr & HFg & HFb).
    destruct (wf_channels K HwfK) as (HKr & HKg & HKb).
    pose proof (chan_loss_bounds r F HFr). pose proof (chan_loss_bounds g F HFg).
    pose proof (chan_loss_bounds b F HFb). pose proof (chan_loss_bounds r K HKr).
    pose proof (chan_loss_bounds g K HKg). pose proof (chan_loss_bounds b K HKb).
    split; intros p Hp'.
    + rewrite <- HA. destruct p as [pr pg pb]. unfold mean_color. f_equal.
      * apply (chan_loss_zero r F HFr ltac:(lia) _ Hp').
      * apply (chan_loss_zero g F HFg ltac:(lia) _ Hp').
      * apply (chan_loss_zero b F HFb ltac:(lia) _ Hp').
    + rewrite <- HB'. destruct p as [pr pg pb]. unfold mean_color. f_equal.
      * apply (chan_loss_zero r K HKr ltac:(lia) _ Hp').
      * apply (chan_loss_zero g K HKg ltac:(lia) _ Hp').
      * apply (chan_loss_zero b K HKb ltac:(lia) _ Hp').
  - intros [HFA HKB].
    apply all_equal_replicate in HFA. apply all_equal_replicate in HKB.
    assert (0 < length F)%nat by (destruct F; [congruence | simpl; lia]).
    assert (0 < length K)%nat by (destruct K; [congruence | simpl; lia]).
    unfold mask_loss. fold F K. rewrite HFA, HKB.
    rewrite !mean_color_replicate, !chan_loss_replicate by assumption.
    reflexivity.
Qed.

Lemma best_fg_bg_zero_loss_iff_witness :
  exists be, block_elements !! Z.to_nat LOWER_HALF = Some be /\
    (best_fg_bg LOWER_HALF sample_window
     = Some ({| r := 1; g := 2; b := 3 |}, {| r := 4; g := 5; b := 6 |}, 0) <->
     (forall p, p ∈ pick true (bitmap be) 0 sample_window
                -> p = {| r := 1; g := 2; b := 3 |}) /\
     (forall p, p ∈ pick false (bitmap be) 0 sample_window
                -> p = {| r := 4; g := 5; b := 6 |})).
Proof.
  apply (best_fg_bg_zero_loss_iff LOWER_HALF sample_window).
  - unfold LOWER_HALF, NUM_ELEMENTS; lia.
  - exact sample_window_wf.
Defined.

Lemma pick_elem_of (side : bool) (bits : Z) (win : list rgb_color) :
  forall i p, p ∈ pick side bits i win -> p ∈ win.
Proof.
  induction win as [|q w IH]; intros i p Hp; simpl in Hp; [inversion Hp|].
  destruct (Bool.eqb _ side).
  - apply elem_of_cons in Hp as [->|Hp]; [left | right; eapply IH, Hp].
  - right. eapply IH, Hp.
Qed.

Lemma chan_sum_range (ch : rgb_color -> Z) (lo hi : Z) (l : list rgb_color) :
  (forall p, p ∈ l -> lo <= ch p <= hi) ->
  Z.of_nat (length l) * lo <= chan_sum ch l <= Z.of_nat (length l) * hi.
Proof.
  induction l as [|q l IH]; intros H; [simpl; lia|].
  rewrite chan_sum_cons, length_cons, Nat2Z.inj_succ.
  pose proof (H q ltac:(left)).
  specialize (IH ltac:(intros p Hp; apply H; right; exact Hp)). lia.
Qed.

(** The truncated mean of a channel lies between any two bounds of the
    values of the channel. *)
Lemma chan_mean_range (ch : rgb_color -> Z) (lo hi : Z) (l : list rgb_color) :
  l <> [] -> (forall p, p ∈ l -> lo <= ch p <= hi) ->
  lo <= chan_mean ch l <= hi.
Proof.
  intros Hne H. pose proof (chan_sum_range ch lo hi l H) as Hs.
  unfold chan_mean.
  assert (0 < Z.of_nat (length l)) as Hn
    by (destruct l; [congruence | rewrite length_cons; lia]).
  split.
  - apply Z.div_le_lower_bound; lia.
  - apply Z.div_le_upper_bound; lia.
Qed.

(** X9: the two colours the search returns stay within the window: if
    the values of a channel lie between [lo] and [hi] for every pixel of
    the window, so do the values of that channel in the foreground and in
    the background colour returned. *)
Theorem guess_best_colors_within_window (win : list rgb_color)
    (best_fg0 best_bg0 : option rgb_color) (ch : rgb_color -> Z) (lo hi : Z) :
  wf_window win -> ch ∈ [r; g; b] ->
  (forall p, p ∈ win -> lo <= ch p <= hi) ->
  exists glyph fg bg,
    guess_best_block_element win best_fg0 best_bg0
    = Some (glyph, Some fg, Some bg) /\
    lo <= ch fg <= hi /\ lo <= ch bg <= hi.
Proof.
  intros Hwin Hch Hrange.
  destruct (guess_best_first_min win best_fg0 best_bg0 Hwin)
    as (e & be & fg & bg & Hg & He & Hbe & Hfit & _).
  exists (utf8 be), fg, bg. split; [exact Hg|].
  destruct (catalog_proper e He) as (be' & Hbe' & Hp).
  assert (be' = be) as -> by congruence.
  destruct (proper_mask_sides be win Hp (proj1 Hwin)) as [HF HB].
  rewrite (best_fg_bg_exact e be win Hbe Hwin HF HB) in Hfit.
  injection Hfit as <- <- _.
  assert (forall l, ch (mean_color l) = chan_mean ch l) as Hmean.
  { intros l. apply elem_of_cons in Hch as [->|Hch]; [reflexivity|].
    apply elem_of_cons in Hch as [->|Hch]; [reflexivity|].
    apply elem_of_cons in Hch as [->|Hch]; [reflexivity | inversion Hch]. }
  rewrite !Hmean. split; apply chan_mean_range; try assumption;
    intros p Hp'; apply Hrange; eapply pick_elem_of, Hp'.
Qed.

Lemma guess_best_colors_within_window_witness :
  exists glyph fg bg,
    guess_best_block_element sample_window None None
    = Some (glyph, Some fg, Some bg) /\
    0 <= r fg <= 63 /\ 0 <= r bg <= 63.
Proof.
  apply (guess_best_colors_within_window sample_window None None r 0 63).
  - exact sample_window_wf.
  - left.
  - intros p Hp. unfold sample_window in Hp.
    apply list_elem_of_fmap in Hp as (i & -> & Hi%elem_of_seqZ). simpl. lia.
Defined.

(** ** Further properties of the frame writers *)

(** *** The writers as functions of the cells *)

Section CellLoopsOpt.

Context {St : Type}.
Variable body : St -> Z -> option St.
Variable at_pos : Z -> St -> Prop.
Variable output : St -> string.
Variable cell : Z -> option string.

(** A loop over [lo .. lo + n - 1] whose iteration [k], on a state at
    position [k], fails when [cell k] is undefined and otherwise appends
    it and moves to position [k + 1]. *)
Lemma loop_cells_opt (n : nat) :
  forall lo,
  (forall k s, lo <= k < lo + Z.of_nat n -> at_pos k s ->
     match cell k with
     | Some c => exists s', body s k = Some s' /\ at_pos (k + 1) s' /\
                            output s' = output s +:+ c
     | None => body s k = None
     end) ->
  forall s, at_pos lo s ->
  match mapM cell (seqZ lo (Z.of_nat n)) with
  | Some cs => exists s', foldlM body s (seqZ lo (Z.of_nat n)) = Some s' /\
                          at_pos (lo + Z.of_nat n) s' /\
                          output s' = output s +:+ concat_str cs
  | None => foldlM body s (seqZ lo (Z.of_nat n)) = None
  end.
Proof.
  induction n as [|n IH]; intros lo Hbody s Hs.
  - simpl. exists s. split; [reflexivity|]. split.
    + replace (lo + Z.of_nat 0) with lo by lia. exact Hs.
    + symmetry. apply append_nil_r.
  - rewrite seqZ_cons by lia.
    replace (Z.pred (Z.of_nat (S n))) with (Z.of_nat n) by lia.
    cbn [mapM foldlM]. specialize (Hbody lo s ltac:(lia) Hs) as Hstep.
    destruct (cell lo) as [c|].
    + destruct Hstep as (s1 & -> & Hat1 & Hout1). cbn [mbind option_bind].
      specialize (IH (Z.succ lo)
                     ltac:(intros k s0 Hk; apply Hbody; lia) s1 Hat1).
      destruct (mapM cell (seqZ (Z.succ lo) (Z.of_nat n))) as [cs|].
      * destruct IH as (s2 & Hfold & Hat2 & Hout2). exists s2.
        split; [exact Hfold|]. split.
        -- replace (lo + Z.of_nat (S n)) with (Z.succ lo + Z.of_nat n) by lia.
           exact Hat2.
        -- rewrite Hout2, Hout1, append_assoc. reflexivity.
      * exact IH.
    + rewrite Hstep. reflexivity.
Qed.

(** The same for a C loop [for (k = 0; k < n; ++k)]. *)
Lemma c_loop_cells_opt (n : Z) :
  (forall k s, 0 <= k < n -> at_pos k s ->
     match cell k with
     | Some c => exists s', body s k = Some s' /\ at_pos (k + 1) s' /\
                            output s' = output s +:+ c
     | None => body s k = None
     end) ->
  forall s, at_pos 0 s ->
  match mapM cell (seqZ 0 n) with
  | Some cs => exists s', foldlM body s (c_range 0 n 1) = Some s' /\
                          at_pos (Z.max 0 n) s' /\
                          output s' = output s +:+ concat_str cs
  | None => foldlM body s (c_range 0 n 1) = None
  end.
Proof.
  intros Hbody s Hs. rewrite c_range_seqZ, Z.sub_0_r, seqZ_to_nat.
  pose proof (loop_cells_opt (Z.to_nat n) 0
                ltac:(intros k s0 Hk; apply Hbody; lia) s Hs) as H.
  replace (0 + Z.of_nat (Z.to_nat n)) with (Z.max 0 n) in H by lia.
  exact H.
Qed.

End CellLoopsOpt.

(** The same for a C loop [for (k = 0; k < n * step; k += step)], whose
    iteration [j] runs the body on [step * j]. *)
Lemma c_step_loop_cells_opt {St : Type} (body : St -> Z -> option St)
    (at_pos : Z -> St -> Prop) (output : St -> string)
    (cell : Z -> option string) (n step : Z) :
  0 < step ->
  (forall j s, 0 <= j < n -> at_pos j s ->
     match cell j with
     | Some c => exists s', body s (step * j) = Some s' /\ at_pos (j + 1) s' /\
                            output s' = output s +:+ c
     | None => body s (step * j) = None
     end) ->
  forall s, at_pos 0 s ->
  match mapM cell (seqZ 0 n) with
  | Some cs => exists s', foldlM body s (c_range 0 (n * step) step) = Some s' /\
                          at_pos (Z.max 0 n) s' /\
                          output s' = output s +:+ concat_str cs
  | None => foldlM body s (c_range 0 (n * step) step) = None
  end.
Proof.
  intros Hstep Hbody s Hs. rewrite c_range_multiples by exact Hstep.
  rewrite foldlM_fmap, seqZ_to_nat.
  pose proof (loop_cells_opt (fun s j => body s (step * j)) at_pos output cell
                (Z.to_nat n) 0
                ltac:(intros k s0 Hk; apply Hbody; lia) s Hs) as H.
  replace (0 + Z.of_nat (Z.to_nat n)) with (Z.max 0 n) in H by lia.
  exact H.
Qed.

Lemma write_plain_cell_eq (source : list Z) (source_stride : Z)
    (term256 : bool) (lut : list lut_item) (y x : Z) (out : string) :
  write_plain_cell source term256 lut (y * source_stride + 3 * x, out) x
  = (s ← plain_cell source source_stride term256 lut y x;
     Some (y * source_stride + 3 * (x + 1), out +:+ s)).
Proof.
  unfold plain_cell, write_plain_cell, pixel_at, get_rgb.
  destruct (load source (y * source_stride + 3 * x)) as [vb|];
    [|reflexivity]. cbn [mbind option_bind].
  destruct (load source (y * source_stride + 3 * x + 1)) as [vg|];
    [|reflexivity]. cbn [mbind option_bind].
  destruct (load source (y * source_stride + 3 * x + 1 + 1)) as [vr|];
    [|reflexivity]. cbn [mbind option_bind r g b].
  destruct (print_color term256 lut _ _ vr vg vb) as [s|]; [|reflexivity].
  cbn [mbind option_bind]. rewrite append_assoc. do 2 f_equal. lia.
Qed.

(** The step of a cell loop, from the equation of its body. *)
Lemma cell_step {St : Type} (res : option St) (c : option string)
    (next : string -> St) (at_next : St -> Prop) (output : St -> string)
    (out : string) :
  res = (s ← c; Some (next s)) ->
  (forall s, at_next (next s) /\ output (next s) = out +:+ s) ->
  match c with
  | Some s => exists s', res = Some s' /\ at_next s' /\ output s' = out +:+ s
  | None => res = None
  end.
Proof.
  intros -> Hnext. destruct c as [s|]; [|reflexivity].
  exists (next s). split; [reflexivity | apply Hnext].
Qed.

(** Opens the first premise of [H] as a goal and feeds [H] with it. *)
Ltac premise H :=
  match type of H with
  | ?P -> _ =>
      let Hp := fresh "Hp" in
      assert P as Hp; [|specialize (H Hp); clear Hp]
  end.

Lemma write_plain_row_opt (source : list Z) (source_stride : Z)
    (term256 : bool) (lut : list lut_item) (swidth y : Z) (out : string) :
  match mapM (plain_cell source source_stride term256 lut y) (seqZ 0 swidth)
  with
  | Some cs =>
      exists row, foldlM (write_plain_cell source term256 lut)
                         (y * source_stride, out) (c_range 0 swidth 1)
                  = Some (row, out +:+ concat_str cs)
  | None => foldlM (write_plain_cell source term256 lut)
                   (y * source_stride, out) (c_range 0 swidth 1) = None
  end.
Proof.
  pose proof (c_loop_cells_opt (write_plain_cell source term256 lut)
    (fun k st => st.1 = y * source_stride + 3 * k) snd
    (plain_cell source source_stride term256 lut y) swidth) as H.
  premise H.
  { intros x [row0 out0] Hx Hrow. simpl in Hrow. subst row0.
    apply (cell_step _ _ (fun s => (y * source_stride + 3 * (x + 1),
                                    out0 +:+ s)));
      [apply write_plain_cell_eq | intros s; split; reflexivity]. }
  specialize (H (y * source_stride, out) ltac:(simpl; lia)).
  destruct (mapM _ (seqZ 0 swidth)) as [cs|]; [|exact H].
  destruct H as ([row out'] & Hfold & _ & Hout'). exists row.
  simpl in Hout'. rewrite Hfold, Hout'. reflexivity.
Qed.

(** A frame writer whose row loop runs a cell loop between the cursor
    position and the colour reset, on states that keep [inv]. *)
Lemma rows_layout_opt {St : Type} (row_body : St -> Z -> option St)
    (inv : St -> Prop) (output : St -> string)
    (ty tx rows cols : Z) (cell : Z -> Z -> option string) :
  (forall y s, 0 <= y < rows -> inv s ->
     match mapM (cell y) (seqZ 0 cols) with
     | Some cs => exists s', row_body s y = Some s' /\ inv s' /\
                    output s' = output s
                                +:+ (printf_ESC_GOTOXY (ty + y) tx
                                     +:+ concat_str cs +:+ ESC_CLEAR_COLORS)
     | None => row_body s y = None
     end) ->
  forall s, inv s ->
  match mapM (fun y => cs ← mapM (cell y) (seqZ 0 cols);
                       Some (printf_ESC_GOTOXY (ty + y) tx +:+ concat_str cs
                             +:+ ESC_CLEAR_COLORS))
             (seqZ 0 rows) with
  | Some rs => exists s', foldlM row_body s (seqZ 0 rows) = Some s' /\
                          output s' = output s +:+ concat_str rs
  | None => foldlM row_body s (seqZ 0 rows) = None
  end.
Proof.
  intros Hrow s Hs. rewrite (seqZ_to_nat 0 rows).
  pose proof (loop_cells_opt row_body (fun _ => inv) output
    (fun y => cs ← mapM (cell y) (seqZ 0 cols);
              Some (printf_ESC_GOTOXY (ty + y) tx +:+ concat_str cs
                    +:+ ESC_CLEAR_COLORS))
    (Z.to_nat rows) 0) as H.
  premise H.
  { intros y s0 Hy Hs0. specialize (Hrow y s0 ltac:(lia) Hs0).
    destruct (mapM (cell y) (seqZ 0 cols)) as [cs|]; exact Hrow. }
  specialize (H s Hs).
  destruct (mapM _ (seqZ 0 (Z.of_nat (Z.to_nat rows)))) as [rs|]; [|exact H].
  destruct H as (s' & Hfold & _ & Hout). exists s'. auto.
Qed.

Lemma write_plain_refines (dwidth dheight swidth sheight : Z)
    (source : list Z) (source_stride : Z) (term256 : bool)
    (lut : list lut_item) :
  write_plain dwidth dheight swidth sheight source source_stride term256 lut
  = frame_layout_opt ((dheight - sheight) `quot` 2)
      ((dwidth - swidth) `quot` 2) sheight swidth
      (plain_cell source source_stride term256 lut).
Proof.
  unfold write_plain, frame_layout_opt. cbv zeta.
  set (tx := (dwidth - swidth) `quot` 2).
  set (ty := (dheight - sheight) `quot` 2).
  rewrite (c_range_seqZ 0 sheight), (Z.sub_0_r sheight).
  pose proof (rows_layout_opt
    (fun out y =>
       '(_, out) ← foldlM (write_plain_cell source term256 lut)
                          (y * source_stride,
                           out +:+ printf_ESC_GOTOXY (ty + y) tx)
                          (c_range 0 swidth 1);
       Some (out +:+ ESC_CLEAR_COLORS))
    (fun _ => True) id
    ty tx sheight swidth (plain_cell source source_stride term256 lut)) as H.
  premise H.
  { intros y out Hy _.
    pose proof (write_plain_row_opt source source_stride term256 lut swidth y
                  (out +:+ printf_ESC_GOTOXY (ty + y) tx)) as Hc.
    destruct (mapM _ (seqZ 0 swidth)) as [cs|].
    - destruct Hc as [row ->]. eexists. split; [reflexivity|].
      split; [exact I|]. unfold id. rewrite !append_assoc. reflexivity.
    - rewrite Hc. reflexivity. }
  specialize (H ""%string I).
  destruct (mapM _ (seqZ 0 sheight)) as [rs|]; [|rewrite H; reflexivity].
  destruct H as (out & -> & Hout). unfold id in Hout. rewrite Hout.
  reflexivity.
Qed.

Lemma write_half_blocks_cell_eq (source : list Z) (source_stride : Z)
    (term256 : bool) (lut : list lut_item) (y x : Z) (out : string) :
  write_half_blocks_cell source term256 lut
    (2 * y * source_stride + 3 * x, (2 * y + 1) * source_stride + 3 * x, out) x
  = (s ← half_blocks_cell source source_stride term256 lut y x;
     Some (2 * y * source_stride + 3 * (x + 1),
           (2 * y + 1) * source_stride + 3 * (x + 1), out +:+ s)).
Proof.
  unfold half_blocks_cell, write_half_blocks_cell, pixel_at, get_rgb.
  destruct (load source (2 * y * source_stride + 3 * x)) as [vb|];
    [|reflexivity]. cbn [mbind option_bind].
  destruct (load source (2 * y * source_stride + 3 * x + 1)) as [vg|];
    [|reflexivity]. cbn [mbind option_bind].
  destruct (load source (2 * y * source_stride + 3 * x + 1 + 1)) as [vr|];
    [|reflexivity]. cbn [mbind option_bind].
  destruct (load source ((2 * y + 1) * source_stride + 3 * x)) as [wb|];
    [|reflexivity]. cbn [mbind option_bind].
  destruct (load source ((2 * y + 1) * source_stride + 3 * x + 1)) as [wg|];
    [|reflexivity]. cbn [mbind option_bind].
  destruct (load source ((2 * y + 1) * source_stride + 3 * x + 1 + 1)) as [wr|];
    [|reflexivity]. cbn [mbind option_bind r g b].
  destruct (print_color term256 lut _ _ vr vg vb) as [s1|]; [|reflexivity].
  cbn [mbind option_bind].
  destruct (print_color term256 lut _ _ wr wg wb) as [s2|]; [|reflexivity].
  cbn [mbind option_bind]. rewrite !append_assoc. do 2 f_equal.
  f_equal; lia.
Qed.

Lemma write_half_blocks_row_opt (source : list Z) (source_stride : Z)
    (term256 : bool) (lut : list lut_item) (swidth y : Z) (out : string) :
  match mapM (half_blocks_cell source source_stride term256 lut y)
             (seqZ 0 swidth) with
  | Some cs =>
      exists row_up row_down,
        foldlM (write_half_blocks_cell source term256 lut)
               (2 * y * source_stride, (2 * y + 1) * source_stride, out)
               (c_range 0 swidth 1)
        = Some (row_up, row_down, out +:+ concat_str cs)
  | None => foldlM (write_half_blocks_cell source term256 lut)
                   (2 * y * source_stride, (2 * y + 1) * source_stride, out)
                   (c_range 0 swidth 1) = None
  end.
Proof.
  pose proof (c_loop_cells_opt (write_half_blocks_cell source term256 lut)
    (fun k st => st.1.1 = 2 * y * source_stride + 3 * k /\
                 st.1.2 = (2 * y + 1) * source_stride + 3 * k) snd
    (half_blocks_cell source source_stride term256 lut y) swidth) as H.
  premise H.
  { intros x [[up0 down0] out0] Hx [Hup Hdown]. simpl in Hup, Hdown.
    subst up0 down0.
    apply (cell_step _ _ (fun s => (2 * y * source_stride + 3 * (x + 1),
                                    (2 * y + 1) * source_stride + 3 * (x + 1),
                                    out0 +:+ s)));
      [apply write_half_blocks_cell_eq
      |intros s; split; [split|]; reflexivity]. }
  specialize (H (2 * y * source_stride, (2 * y + 1) * source_stride, out)
                ltac:(simpl; lia)).
  destruct (mapM _ (seqZ 0 swidth)) as [cs|]; [|exact H].
  destruct H as ([[up down] out'] & Hfold & _ & Hout'). exists up, down.
  simpl in Hout'. rewrite Hfold, Hout'. reflexivity.
Qed.

Lemma write_half_blocks_refines (dwidth dheight swidth sheight : Z)
    (source : list Z) (source_stride : Z) (term256 : bool)
    (lut : list lut_item) :
  write_half_blocks dwidth dheight swidth sheight source source_stride
                    term256 lut
  = frame_layout_opt ((dheight - sheight) `quot` 2)
      ((dwidth - swidth) `quot` 2) sheight swidth
      (half_blocks_cell source source_stride term256 lut).
Proof.
  unfold write_half_blocks, frame_layout_opt. cbv zeta.
  set (tx := (dwidth - swidth) `quot` 2).
  set (ty := (dheight - sheight) `quot` 2).
  rewrite (c_range_multiples sheight 2) by lia. rewrite foldlM_fmap.
  pose proof (rows_layout_opt
    (fun out j =>
       '(_, _, out) ← foldlM (write_half_blocks_cell source term256 lut)
                          (2 * j * source_stride, (2 * j + 1) * source_stride,
                           out +:+ printf_ESC_GOTOXY (ty + (2 * j) `quot` 2) tx)
                          (c_range 0 swidth 1);
       Some (out +:+ ESC_CLEAR_COLORS))
    (fun _ => True) id
    ty tx sheight swidth (half_blocks_cell source source_stride term256 lut))
    as H.
  premise H.
  { intros y out Hy _.
    replace ((2 * y) `quot` 2) with y by (rewrite Z.mul_comm, Z.quot_mul; lia).
    pose proof (write_half_blocks_row_opt source source_stride term256 lut
                  swidth y (out +:+ printf_ESC_GOTOXY (ty + y) tx)) as Hc.
    destruct (mapM _ (seqZ 0 swidth)) as [cs|].
    - destruct Hc as (up & down & ->). eexists. split; [reflexivity|].
      split; [exact I|]. unfold id. rewrite !append_assoc. reflexivity.
    - rewrite Hc. reflexivity. }
  specialize (H ""%string I).
  destruct (mapM _ (seqZ 0 sheight)) as [rs|]; [|rewrite H; reflexivity].
  destruct H as (out & -> & Hout). unfold id in Hout. rewrite Hout.
  reflexivity.
Qed.

(** *** The all-blocks writer, whatever the buffer holds *)

Lemma guess_step_same (win : list rgb_color) (st1 st2 : guess_state)
    (elem : Z) :
  same_search st1 st2 ->
  match guess_step win st1 elem, guess_step win st2 elem with
  | Some a, Some b => same_search a b
  | None, None => True
  | _, _ => False
  end.
Proof.
  intros (Hl & He & Hc). unfold guess_step.
  destruct (best_fg_bg elem win) as [[[cfg cbg] loss]|]; [|exact I].
  cbn [mbind option_bind]. rewrite <- Hl.
  destruct (loss <? u32 (best_loss st1)).
  - repeat split. right. split; reflexivity.
  - repeat split; assumption.
Qed.

Lemma guess_loop_same (win : list rgb_color) (l : list Z) :
  forall st1 st2, same_search st1 st2 ->
  match foldlM (guess_step win) st1 l, foldlM (guess_step win) st2 l with
  | Some a, Some b => same_search a b
  | None, None => True
  | _, _ => False
  end.
Proof.
  induction l as [|e l IH]; intros st1 st2 H; [exact H|].
  cbn [foldlM]. pose proof (guess_step_same win st1 st2 e H) as Hs.
  destruct (guess_step win st1 e) as [a|], (guess_step win st2 e) as [b|];
    try contradiction; [|exact I].
  cbn [mbind option_bind]. apply IH, Hs.
Qed.

(** Whatever the window, the result of the search does not depend on
    what the output colours held on entry. *)
Lemma guess_best_any_entry (win : list rgb_color)
    (best_fg0 best_bg0 : option rgb_color) :
  guess_best_block_element win best_fg0 best_bg0
  = guess_best_block_element win None None.
Proof.
  unfold guess_best_block_element, guess_search.
  pose proof (guess_loop_same win (c_range 0 NUM_ELEMENTS 1)
    {| best_loss := INT_MAX; best_elem := None;
       best_fg := best_fg0; best_bg := best_bg0 |}
    {| best_loss := INT_MAX; best_elem := None;
       best_fg := None; best_bg := None |}) as H.
  premise H. { repeat split. left. reflexivity. }
  destruct (foldlM _ _ _) as [a|], (foldlM _ _ _) as [b|];
    try contradiction; [|reflexivity].
  destruct H as (_ & He & Hc). cbn [mbind option_bind]. rewrite <- He.
  destruct (best_elem a) as [e|]; [|reflexivity].
  destruct Hc as [Hc | [-> ->]]; [discriminate | reflexivity].
Qed.

Lemma window_at_pixels (source : list Z) (source_stride y x : Z) :
  window_at source source_stride y x
  = mapM (window_pixel source source_stride y x) (seqZ 0 WINDOW_SZ).
Proof. reflexivity. Qed.

(** One pixel of the window fill: the read fails, or the pixel is stored
    and the pointer of its row advances. *)
Lemma fill_pixel_opt (source : list Z) (source_stride y x i j : Z)
    (W : list rgb_color) (win0 : list (option rgb_color)) :
  length W = 64%nat -> length win0 = 64%nat ->
  0 <= i < 8 -> 8 * i <= j < 8 * i + 8 ->
  (forall c, window_pixel source source_stride y x j = Some c ->
             W !! Z.to_nat j = Some c) ->
  fill_pixel source i (rows_at source_stride y x j, win_at W win0 j) j
  = (_ ← window_pixel source source_stride y x j;
     Some (rows_at source_stride y x (j + 1), win_at W win0 (j + 1))).
Proof.
  intros HlenW Hwin0 Hi Hj HW. unfold fill_pixel.
  rewrite fetch_rows_at by exact Hi. cbn [mbind option_bind].
  assert (j `quot` WINDOW_W = i) as Hq
    by (unfold WINDOW_W, WINDOW_H; Z.to_euclidean_division_equations; lia).
  assert (j `rem` WINDOW_W = j - 8 * i) as Hr
    by (unfold WINDOW_W, WINDOW_H; Z.to_euclidean_division_equations; lia).
  unfold window_pixel, pixel_at in *. rewrite Hq, Hr in *.
  replace ((WINDOW_H * y + i) * source_stride + 3 * (WINDOW_W * x)
           + 3 * Z.max 0 (Z.min WINDOW_W (j - WINDOW_W * i)))
    with ((WINDOW_H * y + i) * source_stride
          + 3 * (WINDOW_W * x + (j - 8 * i)))
    by (unfold WINDOW_W, WINDOW_H; lia).
  destruct (get_rgb source _) as [c|]; [|reflexivity].
  cbn [mbind option_bind].
  rewrite (store_win_at W win0 j c HlenW Hwin0 ltac:(lia) (HW c eq_refl)).
  cbn [mbind option_bind].
  replace ((WINDOW_H * y + i) * source_stride
           + 3 * (WINDOW_W * x + (j - 8 * i)) + 3)
    with ((WINDOW_H * y + i) * source_stride + 3 * (WINDOW_W * x)
          + 3 * Z.max 0 (Z.min WINDOW_W (j - WINDOW_W * i)) + 3)
    by (unfold WINDOW_W, WINDOW_H; lia).
  rewrite store_rows_at by assumption. reflexivity.
Qed.

Lemma mapM_marker_is_Some {A : Type} (f : Z -> option A) (l : list Z) :
  is_Some (mapM (fun k => _ ← f k; Some EmptyString) l)
  <-> Forall (fun k => is_Some (f k)) l.
Proof.
  rewrite mapM_is_Some. apply Forall_iff. intros k.
  unfold compose. destruct (f k); simpl; split; intros [? ?];
    solve [eauto | discriminate].
Qed.

(** The window fill of one cell reads the 64 pixels of the window in
    order: it fails when one of them lies outside the buffer, and leaves
    them in [win_pixels] otherwise. *)
Lemma fill_window_opt (source : list Z) (source_stride y x : Z)
    (win0 : list (option rgb_color)) :
  length win0 = 64%nat ->
  foldlM (fill_row source) (0, rows_at source_stride y x 0, win0)
         (c_range 0 WINDOW_H 1)
  = (W ← window_at source source_stride y x;
     Some (64, rows_at source_stride y x 64,
           (Some <$> W : list (option rgb_color)))).
Proof.
  intros Hwin0.
  destruct (window_at source source_stride y x) as [W|] eqn:HW.
  { apply fill_window_spec; assumption. }
  cbn [mbind option_bind].
  set (c0 := {| r := 0; g := 0; b := 0 |}).
  set (W' := (fun k => default c0 (window_pixel source source_stride y x k))
             <$> seqZ 0 64).
  assert (length W' = 64%nat) as HlenW by reflexivity.
  assert (forall j c, 0 <= j < 64 ->
            window_pixel source source_stride y x j = Some c ->
            W' !! Z.to_nat j = Some c) as HW'.
  { intros j c Hj Hc. unfold W'. rewrite list_lookup_fmap.
    rewrite lookup_seqZ_lt by lia. rewrite Z2Nat.id by lia.
    change (0 + j) with j. cbn [fmap option_fmap option_map].
    rewrite Hc. reflexivity. }
  set (cell := fun k => _ ← window_pixel source source_stride y x k;
                        Some EmptyString).
  set (cell_row := fun i => _ ← mapM cell (seqZ (8 * i) 8);
                            Some EmptyString).
  pose proof (c_loop_cells_opt (fill_row source)
    (fun i st => st = (8 * i, rows_at source_stride y x (8 * i),
                       win_at W' win0 (8 * i)))
    (fun _ => EmptyString) cell_row WINDOW_H) as H.
  premise H.
  { intros i st Hi ->. unfold WINDOW_H in Hi. unfold fill_row.
    rewrite c_range_seqZ.
    replace (WINDOW_W * (i + 1) - 8 * i) with (Z.of_nat 8)
      by (unfold WINDOW_W, WINDOW_H; lia).
    pose proof (loop_cells_opt (fill_pixel source i)
      (fun j st => st = (rows_at source_stride y x j, win_at W' win0 j))
      (fun _ => EmptyString) cell 8 (8 * i)) as Hin.
    premise Hin.
    { intros j st Hj ->.
      rewrite (fill_pixel_opt source source_stride y x i j W' win0)
        by (trivial; try lia; intros c; apply HW'; lia).
      unfold cell.
      destruct (window_pixel source source_stride y x j); [|reflexivity].
      eexists. split; [reflexivity|]. split; reflexivity. }
    specialize (Hin _ eq_refl). unfold cell_row.
    change (Z.of_nat 8) with 8 in Hin.
    destruct (mapM cell (seqZ (8 * i) 8)).
    - destruct Hin as (st & Hf & -> & _).
      change (Z.of_nat 8) with 8. rewrite Hf. cbn [mbind option_bind].
      eexists. split; [reflexivity|]. split; [|reflexivity].
      rewrite length_seqZ.
      replace (8 * i + Z.of_nat (Z.to_nat 8)) with (8 * (i + 1)) by lia.
      replace (8 * i + 8) with (8 * (i + 1)) by lia. reflexivity.
    - change (Z.of_nat 8) with 8. rewrite Hin. reflexivity. }
  specialize (H (0, rows_at source_stride y x 0, win0)).
  premise H.
  { unfold win_at. simpl. reflexivity. }
  destruct (mapM cell_row (seqZ 0 WINDOW_H)) eqn:Hrows; [|exact H].
  exfalso. assert (is_Some (window_at source source_stride y x)) as [? Hs];
    [|congruence].
  rewrite window_at_pixels, mapM_is_Some, Forall_seqZ. intros k Hk.
  assert (is_Some (mapM cell_row (seqZ 0 WINDOW_H))) as Hr by eauto.
  unfold cell_row in Hr. rewrite mapM_marker_is_Some, Forall_seqZ in Hr.
  specialize (Hr (k `div` 8)).
  premise Hr.
  { unfold WINDOW_SZ, WINDOW_H, WINDOW_W in *.
    Z.to_euclidean_division_equations. lia. }
  unfold cell in Hr. rewrite mapM_marker_is_Some, Forall_seqZ in Hr.
  apply Hr. unfold WINDOW_SZ, WINDOW_H, WINDOW_W in *.
  Z.to_euclidean_division_equations. lia.
Qed.

Lemma write_all_blocks_cell_opt (source : list Z) (source_stride : Z)
    (term256 : bool) (lut : list lut_item) (y x : Z) (bs : blocks_state) :
  length (win_pixels bs) = 64%nat ->
  match all_blocks_cell source source_stride term256 lut y x with
  | Some s =>
      exists bs',
        write_all_blocks_cell source term256 lut
          (rows_at source_stride y x 0, bs) x
        = Some (rows_at source_stride y x 64, bs') /\
        length (win_pixels bs') = 64%nat /\ out bs' = out bs +:+ s
  | None =>
      write_all_blocks_cell source term256 lut
        (rows_at source_stride y x 0, bs) x = None
  end.
Proof.
  intros Hlen. unfold write_all_blocks_cell, all_blocks_cell.
  rewrite (fill_window_opt source source_stride y x (win_pixels bs) Hlen).
  destruct (window_at source source_stride y x) as [W|] eqn:HW;
    [|reflexivity].
  destruct (window_at_lookup _ _ _ _ _ HW) as [HlenW _].
  cbn [mbind option_bind]. rewrite mapM_fmap_Some by reflexivity.
  cbn [mbind option_bind]. rewrite (guess_best_any_entry W (fg bs) (bg bs)).
  destruct (guess_best_block_element W None None) as [[[glyph cfg] cbg]|];
    [|reflexivity]. cbn [mbind option_bind].
  destruct cbg as [cbg|]; [|reflexivity]. cbn [mbind option_bind].
  destruct cfg as [cfg|]; [|reflexivity]. cbn [mbind option_bind].
  destruct (print_color term256 lut _ _ (r cbg) (g cbg) (b cbg)) as [s1|];
    [|reflexivity]. cbn [mbind option_bind].
  destruct (print_color term256 lut _ _ (r cfg) (g cfg) (b cfg)) as [s2|];
    [|reflexivity]. cbn [mbind option_bind].
  eexists. split; [reflexivity|]. cbn [win_pixels out]. split.
  - rewrite length_fmap. exact HlenW.
  - rewrite !append_assoc. reflexivity.
Qed.

Lemma write_all_blocks_row_opt (source : list Z) (source_stride : Z)
    (term256 : bool) (lut : list lut_item) (swidth y : Z)
    (bs : blocks_state) :
  length (win_pixels bs) = 64%nat ->
  match mapM (all_blocks_cell source source_stride term256 lut y)
             (seqZ 0 swidth) with
  | Some cs =>
      exists rows bs',
        foldlM (write_all_blocks_cell source term256 lut)
               (rows_at source_stride y 0 0, bs) (c_range 0 swidth 1)
        = Some (rows, bs') /\
        length (win_pixels bs') = 64%nat /\
        out bs' = out bs +:+ concat_str cs
  | None => foldlM (write_all_blocks_cell source term256 lut)
                   (rows_at source_stride y 0 0, bs) (c_range 0 swidth 1)
            = None
  end.
Proof.
  intros Hlen.
  pose proof (c_loop_cells_opt (write_all_blocks_cell source term256 lut)
    (fun x st => st.1 = rows_at source_stride y x 0 /\
                 length (win_pixels st.2) = 64%nat)
    (fun st => out st.2)
    (all_blocks_cell source source_stride term256 lut y) swidth) as H.
  premise H.
  { intros x [rows0 bs0] Hx [Hrows Hlen0]. simpl in Hrows, Hlen0.
    subst rows0.
    pose proof (write_all_blocks_cell_opt source source_stride term256 lut
                  y x bs0 Hlen0) as Hc.
    destruct (all_blocks_cell source source_stride term256 lut y x) as [s|];
      [|exact Hc].
    destruct Hc as (bs1 & Hcell & Hlen1 & Hout1).
    exists (rows_at source_stride y x 64, bs1).
    split; [exact Hcell|]. simpl.
    split; [split; [apply rows_at_next | exact Hlen1] | exact Hout1]. }
  specialize (H (rows_at source_stride y 0 0, bs)
                ltac:(split; [reflexivity | exact Hlen])).
  destruct (mapM _ (seqZ 0 swidth)) as [cs|]; [|exact H].
  destruct H as ([rows bs'] & Hfold & [_ Hlen'] & Hout').
  exists rows, bs'. auto.
Qed.

Lemma write_all_blocks_refines (dwidth dheight swidth sheight : Z)
    (source : list Z) (source_stride : Z) (term256 : bool)
    (lut : list lut_item) :
  write_all_blocks dwidth dheight swidth sheight source source_stride
                   term256 lut
  = frame_layout_opt ((dheight - sheight) `quot` 2)
      ((dwidth - swidth) `quot` 2) sheight swidth
      (all_blocks_cell source source_stride term256 lut).
Proof.
  unfold write_all_blocks, frame_layout_opt. cbv zeta.
  set (tx := (dwidth - swidth) `quot` 2).
  set (ty := (dheight - sheight) `quot` 2).
  rewrite (c_range_multiples sheight WINDOW_H) by reflexivity.
  rewrite foldlM_fmap.
  pose proof (rows_layout_opt
    (fun bs j =>
       rows ← foldlM (fun rows i =>
                        store rows i
                          (Some ((WINDOW_H * j + i) * source_stride)))
                     (replicate (Z.to_nat WINDOW_H) None)
                     (c_range 0 WINDOW_H 1);
       '(_, bs) ← foldlM (write_all_blocks_cell source term256 lut)
                    (rows,
                     {| win_pixels := win_pixels bs; fg := fg bs; bg := bg bs;
                        out := out bs
                               +:+ printf_ESC_GOTOXY
                                     (ty + (WINDOW_H * j) `quot` WINDOW_H) tx |})
                    (c_range 0 swidth 1);
       Some {| win_pixels := win_pixels bs; fg := fg bs; bg := bg bs;
               out := out bs +:+ ESC_CLEAR_COLORS |})
    (fun bs => length (win_pixels bs) = 64%nat) out
    ty tx sheight swidth
    (all_blocks_cell source source_stride term256 lut)) as H.
  premise H.
  { intros y bs Hy Hlen.
    replace ((WINDOW_H * y) `quot` WINDOW_H) with y
      by (rewrite Z.mul_comm, Z.quot_mul; [reflexivity | discriminate]).
    rewrite rows_init_spec. cbn [mbind option_bind].
    pose proof (write_all_blocks_row_opt source source_stride term256 lut
      swidth y
      {| win_pixels := win_pixels bs; fg := fg bs; bg := bg bs;
         out := out bs +:+ printf_ESC_GOTOXY (ty + y) tx |} Hlen) as Hc.
    destruct (mapM _ (seqZ 0 swidth)) as [cs|].
    - destruct Hc as (rows & bs' & -> & Hlen' & Hout').
      eexists. split; [reflexivity|]. cbn [win_pixels out].
      split; [exact Hlen'|]. rewrite Hout'. cbn [out].
      rewrite !append_assoc. reflexivity.
    - rewrite Hc. reflexivity. }
  specialize (H {| win_pixels := replicate (Z.to_nat WINDOW_SZ) None;
                   fg := None; bg := None; out := "" |} eq_refl).
  destruct (mapM _ (seqZ 0 sheight)) as [rs|]; [|rewrite H; reflexivity].
  destruct H as (bs & -> & Hout). cbn [mbind option_bind].
  rewrite Hout. reflexivity.
Qed.

(** *** The page, whatever the buffer and the table hold *)

Lemma flip_page_cells (algo dwidth dheight swidth sheight : Z)
    (source : list Z) (source_stride : Z) (term256 : bool)
    (lut : list lut_item) :
  flip_page algo dwidth dheight swidth sheight source source_stride
            term256 lut
  = frame_layout_opt ((dheight - sheight) `quot` 2)
      ((dwidth - swidth) `quot` 2) sheight swidth
      (frame_cell algo source source_stride term256 lut).
Proof.
  unfold flip_page, frame_cell.
  destruct (algo =? ALGO_PLAIN); [|destruct (algo =? ALGO_ALL_BLOCKS)].
  - exact (write_plain_refines _ _ _ _ _ _ _ _).
  - exact (write_all_blocks_refines _ _ _ _ _ _ _ _).
  - exact (write_half_blocks_refines _ _ _ _ _ _ _ _).
Qed.

Lemma mapM_ext_in {A B : Type} (f g : A -> option B) (l : list A) :
  (forall a, a ∈ l -> f a = g a) -> mapM f l = mapM g l.
Proof.
  induction l as [|a l IH]; intros H; [reflexivity|].
  cbn [mapM]. rewrite (H a) by left.
  rewrite IH by (intros a' Ha'; apply H; right; exact Ha'). reflexivity.
Qed.

Lemma mapM_default {A B : Type} (d : B) (f : A -> option B) (l : list A) :
  (forall a, a ∈ l -> is_Some (f a)) ->
  mapM f l = Some ((fun a => default d (f a)) <$> l).
Proof.
  induction l as [|a l IH]; intros H; [reflexivity|].
  cbn [mapM]. destruct (H a ltac:(left)) as [v Hv].
  rewrite IH by (intros a' Ha'; apply H; right; exact Ha').
  cbn [fmap list_fmap]. rewrite Hv. reflexivity.
Qed.

Lemma elem_of_seqZ_0 (n k : Z) : k ∈ seqZ 0 n <-> 0 <= k < n.
Proof. rewrite elem_of_seqZ. lia. Qed.

Lemma frame_layout_opt_ext (ty tx rows cols : Z)
    (cell1 cell2 : Z -> Z -> option string) :
  (forall y x, 0 <= y < rows -> 0 <= x < cols -> cell1 y x = cell2 y x) ->
  frame_layout_opt ty tx rows cols cell1
  = frame_layout_opt ty tx rows cols cell2.
Proof.
  intros H. unfold frame_layout_opt. f_equal. apply mapM_ext_in.
  intros y Hy%elem_of_seqZ_0. f_equal. apply mapM_ext_in.
  intros x Hx%elem_of_seqZ_0. apply H; assumption.
Qed.

Lemma frame_layout_opt_total (ty tx rows cols : Z)
    (cell : Z -> Z -> option string) :
  (forall y x, 0 <= y < rows -> 0 <= x < cols -> is_Some (cell y x)) ->
  frame_layout_opt ty tx rows cols cell
  = Some (frame_layout ty tx rows cols (fun y x => default "" (cell y x))).
Proof.
  intros H. unfold frame_layout_opt, frame_layout.
  rewrite (mapM_ext_in _
    (fun y => Some (printf_ESC_GOTOXY (ty + y) tx
                    +:+ concat_str ((fun x => default "" (cell y x))
                                    <$> seqZ 0 cols)
                    +:+ ESC_CLEAR_COLORS))).
  - rewrite (mapM_default ""%string) by eauto. reflexivity.
  - intros y Hy%elem_of_seqZ_0.
    rewrite (mapM_default ""%string)
      by (intros x Hx%elem_of_seqZ_0; apply H; assumption).
    reflexivity.
Qed.

Lemma frame_layout_opt_cells (ty tx rows cols : Z)
    (cell : Z -> Z -> option string) :
  is_Some (frame_layout_opt ty tx rows cols cell) ->
  forall y x, 0 <= y < rows -> 0 <= x < cols -> is_Some (cell y x).
Proof.
  unfold frame_layout_opt. intros [out Hout] y x Hy Hx.
  destruct (mapM _ (seqZ 0 rows)) as [rs|] eqn:Hrows; [|discriminate].
  assert (is_Some (mapM (fun y =>
            cs ← mapM (cell y) (seqZ 0 cols);
            Some (printf_ESC_GOTOXY (ty + y) tx +:+ concat_str cs
                  +:+ ESC_CLEAR_COLORS)) (seqZ 0 rows))) as Hr by eauto.
  rewrite mapM_is_Some, Forall_seqZ in Hr. specialize (Hr y ltac:(lia)).
  unfold compose in Hr.
  destruct (mapM (cell y) (seqZ 0 cols)) as [cs|] eqn:Hcols;
    [|destruct Hr; discriminate].
  assert (is_Some (mapM (cell y) (seqZ 0 cols))) as Hc by eauto.
  rewrite mapM_is_Some, Forall_seqZ in Hc. apply Hc. lia.
Qed.



Lemma load_is_Some (source : list Z) (off : Z) :
  is_Some (load source off) <-> 0 <= off < Z.of_nat (length source).
Proof.
  unfold load. destruct (off <? 0) eqn:E.
  - apply Z.ltb_lt in E. split; [intros [? ?]; discriminate | lia].
  - apply Z.ltb_ge in E. rewrite lookup_lt_is_Some. lia.
Qed.

Lemma pixel_at_in_buffer (source : list Z) (source_stride y x : Z) :
  is_Some (pixel_at source source_stride y x)
  <-> pixel_in_buffer source source_stride y x.
Proof.
  unfold pixel_at, pixel_in_buffer, get_rgb.
  set (p := y * source_stride + 3 * x).
  transitivity (is_Some (load source p) /\ is_Some (load source (p + 1)) /\
                is_Some (load source (p + 1 + 1))).
  - destruct (load source p), (load source (p + 1)),
             (load source (p + 1 + 1)); cbn [mbind option_bind];
      rewrite !is_Some_alt; tauto.
  - rewrite !load_is_Some. lia.
Qed.

Lemma pixel_at_bytes (source : list Z) (source_stride y x : Z)
    (c : rgb_color) :
  Forall is_u8 source -> pixel_at source source_stride y x = Some c ->
  wf_color c.
Proof.
  intros Hsrc Hc. apply get_rgb_channels in Hc as (Hb & Hg & Hr).
  assert (forall off v, load source off = Some v -> is_u8 v) as Hload.
  { intros off v. unfold load. destruct (off <? 0); [discriminate|].
    intros Hv. exact (Forall_lookup_1 _ _ _ _ Hsrc Hv). }
  repeat split; eapply Hload; eassumption.
Qed.

Lemma frame_readable_in_buffer (source : list Z)
    (source_stride rows cols : Z) :
  Forall is_u8 source ->
  (frame_readable source source_stride rows cols
   <-> forall y x, 0 <= y < rows -> 0 <= x < cols ->
         pixel_in_buffer source source_stride y x).
Proof.
  intros Hsrc. split.
  - intros H y x Hy Hx. apply pixel_at_in_buffer.
    destruct (H y x Hy Hx) as (c & Hc & _). eauto.
  - intros H y x Hy Hx.
    destruct (proj2 (pixel_at_in_buffer source source_stride y x)
                    (H y x Hy Hx)) as [c Hc].
    exists c. split; [exact Hc | exact (pixel_at_bytes _ _ _ _ _ Hsrc Hc)].
Qed.

(** The cells of a strategy read every pixel of the frame: a frame
    whose cells are all defined lies inside the buffer. *)
Lemma frame_cells_read_frame (algo swidth sheight : Z) (source : list Z)
    (source_stride : Z) (term256 : bool) (lut : list lut_item) :
  (forall y x, 0 <= y < sheight -> 0 <= x < swidth ->
     is_Some (frame_cell algo source source_stride term256 lut y x)) ->
  forall y x, 0 <= y < (reconfig_mul algo).2 * sheight ->
              0 <= x < (reconfig_mul algo).1 * swidth ->
              is_Some (pixel_at source source_stride y x).
Proof.
  unfold frame_cell, reconfig_mul. intros H y x.
  destruct (algo =? ALGO_PLAIN); [|destruct (algo =? ALGO_ALL_BLOCKS)];
    cbn [fst snd]; intros Hy Hx.
  - specialize (H y x ltac:(lia) ltac:(lia)). unfold plain_cell in H.
    destruct (pixel_at source source_stride y x); [eauto|].
    destruct H; discriminate.
  - unfold WINDOW_H, WINDOW_W in Hy, Hx.
    specialize (H (y `div` 8) (x `div` 8)
                  ltac:(Z.to_euclidean_division_equations; lia)
                  ltac:(Z.to_euclidean_division_equations; lia)).
    unfold all_blocks_cell in H.
    destruct (window_at source source_stride (y `div` 8) (x `div` 8))
      as [W|] eqn:HW; [|destruct H; discriminate].
    destruct (window_at_lookup _ _ _ _ _ HW) as [_ Hk].
    destruct (Hk (8 * (y `mod` 8) + x `mod` 8)
                 ltac:(Z.to_euclidean_division_equations; lia))
      as (c & _ & Hc).
    exists c. unfold pixel_at. rewrite <- Hc. f_equal.
    unfold WINDOW_H, WINDOW_W. f_equal; [f_equal|];
      Z.to_euclidean_division_equations; lia.
  - specialize (H (y `div` 2) x
                  ltac:(Z.to_euclidean_division_equations; lia) ltac:(lia)).
    unfold half_blocks_cell in H.
    destruct (pixel_at source source_stride (2 * (y `div` 2)) x)
      as [up|] eqn:Hup; [|destruct H; discriminate].
    destruct (pixel_at source source_stride (2 * (y `div` 2) + 1) x)
      as [down|] eqn:Hdown; [|destruct H; discriminate].
    assert (y = 2 * (y `div` 2) \/ y = 2 * (y `div` 2) + 1) as [Hy' | Hy']
      by (Z.to_euclidean_division_equations; lia);
      rewrite Hy'; eauto.
Qed.

Lemma frame_cells_total (algo swidth sheight : Z) (source : list Z)
    (source_stride : Z) (term256 : bool) (lut : list lut_item) :
  lut_ok lut ->
  frame_readable source source_stride
    ((reconfig_mul algo).2 * sheight) ((reconfig_mul algo).1 * swidth) ->
  forall y x, 0 <= y < sheight -> 0 <= x < swidth ->
    is_Some (frame_cell algo source source_stride term256 lut y x).
Proof.
  unfold frame_cell, reconfig_mul. intros Hlut Hframe y x Hy Hx.
  destruct (algo =? ALGO_PLAIN); [|destruct (algo =? ALGO_ALL_BLOCKS)];
    cbn [fst snd] in Hframe.
  - apply (plain_cell_total source source_stride sheight swidth);
      try assumption.
    intros y' x' Hy' Hx'. apply Hframe; lia.
  - apply (all_blocks_cell_total source source_stride sheight swidth);
      assumption.
  - apply (half_blocks_cell_total source source_stride sheight swidth);
      try assumption.
    intros y' x' Hy' Hx'. apply Hframe; lia.
Qed.

Lemma flip_page_in_buffer (algo dwidth dheight swidth sheight : Z)
    (source : list Z) (source_stride : Z) (term256 : bool)
    (lut : list lut_item) :
  lut_ok lut -> Forall is_u8 source ->
  (is_Some (flip_page algo dwidth dheight swidth sheight source
                      source_stride term256 lut)
   <-> forall y x, 0 <= y < (reconfig_mul algo).2 * sheight ->
                   0 <= x < (reconfig_mul algo).1 * swidth ->
                   pixel_in_buffer source source_stride y x).
Proof.
  intros Hlut Hsrc. rewrite flip_page_cells. split.
  - intros H y x Hy Hx. apply pixel_at_in_buffer.
    apply (frame_cells_read_frame algo swidth sheight source source_stride
             term256 lut); [|assumption..].
    eapply frame_layout_opt_cells, H.
  - intros H. apply frame_readable_in_buffer in H; [|exact Hsrc].
    rewrite frame_layout_opt_total; [eauto|].
    apply frame_cells_total; assumption.
Qed.

(** X11: with the table of [preinit] and a buffer of bytes, [flip_page]
    is defined exactly when every pixel of the frame of
    [mul_h * sheight] rows and [mul_w * swidth] columns, the size
    [reconfig] allocates, lies inside the buffer: the writers read all
    of these pixels and no byte outside them. *)
Theorem flip_page_defined_iff_frame_in_buffer
    (algo dwidth dheight swidth sheight : Z) (source : list Z)
    (source_stride : Z) (term256 : bool) (lut : list lut_item) :
  lut_ok lut -> Forall is_u8 source ->
  (is_Some (flip_page algo dwidth dheight swidth sheight source
                      source_stride term256 lut)
   <-> forall y x, 0 <= y < (reconfig_mul algo).2 * sheight ->
                   0 <= x < (reconfig_mul algo).1 * swidth ->
                   pixel_in_buffer source source_stride y x).
Proof. apply flip_page_in_buffer. Qed.

Lemma sample_frame_bytes : Forall is_u8 sample_frame.
Proof. unfold sample_frame, is_u8. repeat constructor; lia. Qed.

Lemma flip_page_defined_iff_frame_in_buffer_witness :
  ~ is_Some (flip_page ALGO_HALF_BLOCKS 80 25 1 2 sample_frame 3 false
                       sample_lut).
Proof.
  intros H.
  pose proof (proj1 (flip_page_defined_iff_frame_in_buffer ALGO_HALF_BLOCKS
                       80 25 1 2 sample_frame 3 false sample_lut
                       sample_lut_ok sample_frame_bytes) H 2 0
                    ltac:(vm_compute; split; [discriminate | reflexivity])
                    ltac:(vm_compute; split; [discriminate | reflexivity]))
    as [_ Hin].
  vm_compute in Hin. discriminate.
Defined.



Lemma frame_cell_ext (algo swidth sheight : Z) (source1 source2 : list Z)
    (stride1 stride2 : Z) (term256 : bool) (lut : list lut_item) :
  (forall y x, 0 <= y < (reconfig_mul algo).2 * sheight ->
               0 <= x < (reconfig_mul algo).1 * swidth ->
               pixel_at source1 stride1 y x = pixel_at source2 stride2 y x) ->
  forall y x, 0 <= y < sheight -> 0 <= x < swidth ->
    frame_cell algo source1 stride1 term256 lut y x
    = frame_cell algo source2 stride2 term256 lut y x.
Proof.
  unfold frame_cell, reconfig_mul. intros H y x Hy Hx.
  destruct (algo =? ALGO_PLAIN); [|destruct (algo =? ALGO_ALL_BLOCKS)];
    cbn [fst snd] in H.
  - unfold plain_cell. rewrite H by lia. reflexivity.
  - unfold all_blocks_cell, window_at.
    rewrite (mapM_ext_in _ (fun k => pixel_at source2 stride2
                                       (WINDOW_H * y + k `quot` WINDOW_W)
                                       (WINDOW_W * x + k `rem` WINDOW_W)));
      [reflexivity|].
    intros k Hk%elem_of_seqZ_0. apply H;
      unfold WINDOW_SZ, WINDOW_H, WINDOW_W in *;
      Z.to_euclidean_division_equations; lia.
  - unfold half_blocks_cell. rewrite !H by lia. reflexivity.
Qed.

(** X13: the page depends on the buffer through the pixels of the frame
    only.  Two buffers, of any lengths and strides, that hold the same
    pixels in the [mul_h * sheight] rows and [mul_w * swidth] columns of
    the frame give the same page: the padding of the rows and the bytes
    after the frame are never shown. *)
Theorem flip_page_depends_on_frame_pixels
    (algo dwidth dheight swidth sheight : Z) (source1 source2 : list Z)
    (stride1 stride2 : Z) (term256 : bool) (lut : list lut_item) :
  (forall y x, 0 <= y < (reconfig_mul algo).2 * sheight ->
               0 <= x < (reconfig_mul algo).1 * swidth ->
               pixel_at source1 stride1 y x = pixel_at source2 stride2 y x) ->
  flip_page algo dwidth dheight swidth sheight source1 stride1 term256 lut
  = flip_page algo dwidth dheight swidth sheight source2 stride2 term256 lut.
Proof.
  intros H. rewrite !flip_page_cells. apply frame_layout_opt_ext.
  apply (frame_cell_ext algo swidth sheight). exact H.
Qed.

Lemma flip_page_depends_on_frame_pixels_witness :
  flip_page ALGO_HALF_BLOCKS 80 25 1 1 sample_frame 3 true sample_lut
  = flip_page ALGO_HALF_BLOCKS 80 25 1 1 sample_padded_frame 4 true
              sample_lut.
Proof.
  apply (flip_page_depends_on_frame_pixels ALGO_HALF_BLOCKS 80 25 1 1
           sample_frame sample_padded_frame 3 4 true sample_lut).
  intros y x Hy Hx. cbn in Hy, Hx.
  assert (x = 0) as -> by lia.
  assert (y = 0 \/ y = 1) as [-> | ->] by lia; reflexivity.
Defined.

(** X14: [flip_page] stays inside a frame allocated as [reconfig] asks
    for it.  If the buffer holds [mul_h * sheight] rows of [stride]
    bytes and a row holds the [mul_w * swidth] pixels of three bytes,
    then with the table of [preinit] the page is defined: no read falls
    outside the buffer, and no table lookup or division is undefined. *)
Theorem flip_page_defined_on_allocated_frame
    (algo dwidth dheight swidth sheight : Z) (source : list Z)
    (source_stride : Z) (term256 : bool) (lut : list lut_item) :
  lut_ok lut -> Forall is_u8 source ->
  3 * ((reconfig_mul algo).1 * swidth) <= source_stride ->
  (reconfig_mul algo).2 * sheight * source_stride
    <= Z.of_nat (length source) ->
  is_Some (flip_page algo dwidth dheight swidth sheight source source_stride
                     term256 lut).
Proof.
  intros Hlut Hsrc Hrow Hlen.
  apply flip_page_in_buffer; [assumption..|].
  intros y x Hy Hx. unfold pixel_in_buffer. split; nia.
Qed.

Lemma flip_page_defined_on_allocated_frame_witness :
  is_Some (flip_page ALGO_HALF_BLOCKS 80 25 1 1 sample_frame 3 true
                     sample_lut).
Proof.
  apply (flip_page_defined_on_allocated_frame ALGO_HALF_BLOCKS 80 25 1 1
           sample_frame 3 true sample_lut sample_lut_ok sample_frame_bytes);
    vm_compute; discriminate.
Defined.

(** *** All blocks against half blocks *)

Lemma split_window_wf (up down : rgb_color) :
  wf_color up -> wf_color down -> wf_window (split_window up down).
Proof.
  intros Hup Hdown. split; [reflexivity|]. unfold split_window.
  apply Forall_app. split; apply Forall_replicate; assumption.
Qed.

Lemma lower_half_fits_split (up down : rgb_color) :
  wf_color up -> wf_color down ->
  best_fg_bg LOWER_HALF (split_window up down) = Some (down, up, 0) /\
  elem_loss LOWER_HALF (split_window up down) = 0.
Proof.
  intros Hup Hdown.
  pose proof (split_window_wf up down Hup Hdown) as Hwin.
  destruct (catalog_proper LOWER_HALF) as (be & Hbe & _);
    [unfold LOWER_HALF, NUM_ELEMENTS; lia|].
  assert (pick true (bitmap be) 0 (split_window up down)
          = replicate 32 down) as HF1.
  { injection Hbe as <-. vm_compute. reflexivity. }
  assert (pick false (bitmap be) 0 (split_window up down)
          = replicate 32 up) as HB1.
  { injection Hbe as <-. vm_compute. reflexivity. }
  unfold elem_loss. rewrite Hbe.
  rewrite (best_fg_bg_exact LOWER_HALF be _ Hbe Hwin)
    by (rewrite ?HF1, ?HB1; discriminate).
  unfold mask_loss. rewrite HF1, HB1.
  rewrite !mean_color_replicate, !chan_loss_replicate by lia.
  split; reflexivity.
Qed.

(** On a window split into an upper and a lower colour the search
    returns the lower half block, whose foreground is the lower colour. *)
Lemma guess_best_split (up down : rgb_color)
    (best_fg0 best_bg0 : option rgb_color) :
  wf_color up -> wf_color down ->
  guess_best_block_element (split_window up down) best_fg0 best_bg0
  = Some (xe2_x96 "132", Some down, Some up).
Proof.
  intros Hup Hdown.
  pose proof (split_window_wf up down Hup Hdown) as Hwin.
  destruct (lower_half_fits_split up down Hup Hdown) as [Hfit0 Hloss0].
  unfold LOWER_HALF in Hfit0, Hloss0.
  destruct (guess_best_first_min _ best_fg0 best_bg0 Hwin)
    as (e & be & fg & bg & Hg & He & Hbe & Hfit & _ & Hfirst).
  assert (e = 0) as ->.
  { destruct (decide (e = 0)) as [|Hne]; [assumption|].
    specialize (Hfirst 0 ltac:(lia)).
    rewrite Hloss0 in Hfirst.
    destruct (best_fg_bg_loss e _ He Hwin) as (? & ? & _ & Hb). lia. }
  rewrite Hfit0 in Hfit. injection Hfit as <- <- _. rewrite Hg.
  change (block_elements !! Z.to_nat 0) with
    (Some {| bitmap := binary "0000000000000000000000000000000011111111111111111111111111111111";
             utf8 := xe2_x96 "132" |}) in Hbe.
  injection Hbe as <-. reflexivity.
Qed.

Lemma window_at_split (up down : option rgb_color) :
  mapM (fun k => if k <? 32 then up else down) (seqZ 0 WINDOW_SZ)
  = (A ← up; B ← down; Some (split_window A B)).
Proof. destruct up, down; vm_compute; reflexivity. Qed.


Lemma window_at_upscaled (source1 source2 : list Z)
    (stride1 stride2 : Z) (y x : Z) :
  (forall k, 0 <= k < WINDOW_SZ ->
     pixel_at source1 stride1 (WINDOW_H * y + k `quot` WINDOW_W)
              (WINDOW_W * x + k `rem` WINDOW_W)
     = pixel_at source2 stride2
         (if k <? 32 then 2 * y else 2 * y + 1) x) ->
  window_at source1 stride1 y x
  = (up ← pixel_at source2 stride2 (2 * y) x;
     down ← pixel_at source2 stride2 (2 * y + 1) x;
     Some (split_window up down)).
Proof.
  intros H. rewrite <- window_at_split. unfold window_at.
  apply mapM_ext_in. intros k Hk%elem_of_seqZ_0. rewrite H by exact Hk.
  destruct (k <? 32); reflexivity.
Qed.


Lemma all_blocks_cell_of_window (source : list Z) (source_stride : Z)
    (term256 : bool) (lut : list lut_item) (y x : Z)
    (W : option (list rgb_color)) (glyph : string) (cfg cbg : rgb_color) :
  window_at source source_stride y x = W ->
  (forall w, W = Some w ->
     guess_best_block_element w None None = Some (glyph, Some cfg, Some cbg)) ->
  all_blocks_cell source source_stride term256 lut y x
  = (_ ← W;
     s1 ← print_color term256 lut ESC_COLOR256_BG ESC_COLOR_BG
                      (r cbg) (g cbg) (b cbg);
     s2 ← print_color term256 lut ESC_COLOR256_FG ESC_COLOR_FG
                      (r cfg) (g cfg) (b cfg);
     Some (s1 +:+ s2 +:+ glyph)).
Proof.
  intros HW Hg. unfold all_blocks_cell. rewrite HW.
  destruct W as [w|]; [|reflexivity]. cbn [mbind option_bind].
  rewrite (Hg w eq_refl). reflexivity.
Qed.

Lemma all_blocks_cell_upscaled (source1 source2 : list Z)
    (stride1 stride2 : Z) (term256 : bool) (lut : list lut_item) (y x : Z) :
  Forall is_u8 source2 ->
  (forall k, 0 <= k < WINDOW_SZ ->
     pixel_at source1 stride1 (WINDOW_H * y + k `quot` WINDOW_W)
              (WINDOW_W * x + k `rem` WINDOW_W)
     = pixel_at source2 stride2
         (if k <? 32 then 2 * y else 2 * y + 1) x) ->
  all_blocks_cell source1 stride1 term256 lut y x
  = half_blocks_cell source2 stride2 term256 lut y x.
Proof.
  intros Hsrc H.
  pose proof (window_at_upscaled source1 source2 stride1 stride2 y x H) as HW.
  unfold half_blocks_cell.
  destruct (pixel_at source2 stride2 (2 * y) x) as [up|] eqn:Hup.
  - destruct (pixel_at source2 stride2 (2 * y + 1) x) as [down|] eqn:Hdown.
    + rewrite (all_blocks_cell_of_window source1 stride1 term256 lut y x
                 _ (xe2_x96 "132") down up HW); [reflexivity|].
      intros w [= <-]. apply guess_best_split;
        eapply pixel_at_bytes; try exact Hsrc; eassumption.
    + rewrite (all_blocks_cell_of_window source1 stride1 term256 lut y x
                 _ (xe2_x96 "132") up up HW); [reflexivity|].
      intros w [=].
  - rewrite (all_blocks_cell_of_window source1 stride1 term256 lut y x
               _ (xe2_x96 "132") {| r := 0; g := 0; b := 0 |}
               {| r := 0; g := 0; b := 0 |} HW); [reflexivity|].
    intros w [=].
Qed.

(** X15: the all-blocks page of an upscaled frame is the half-blocks
    page of the frame.  If each pixel of a frame of bytes is repeated
    over four rows of eight columns, so that every 8x8 window is one
    colour over another, [write_all_blocks] fits the lower half block
    with the upper colour as background and the lower one as
    foreground, which is what [write_half_blocks] prints for the two
    pixels; the two pages are equal byte for byte, in either colour
    mode and whatever the table holds. *)
Theorem all_blocks_page_of_upscaled_frame
    (dwidth dheight swidth sheight : Z) (source1 source2 : list Z)
    (stride1 stride2 : Z) (term256 : bool) (lut : list lut_item) :
  Forall is_u8 source2 ->
  (forall y x, 0 <= y < WINDOW_H * sheight -> 0 <= x < WINDOW_W * swidth ->
     pixel_at source1 stride1 y x
     = pixel_at source2 stride2 (y `div` 4) (x `div` 8)) ->
  flip_page ALGO_ALL_BLOCKS dwidth dheight swidth sheight source1 stride1
            term256 lut
  = flip_page ALGO_HALF_BLOCKS dwidth dheight swidth sheight source2 stride2
              term256 lut.
Proof.
  intros Hsrc H. rewrite !flip_page_cells. apply frame_layout_opt_ext.
  intros y x Hy Hx.
  change (all_blocks_cell source1 stride1 term256 lut y x
          = half_blocks_cell source2 stride2 term256 lut y x).
  apply all_blocks_cell_upscaled; [exact Hsrc|].
  intros k Hk. unfold WINDOW_SZ, WINDOW_H, WINDOW_W in *.
  rewrite H by (Z.to_euclidean_division_equations; lia).
  f_equal.
  - destruct (k <? 32) eqn:E;
      [apply Z.ltb_lt in E | apply Z.ltb_ge in E];
      Z.to_euclidean_division_equations; lia.
  - Z.to_euclidean_division_equations; lia.
Qed.


Lemma all_blocks_page_of_upscaled_frame_witness :
  flip_page ALGO_ALL_BLOCKS 80 25 1 1 sample_split_frame 24 true sample_lut
  = flip_page ALGO_HALF_BLOCKS 80 25 1 1 sample_frame 3 true sample_lut.
Proof.
  apply (all_blocks_page_of_upscaled_frame 80 25 1 1 sample_split_frame
           sample_frame 24 3 true sample_lut sample_frame_bytes).
  intros y x Hy Hx. unfold WINDOW_H, WINDOW_W in Hy, Hx.
  assert (y = 0 \/ y = 1 \/ y = 2 \/ y = 3 \/ y = 4 \/ y = 5 \/ y = 6 \/ y = 7)
    as Hy' by lia.
  assert (x = 0 \/ x = 1 \/ x = 2 \/ x = 3 \/ x = 4 \/ x = 5 \/ x = 6 \/ x = 7)
    as Hx' by lia.
  clear Hy Hx.
  repeat (destruct Hy' as [-> | Hy']);
    repeat (destruct Hx' as [-> | Hx']); subst; reflexivity.
Defined.
